(** * Spatial interpolation: grid assembly, resampling and gap filling

    A shallow embedding of [main.py]: [shapefile_to_grid],
    [thiessen_interpolation], [bilinear_interpolation],
    [idw_interpolation] and the drivers, with the properties stated about
    them.

    Conventions of the embedding.
    - A Python call either returns a value or raises: [result].
    - Grid assembly and gap filling are modelled over cells that are
      [NaN] or a finite real number, with exact arithmetic: their
      properties say which cells are read and written, and what the
      values are in exact arithmetic.
    - The resamplers are modelled twice.  Over binary64 floats ([f64],
      every operation rounded to nearest, with overflow and infinities):
      this is what the code computes for a float [factor].  Over the
      exact cells with a rational [factor]: this is used for a whole
      [factor], where the extents [M * factor] and the aligned positions
      [(n * i) / n] are exact in binary64 as well.
    - Sample coordinates are canonical rationals.
    - A 2-D [numpy] array is a shape and a cell store indexed by
      (row, column).  Allocation never fails for lack of memory. *)

From Stdlib Require Import ZArith QArith Qround Qcanon Reals Lra Lia Bool.
From Stdlib Require Import List Permutation Sorted.
From Stdlib Require Import Qreals Qpower.
From Stdlib Require Floats.
From Stdlib Require Lqa.
From Stdlib Require Ascii String.
Import ListNotations.
Import String.StringSyntax.
Delimit Scope string_scope with string.

Close Scope Qc_scope.
Close Scope Q_scope.
Close Scope R_scope.
Close Scope Z_scope.

(** ** Python outcomes *)

Inductive exn : Set :=
| ValueError
| TypeError
| IndexError
| KeyError
| ZeroDivisionError
| OverflowError.

Inductive result (A : Type) : Type :=
| Ok (a : A)
| Raise (e : exn).

Arguments Ok {A} a.
Arguments Raise {A} e.

Definition bind {A B : Type} (m : result A) (f : A -> result B) : result B :=
  match m with
  | Ok a => f a
  | Raise e => Raise e
  end.

Declare Scope py_scope.
Delimit Scope py_scope with py.
Notation "x <- m ;; k" := (bind m (fun x => k))
  (at level 61, m at next level, right associativity) : py_scope.
Open Scope py_scope.

(** [for a in l: s = body(a, s)], stopping at the first exception. *)
Fixpoint for_each {A S : Type} (l : list A) (body : A -> S -> result S) (s : S)
  : result S :=
  match l with
  | [] => Ok s
  | a :: l' => s' <- body a s ;; for_each l' body s'
  end.

(** [range(n)] for a machine-size non-negative [n]. *)
Definition range (n : nat) : list nat := seq 0 n.

(** [for i in range(M): for j in range(N): s = body(i, j, s)]. *)
Definition for_range2 {S : Type} (M N : nat)
  (body : nat -> nat -> S -> result S) (s : S) : result S :=
  for_each (range M) (fun i s => for_each (range N) (fun j s => body i j s) s) s.

(** Python list indexing [l[i]] at a non-negative index. *)
Definition list_getitem {A : Type} (l : list A) (i : nat) : result A :=
  match nth_error l i with
  | Some a => Ok a
  | None => Raise IndexError
  end.

(** [[f(a) for a in l]] where [f] may raise. *)
Fixpoint map_result {A B : Type} (f : A -> result B) (l : list A)
  : result (list B) :=
  match l with
  | [] => Ok []
  | a :: l' => b <- f a ;; bs <- map_result f l' ;; Ok (b :: bs)
  end.

(** ** Floating-point cells *)

Inductive npfloat : Type :=
| NaN
| Fin (r : R).

Definition isnan (v : npfloat) : bool :=
  match v with
  | NaN => true
  | Fin _ => false
  end.

Definition fadd (a b : npfloat) : npfloat :=
  match a, b with
  | Fin x, Fin y => Fin (x + y)%R
  | _, _ => NaN
  end.

Definition fmul (a b : npfloat) : npfloat :=
  match a, b with
  | Fin x, Fin y => Fin (x * y)%R
  | _, _ => NaN
  end.

(** Division of cells.  A zero divisor gives no finite quotient ([numpy]
    returns an infinity or NaN), written [NaN] here; the program only
    divides by a sum of positive weights (see [np_sum_weights_pos]). *)
Definition fdiv (a b : npfloat) : npfloat :=
  match a, b with
  | Fin x, Fin y => if Req_dec_T y 0 then NaN else Fin (x / y)%R
  | _, _ => NaN
  end.

(** ** Two-dimensional arrays *)

Record ndarray : Type := mkArray {
  nrows : nat;
  ncols : nat;
  item : nat -> nat -> npfloat
}.

Definition shape (A : ndarray) : nat * nat := (nrows A, ncols A).

(** Two arrays with the same shape and the same cells. *)
Definition same_array (A B : ndarray) : Prop :=
  shape A = shape B /\
  forall i j, i < nrows A -> j < ncols A -> item A i j = item B i j.

(** The rows of an array, for display. *)
Definition to_rows (A : ndarray) : list (list npfloat) :=
  map (fun i => map (fun j => item A i j) (range (ncols A))) (range (nrows A)).

(** [np.array(rows)] for a rectangular list of rows. *)
Definition of_rows (rows : list (list npfloat)) : ndarray :=
  {| nrows := length rows;
     ncols := length (hd [] rows);
     item := fun i j => nth j (nth i rows []) NaN |}.

(** [np.full((M, N), v)]. *)
Definition np_full (M N : nat) (v : npfloat) : ndarray :=
  {| nrows := M; ncols := N; item := fun _ _ => v |}.

(** [np.empty((M, N))]: a negative dimension raises [ValueError]; the
    cells of a fresh array are unspecified, here a placeholder. *)
Definition np_empty (M N : Z) : result ndarray :=
  if ((M <? 0) || (N <? 0))%Z then Raise ValueError
  else Ok (np_full (Z.to_nat M) (Z.to_nat N) (Fin 0)).

(** [A.copy()]: arrays are values here, so the copy is the array. *)
Definition copy (A : ndarray) : ndarray := A.

(** One axis of [numpy] indexing: a negative index counts from the end,
    anything outside [-n, n-1] raises [IndexError]. *)
Definition norm_index (n : nat) (i : Z) : result nat :=
  if ((0 <=? i) && (i <? Z.of_nat n))%Z then Ok (Z.to_nat i)
  else if ((- Z.of_nat n <=? i) && (i <? 0))%Z then Ok (Z.to_nat (i + Z.of_nat n))
  else Raise IndexError.

(** [A[i, j]]. *)
Definition getitem (A : ndarray) (i j : Z) : result npfloat :=
  i' <- norm_index (nrows A) i ;;
  j' <- norm_index (ncols A) j ;;
  Ok (item A i' j').

(** The array [A] with cell [(i, j)] replaced by [v]. *)
Definition updated (A : ndarray) (i j : nat) (v : npfloat) : ndarray :=
  {| nrows := nrows A;
     ncols := ncols A;
     item := fun a b => if ((a =? i) && (b =? j))%nat then v else item A a b |}.

(** [A[i, j] = v]. *)
Definition setitem (A : ndarray) (i j : Z) (v : npfloat) : result ndarray :=
  i' <- norm_index (nrows A) i ;;
  j' <- norm_index (ncols A) j ;;
  Ok (updated A i' j' v).

(** ** Python numbers *)

(** [int(q)]: truncation toward zero. *)
Definition py_int (q : Q) : Z := Z.quot (Qnum q) (Zpos (Qden q)).

(** [a / b] (true division). *)
Definition truediv (a b : Q) : result Q :=
  if Qeq_bool b 0 then Raise ZeroDivisionError else Ok (a / b)%Q.

(** [round(q)]: to the nearest integer, a tie to the even one. *)
Definition py_round (q : Q) : Z :=
  let f := Qfloor q in
  match (q - inject_Z f ?= 1 # 2)%Q with
  | Lt => f
  | Gt => (f + 1)%Z
  | Eq => if Z.even f then f else (f + 1)%Z
  end.

(** ** Nearest-neighbour resampling, with an exact factor

    In this section and the next [factor] is a rational and the
    arithmetic is exact.  For a whole [factor] this is what the code
    computes; for a float [factor] in general see the binary64
    resamplers below. *)

(** The output extent [int(M * factor)] of an axis of extent [M]. *)
Definition out_extent (M : nat) (factor : Q) : Z :=
  py_int (inject_Z (Z.of_nat M) * factor).

(** The source index of output index [i_out] on an axis of extent [M]:
    [x = i_out / factor; i_nn = int(round(x)); min(max(i_nn, 0), M-1)]. *)
Definition nn_index (M : nat) (factor : Q) (i_out : nat) : result Z :=
  x <- truediv (inject_Z (Z.of_nat i_out)) factor ;;
  let i_nn := py_round x in
  Ok (Z.min (Z.max i_nn 0) (Z.of_nat M - 1)).

(** The value assigned to [Z_out[i_out, j_out]]. *)
Definition thiessen_cell (Z_in : ndarray) (factor : Q) (i_out j_out : nat)
  : result npfloat :=
  i_nn <- nn_index (nrows Z_in) factor i_out ;;
  j_nn <- nn_index (ncols Z_in) factor j_out ;;
  getitem Z_in i_nn j_nn.

Definition thiessen_interpolation (Z_in : ndarray) (factor : Q)
  : result ndarray :=
  let M := nrows Z_in in
  let N := ncols Z_in in
  let M_out := out_extent M factor in
  let N_out := out_extent N factor in
  Z_out <- np_empty M_out N_out ;;
  for_range2 (Z.to_nat M_out) (Z.to_nat N_out)
    (fun i_out j_out Z_out =>
       v <- thiessen_cell Z_in factor i_out j_out ;;
       setitem Z_out (Z.of_nat i_out) (Z.of_nat j_out) v)
    Z_out.

(** ** Bilinear resampling, with an exact factor *)

(** The corner indices and the fractional offset on one axis:
    [x = i_out / factor; i0 = int(floor(x)); i1 = min(i0+1, M-1);
     alpha = x - i0]. *)
Definition corner_index (M : nat) (factor : Q) (i_out : nat)
  : result (Z * Z * Q) :=
  x <- truediv (inject_Z (Z.of_nat i_out)) factor ;;
  let i0 := Qfloor x in
  let i1 := Z.min (i0 + 1) (Z.of_nat M - 1) in
  Ok (i0, i1, (x - inject_Z i0)%Q).

(** A Python number as a cell. *)
Definition of_Q (q : Q) : npfloat := Fin (Q2R q).

(** The blend
    [(1-a)*(1-b)*s00 + a*(1-b)*s10 + (1-a)*b*s01 + a*b*s11]. *)
Definition blend (a b : Q) (s00 s10 s01 s11 : npfloat) : npfloat :=
  fadd (fadd (fadd (fmul (of_Q ((1 - a) * (1 - b))) s00)
                   (fmul (of_Q (a * (1 - b))) s10))
             (fmul (of_Q ((1 - a) * b)) s01))
       (fmul (of_Q (a * b)) s11).

(** The value assigned to [Z_out[i_out, j_out]]. *)
Definition bilinear_cell (Z_in : ndarray) (factor : Q) (i_out j_out : nat)
  : result npfloat :=
  ci <- corner_index (nrows Z_in) factor i_out ;;
  cj <- corner_index (ncols Z_in) factor j_out ;;
  let '(i0, i1, a) := ci in
  let '(j0, j1, b) := cj in
  s00 <- getitem Z_in i0 j0 ;;
  s10 <- getitem Z_in i1 j0 ;;
  s01 <- getitem Z_in i0 j1 ;;
  s11 <- getitem Z_in i1 j1 ;;
  Ok (blend a b s00 s10 s01 s11).

Definition bilinear_interpolation (Z_in : ndarray) (factor : Q)
  : result ndarray :=
  let M := nrows Z_in in
  let N := ncols Z_in in
  let M_out := out_extent M factor in
  let N_out := out_extent N factor in
  Z_out <- np_empty M_out N_out ;;
  for_range2 (Z.to_nat M_out) (Z.to_nat N_out)
    (fun i_out j_out Z_out =>
       v <- bilinear_cell Z_in factor i_out j_out ;;
       setitem Z_out (Z.of_nat i_out) (Z.of_nat j_out) v)
    Z_out.

(** ** Binary64 numbers

    The resamplers compute their extents and source positions with
    Python floats.  A float is NaN, an infinity, or a finite rational;
    the sign of a zero has no effect on what the resamplers do and is
    not kept.  Every operation returns the exact result rounded to the
    nearest binary64 number, a tie to the one with an even significand. *)

Inductive f64 : Type :=
| F_nan
| F_inf (negative : bool)
| F_fin (v : Q).

(** [2^e], for an exponent of either sign. *)
Definition pow2 (e : Z) : Q := (2 ^ e)%Q.

(** The exponent [e] with [2^e <= x < 2^(e+1)], for [x > 0]. *)
Definition ilog2 (x : Q) : Z :=
  let e := (Z.log2 (Qnum x) - Z.log2 (Zpos (Qden x)))%Z in
  if Qle_bool (pow2 e) x then e else (e - 1)%Z.

(** The exponent of the unit in the last place: 53 significant bits,
    and no exponent below that of the subnormal numbers. *)
Definition ulp_exp (x : Q) : Z := Z.max (ilog2 x - 52) (-1074).

(** Rounding of a positive rational to a multiple of its unit in the
    last place. *)
Definition round_pos (x : Q) : Q :=
  let q := ulp_exp x in
  (inject_Z (py_round (x / pow2 q)) * pow2 q)%Q.

(** Rounding of a rational to binary64; a result of magnitude [2^1024]
    or more is an infinity. *)
Definition fl (x : Q) : f64 :=
  match (x ?= 0)%Q with
  | Eq => F_fin 0
  | Gt => let r := round_pos x in
          if Qle_bool (pow2 1024) r then F_inf false else F_fin (Qred r)
  | Lt => let r := round_pos (- x) in
          if Qle_bool (pow2 1024) r then F_inf true else F_fin (Qred (- r))
  end.

(** [- a], [a + b], [a - b] and [a * b] on floats. *)
Definition neg64 (a : f64) : f64 :=
  match a with
  | F_nan => F_nan
  | F_inf s => F_inf (negb s)
  | F_fin v => F_fin (- v)
  end.

Definition add64 (a b : f64) : f64 :=
  match a, b with
  | F_nan, _ | _, F_nan => F_nan
  | F_fin x, F_fin y => fl (x + y)
  | F_inf s, F_inf t => if Bool.eqb s t then F_inf s else F_nan
  | F_inf s, F_fin _ | F_fin _, F_inf s => F_inf s
  end.

Definition sub64 (a b : f64) : f64 := add64 a (neg64 b).

Definition mul64 (a b : f64) : f64 :=
  match a, b with
  | F_nan, _ | _, F_nan => F_nan
  | F_fin x, F_fin y => fl (x * y)
  | F_inf s, F_inf t => F_inf (xorb s t)
  | F_inf s, F_fin v | F_fin v, F_inf s =>
      match (v ?= 0)%Q with
      | Eq => F_nan
      | Gt => F_inf s
      | Lt => F_inf (negb s)
      end
  end.

(** [float(n)] for a Python [int], as the number the float holds: an
    [int] too large for a float raises [OverflowError]. *)
Definition float_of_int (n : Z) : result Q :=
  match fl (inject_Z n) with
  | F_fin v => Ok v
  | _ => Raise OverflowError
  end.

(** [int(x)] for a float: truncation toward zero. *)
Definition int_of_float (x : f64) : result Z :=
  match x with
  | F_nan => Raise ValueError
  | F_inf _ => Raise OverflowError
  | F_fin v => Ok (py_int v)
  end.

(** [round(x)] for a float. *)
Definition round_float (x : f64) : result Z :=
  match x with
  | F_nan => Raise ValueError
  | F_inf _ => Raise OverflowError
  | F_fin v => Ok (py_round v)
  end.

(** [int(np.floor(x))]. *)
Definition floor_float (x : f64) : result Z :=
  match x with
  | F_nan => Raise ValueError
  | F_inf _ => Raise OverflowError
  | F_fin v => Ok (Qfloor v)
  end.

(** [n * b] for an [int] [n] and a float [b]: the [int] is converted
    first. *)
Definition int_mul_float (n : Z) (b : f64) : result f64 :=
  a <- float_of_int n ;;
  Ok (mul64 (F_fin a) b).

(** [n / b] for an [int] [n] and a float [b]: the [int] is converted,
    then a zero divisor raises [ZeroDivisionError]. *)
Definition int_div_float (n : Z) (b : f64) : result f64 :=
  a <- float_of_int n ;;
  match b with
  | F_fin y =>
      if Qeq_bool y 0 then Raise ZeroDivisionError else Ok (fl (a / y))
  | F_inf _ => Ok (F_fin 0)
  | F_nan => Ok F_nan
  end.

(** [a - n] and [n - a] for a float [a] and an [int] [n]. *)
Definition float_sub_int (a : f64) (n : Z) : result f64 :=
  b <- float_of_int n ;;
  Ok (sub64 a (F_fin b)).

Definition int_sub_float (n : Z) (a : f64) : result f64 :=
  b <- float_of_int n ;;
  Ok (sub64 (F_fin b) a).

(** ** Comparison with the machine's floats

    The rounding above is compared, on sample numbers, with the binary64
    arithmetic built into the proof assistant.  [to_float] and
    [of_float] convert between the two representations. *)

(** A machine float as a float of this model. *)
Definition of_spec (s : SpecFloat.spec_float) : f64 :=
  match s with
  | SpecFloat.S754_zero _ => F_fin 0
  | SpecFloat.S754_infinity s => F_inf s
  | SpecFloat.S754_nan => F_nan
  | SpecFloat.S754_finite s m e =>
      let v := Qred (inject_Z (Zpos m) * pow2 e) in
      F_fin (if s then (- v)%Q else v)
  end.

Definition of_float (x : PrimFloat.float) : f64 := of_spec (FloatOps.Prim2SF x).

(** The odd part [m] and the exponent [e] of a positive dyadic rational
    [m * 2^e]. *)
Definition dyadic (n d : positive) : positive * Z :=
  let t := Z.log2 (Z.land (Zpos n) (- Zpos n)) in
  (Z.to_pos (Zpos n / 2 ^ t), (t - Z.log2 (Zpos d))%Z).

(** A float of this model that holds a binary64 number, as a machine
    float. *)
Definition to_float (x : f64) : PrimFloat.float :=
  match x with
  | F_nan => PrimFloat.nan
  | F_inf s => if s then PrimFloat.neg_infinity else PrimFloat.infinity
  | F_fin v =>
      FloatOps.SF2Prim
        match Qnum v with
        | Z0 => SpecFloat.S754_zero false
        | Zpos n => let (m, e) := dyadic n (Qden v) in SpecFloat.S754_finite false m e
        | Zneg n => let (m, e) := dyadic n (Qden v) in SpecFloat.S754_finite true m e
        end
  end.

(** Equality of floats, NaN taken equal to NaN. *)
Definition f64_eqb (a b : f64) : bool :=
  match a, b with
  | F_nan, F_nan => true
  | F_inf s, F_inf t => Bool.eqb s t
  | F_fin v, F_fin w => Qeq_bool v w
  | _, _ => false
  end.

(** Sample numbers: whole numbers, fractions that are not binary64
    numbers before rounding, numbers near the overflow threshold,
    subnormal numbers, negative numbers, infinities and NaN. *)
Definition samples64 : list f64 :=
  map fl [ 0; 1; 3; 5; 1 # 3; 2 # 5; 3 # 5; 6 # 5; 1 # 10;
           inject_Z (10 ^ 308); inject_Z (2 ^ 53 + 1);
           pow2 (-1074); 3 * pow2 (-1074); - (1 # 10) ]%Q
  ++ [ F_inf false; F_inf true; F_nan ].

(** An operation of this model and a machine operation give the same
    result on [a] and [b]. *)
Definition agrees (op : f64 -> f64 -> f64)
  (machine : PrimFloat.float -> PrimFloat.float -> PrimFloat.float)
  (a b : f64) : bool :=
  f64_eqb (op a b) (of_float (machine (to_float a) (to_float b))).

(** The same for the rounded quotient of two finite numbers, the
    divisor not zero. *)
Definition agrees_div (a b : f64) : bool :=
  match a, b with
  | F_fin x, F_fin y =>
      Qeq_bool y 0
      || f64_eqb (fl (x / y)) (of_float (PrimFloat.div (to_float a) (to_float b)))
  | _, _ => true
  end.

(** ** Arrays of binary64 cells *)

(** The arrays of [numpy] with float cells, and the operations of the
    section on two-dimensional arrays over them. *)
Record ndarray64 : Type := mkArray64 {
  nrows64 : nat;
  ncols64 : nat;
  item64 : nat -> nat -> f64
}.

Definition shape64 (A : ndarray64) : nat * nat := (nrows64 A, ncols64 A).

Definition of_rows64 (rows : list (list f64)) : ndarray64 :=
  {| nrows64 := length rows;
     ncols64 := length (hd [] rows);
     item64 := fun i j => nth j (nth i rows []) F_nan |}.

Definition np_full64 (M N : nat) (v : f64) : ndarray64 :=
  {| nrows64 := M; ncols64 := N; item64 := fun _ _ => v |}.

Definition np_empty64 (M N : Z) : result ndarray64 :=
  if ((M <? 0) || (N <? 0))%Z then Raise ValueError
  else Ok (np_full64 (Z.to_nat M) (Z.to_nat N) (F_fin 0)).

Definition getitem64 (A : ndarray64) (i j : Z) : result f64 :=
  i' <- norm_index (nrows64 A) i ;;
  j' <- norm_index (ncols64 A) j ;;
  Ok (item64 A i' j').

Definition updated64 (A : ndarray64) (i j : nat) (v : f64) : ndarray64 :=
  {| nrows64 := nrows64 A;
     ncols64 := ncols64 A;
     item64 := fun a b => if ((a =? i) && (b =? j))%nat then v else item64 A a b |}.

Definition setitem64 (A : ndarray64) (i j : Z) (v : f64) : result ndarray64 :=
  i' <- norm_index (nrows64 A) i ;;
  j' <- norm_index (ncols64 A) j ;;
  Ok (updated64 A i' j' v).

(** ** The resamplers in binary64

    [thiessen_interpolation] and [bilinear_interpolation] as the code
    computes them for a float [factor].  An [int] factor below [2^53]
    behaves as the float of the same value. *)

(** [int(M * factor)]. *)
Definition out_extent64 (M : nat) (factor : f64) : result Z :=
  p <- int_mul_float (Z.of_nat M) factor ;;
  int_of_float p.

(** The source index of one axis:
    [x = i_out / factor; i_nn = int(round(x)); min(max(i_nn, 0), M-1)]. *)
Definition nn_index64 (M : nat) (factor : f64) (i_out : nat) : result Z :=
  x <- int_div_float (Z.of_nat i_out) factor ;;
  i_nn <- round_float x ;;
  Ok (Z.min (Z.max i_nn 0) (Z.of_nat M - 1)).

(** The value assigned to [Z_out[i_out, j_out]], in the order of the
    source: both positions, both roundings, both clamps, the read. *)
Definition thiessen_cell64 (Z_in : ndarray64) (factor : f64) (i_out j_out : nat)
  : result f64 :=
  x <- int_div_float (Z.of_nat i_out) factor ;;
  y <- int_div_float (Z.of_nat j_out) factor ;;
  i_nn <- round_float x ;;
  j_nn <- round_float y ;;
  let i_nn := Z.min (Z.max i_nn 0) (Z.of_nat (nrows64 Z_in) - 1) in
  let j_nn := Z.min (Z.max j_nn 0) (Z.of_nat (ncols64 Z_in) - 1) in
  getitem64 Z_in i_nn j_nn.

Definition thiessen_interpolation64 (Z_in : ndarray64) (factor : f64)
  : result ndarray64 :=
  let M := nrows64 Z_in in
  let N := ncols64 Z_in in
  M_out <- out_extent64 M factor ;;
  N_out <- out_extent64 N factor ;;
  Z_out <- np_empty64 M_out N_out ;;
  for_range2 (Z.to_nat M_out) (Z.to_nat N_out)
    (fun i_out j_out Z_out =>
       v <- thiessen_cell64 Z_in factor i_out j_out ;;
       setitem64 Z_out (Z.of_nat i_out) (Z.of_nat j_out) v)
    Z_out.

(** The corner indices and the offset of one axis:
    [x = i_out / factor; i0 = int(np.floor(x)); i1 = min(i0+1, M-1);
     alpha = x - i0]. *)
Definition corner_index64 (M : nat) (factor : f64) (i_out : nat)
  : result (Z * Z * f64) :=
  x <- int_div_float (Z.of_nat i_out) factor ;;
  i0 <- floor_float x ;;
  let i1 := Z.min (i0 + 1) (Z.of_nat M - 1) in
  a <- float_sub_int x i0 ;;
  Ok (i0, i1, a).

(** [(1-a)*(1-b)*s00 + a*(1-b)*s10 + (1-a)*b*s01 + a*b*s11], every
    operation rounded, in the order Python evaluates them. *)
Definition blend64 (a b s00 s10 s01 s11 : f64) : result f64 :=
  a' <- int_sub_float 1 a ;;
  b' <- int_sub_float 1 b ;;
  Ok (add64 (add64 (add64 (mul64 (mul64 a' b') s00)
                          (mul64 (mul64 a b') s10))
                   (mul64 (mul64 a' b) s01))
            (mul64 (mul64 a b) s11)).

(** The value assigned to [Z_out[i_out, j_out]], in the order of the
    source. *)
Definition bilinear_cell64 (Z_in : ndarray64) (factor : f64) (i_out j_out : nat)
  : result f64 :=
  x <- int_div_float (Z.of_nat i_out) factor ;;
  y <- int_div_float (Z.of_nat j_out) factor ;;
  i0 <- floor_float x ;;
  j0 <- floor_float y ;;
  let i1 := Z.min (i0 + 1) (Z.of_nat (nrows64 Z_in) - 1) in
  let j1 := Z.min (j0 + 1) (Z.of_nat (ncols64 Z_in) - 1) in
  a <- float_sub_int x i0 ;;
  b <- float_sub_int y j0 ;;
  s00 <- getitem64 Z_in i0 j0 ;;
  s10 <- getitem64 Z_in i1 j0 ;;
  s01 <- getitem64 Z_in i0 j1 ;;
  s11 <- getitem64 Z_in i1 j1 ;;
  blend64 a b s00 s10 s01 s11.

Definition bilinear_interpolation64 (Z_in : ndarray64) (factor : f64)
  : result ndarray64 :=
  let M := nrows64 Z_in in
  let N := ncols64 Z_in in
  M_out <- out_extent64 M factor ;;
  N_out <- out_extent64 N factor ;;
  Z_out <- np_empty64 M_out N_out ;;
  for_range2 (Z.to_nat M_out) (Z.to_nat N_out)
    (fun i_out j_out Z_out =>
       v <- bilinear_cell64 Z_in factor i_out j_out ;;
       setitem64 Z_out (Z.of_nat i_out) (Z.of_nat j_out) v)
    Z_out.

(** ** The spatial index ([scipy.spatial.KDTree])

    The library is outside the repository; the index is modelled by a
    linear scan.  As in the library, candidates are ranked on the squared
    distance and square roots are taken on the way out.  Among points at
    the same distance the scan returns the one of lower index first; the
    library leaves that order open. *)

Abbreviation point := (nat * nat)%type.

Definition sqdist (p q : point) : Z :=
  ((Z.of_nat (fst p) - Z.of_nat (fst q)) ^ 2
   + (Z.of_nat (snd p) - Z.of_nat (snd q)) ^ 2)%Z.

Record KDTree : Type := mkTree { data : list point }.

(** [KDTree(pts)]: an empty list is not an (n, m) array of points and the
    constructor raises [ValueError]. *)
Definition KDTree_new (pts : list point) : result KDTree :=
  match pts with
  | [] => Raise ValueError
  | _ :: _ => Ok (mkTree pts)
  end.

(** A candidate: squared distance to the query point, index in [data]. *)
Abbreviation hit := (Z * nat)%type.

Fixpoint insert_hit (h : hit) (l : list hit) : list hit :=
  match l with
  | [] => [h]
  | h' :: l' =>
      if (fst h <=? fst h')%Z then h :: l else h' :: insert_hit h l'
  end.

Definition sort_hits (l : list hit) : list hit := fold_right insert_hit [] l.

Definition candidates (t : KDTree) (q : point) : list hit :=
  combine (map (sqdist q) (data t)) (seq 0 (length (data t))).

Definition hit_dist (h : hit) : R := sqrt (IZR (fst h)).

(** What [query] returns: for [k = 1] the last axis is squeezed and the
    caller gets two scalars, otherwise two arrays of length [k]. *)
Inductive neighbours : Type :=
| Nearest (dist : R) (idx : nat)
| Neighbours (dists : list R) (idxs : list nat).

(** [tree.query(q, k=k)] for [k] at most the number of indexed points
    (the only calls the program makes).  A request for fewer than one
    neighbour is refused; no property below rests on that outcome beyond
    its being the same for every query point. *)
Definition query (t : KDTree) (q : point) (k : Z) : result neighbours :=
  if (k <? 1)%Z then Raise ValueError
  else
    let hits := firstn (Z.to_nat k) (sort_hits (candidates t q)) in
    if (k =? 1)%Z then
      match hits with
      | h :: _ => Ok (Nearest (hit_dist h) (snd h))
      | [] => Raise ValueError
      end
    else Ok (Neighbours (map hit_dist hits) (map snd hits)).

(** ** Inverse-distance-weighted gap filling *)

(** [[(i, j) for i in range(M) for j in range(N)]]. *)
Definition positions (M N : nat) : list point :=
  flat_map (fun i => map (fun j => (i, j)) (range N)) (range M).

(** [known]: the positions of the cells that are not NaN. *)
Definition known_cells (Z_in : ndarray) : list point :=
  filter (fun p => negb (isnan (item Z_in (fst p) (snd p))))
         (positions (nrows Z_in) (ncols Z_in)).

(** [values = [Z_in[i, j] for i, j in known]]. *)
Definition known_values (Z_in : ndarray) (known : list point) : list npfloat :=
  map (fun p => item Z_in (fst p) (snd p)) known.

(** The distance floor [1e-12]. *)
Definition eps : R := (/ 10 ^ 12)%R.

(** [w = 1.0 / (dists ** power)] after [dists = np.maximum(dists, 1e-12)]. *)
Definition idw_weights (power : R) (dists : list R) : list R :=
  map (fun d => (1 / Rpower (Rmax d eps) power)%R) dists.

(** [w.sum()]. *)
Definition np_sum (w : list R) : R := fold_right Rplus 0%R w.

(** [np.dot(w, vals)]. *)
Fixpoint np_dot (w : list R) (vals : list npfloat) : npfloat :=
  match w, vals with
  | wi :: w', vi :: vals' => fadd (fmul (Fin wi) vi) (np_dot w' vals')
  | _, _ => Fin 0
  end.

(** The estimate written into a missing cell [p]: lines 66 to 69.  With
    squeezed scalars from [query] the comprehension over [idxs] iterates
    over a number, which raises [TypeError]. *)
Definition idw_estimate (tree : KDTree) (known : list point)
  (values : list npfloat) (k : Z) (power : R) (p : point) : result npfloat :=
  nb <- query tree p (Z.min k (Z.of_nat (length known))) ;;
  match nb with
  | Nearest _ _ => Raise TypeError
  | Neighbours dists idxs =>
      let w := idw_weights power dists in
      vals <- map_result (list_getitem values) idxs ;;
      Ok (fdiv (np_dot w vals) (Fin (np_sum w)))
  end.

(** The body of the loop over the cells. *)
Definition idw_step (tree : KDTree) (known : list point)
  (values : list npfloat) (k : Z) (power : R) (i j : nat) (Z_out : ndarray)
  : result ndarray :=
  v <- getitem Z_out (Z.of_nat i) (Z.of_nat j) ;;
  if isnan v then
    e <- idw_estimate tree known values k power (i, j) ;;
    setitem Z_out (Z.of_nat i) (Z.of_nat j) e
  else Ok Z_out.

Definition idw_interpolation (Z_in : ndarray) (k : Z) (power : R)
  : result ndarray :=
  let M := nrows Z_in in
  let N := ncols Z_in in
  let known := known_cells Z_in in
  let values := known_values Z_in known in
  tree <- KDTree_new known ;;
  let Z_out := copy Z_in in
  for_range2 M N (idw_step tree known values k power) Z_out.

(** The same filling with the cells visited in a given order. *)
Definition idw_interpolation_in_order (order : list point) (Z_in : ndarray)
  (k : Z) (power : R) : result ndarray :=
  let known := known_cells Z_in in
  let values := known_values Z_in known in
  tree <- KDTree_new known ;;
  let Z_out := copy Z_in in
  for_each order
    (fun p Z_out => idw_step tree known values k power (fst p) (snd p) Z_out)
    Z_out.

(** ** Grid assembly *)

(** A row of the point table: position and attribute. *)
Record sample : Type := mkSample { sx : Qc; sy : Qc; sz : npfloat }.

Definition Qc_eqb (a b : Qc) : bool := Qeq_bool a b.

Definition Qc_leb (a b : Qc) : bool :=
  match (a ?= b)%Qc with
  | Gt => false
  | _ => true
  end.

(** [Series.unique()]: the distinct values in order of first appearance. *)
Fixpoint unique (l : list Qc) : list Qc :=
  match l with
  | [] => []
  | a :: l' => a :: filter (fun b => negb (Qc_eqb a b)) (unique l')
  end.

Fixpoint insert_sorted (a : Qc) (l : list Qc) : list Qc :=
  match l with
  | [] => [a]
  | b :: l' => if Qc_leb a b then a :: l else b :: insert_sorted a l'
  end.

(** [np.sort]. *)
Definition np_sort (l : list Qc) : list Qc := fold_right insert_sorted [] l.

(** A Python [dict] with coordinate keys: the latest binding of a key is
    the one found. *)
Definition dict : Type := list (Qc * nat).

Definition dict_set (d : dict) (key : Qc) (v : nat) : dict := (key, v) :: d.

Fixpoint dict_get (d : dict) (key : Qc) : result nat :=
  match d with
  | [] => Raise KeyError
  | (k', v) :: d' => if Qc_eqb k' key then Ok v else dict_get d' key
  end.

(** [{x: j for j, x in enumerate(xs)}]. *)
Definition index_of (xs : list Qc) : dict :=
  fold_left (fun d jx => dict_set d (snd jx) (fst jx))
            (combine (seq 0 (length xs)) xs) [].

(** [shapefile_to_grid] on the rows [gdf] read from the file. *)
Definition shapefile_to_grid (gdf : list sample)
  : result (ndarray * list Qc * list Qc) :=
  let xs := np_sort (unique (map sx gdf)) in
  let ys := np_sort (unique (map sy gdf)) in
  let nx := length xs in
  let ny := length ys in
  let Z0 := np_full ny nx NaN in
  let x_to_j := index_of xs in
  let y_to_i := index_of ys in
  Z1 <- for_each gdf
          (fun row Z1 =>
             i <- dict_get y_to_i (sy row) ;;
             j <- dict_get x_to_j (sx row) ;;
             setitem Z1 (Z.of_nat i) (Z.of_nat j) (sz row))
          Z0 ;;
  Ok (Z1, xs, ys).

(** ** Vocabulary of the properties *)

(** The value a resampler assigns to an output cell, as a total function
    (the placeholder [NaN] stands where the cell computation raises). *)
Definition value_of (r : result npfloat) : npfloat :=
  match r with
  | Ok v => v
  | Raise _ => NaN
  end.

(** The 3x3 grid 1..9. *)
Definition grid3 : ndarray :=
  of_rows [[Fin 1; Fin 2; Fin 3]; [Fin 4; Fin 5; Fin 6]; [Fin 7; Fin 8; Fin 9]].

(** Ranking of candidates by squared distance. *)
Definition hit_le (a b : hit) : Prop := (fst a <= fst b)%Z.

(** A cell that is not missing. *)
Definition finite (v : npfloat) : Prop := isnan v = false.

(** Two outcomes that agree: the same exception, or arrays with the same
    shape and cells. *)
Definition result_equiv (r1 r2 : result ndarray) : Prop :=
  match r1, r2 with
  | Ok A, Ok B => same_array A B
  | Raise e1, Raise e2 => e1 = e2
  | _, _ => False
  end.

(** The estimate of a cell computed from the known cells of the input. *)
Definition estimate_from_input (Z_in : ndarray) (k : Z) (power : R) (p : point)
  : result npfloat :=
  let known := known_cells Z_in in
  idw_estimate (mkTree known) known (known_values Z_in known) k power p.

(** A cell of the filled grid: the estimate where the input is missing,
    the input cell elsewhere. *)
Definition fill_cell (Z_in : ndarray) (k : Z) (power : R) (i j : nat) : npfloat :=
  if isnan (item Z_in i j) then value_of (estimate_from_input Z_in k power (i, j))
  else item Z_in i j.

(** The input grid with every missing cell filled. *)
Definition idw_filled (Z_in : ndarray) (k : Z) (power : R) : ndarray :=
  {| nrows := nrows Z_in; ncols := ncols Z_in; item := fill_cell Z_in k power |}.

(** The test of the filling loop, on the input grid. *)
Definition missing_at (Z_in : ndarray) (p : point) : bool :=
  isnan (item Z_in (fst p) (snd p)).

(** The outcome of the gap filler in closed form. *)
Definition idw_closed_form (Z_in : ndarray) (k : Z) (power : R) : result ndarray :=
  let known := known_cells Z_in in
  let kk := Z.min k (Z.of_nat (length known)) in
  match known with
  | [] => Raise ValueError
  | _ :: _ =>
      if existsb (missing_at Z_in) (positions (nrows Z_in) (ncols Z_in)) then
        if (kk <? 1)%Z then Raise ValueError
        else if (kk =? 1)%Z then Raise TypeError
        else Ok (idw_filled Z_in k power)
      else Ok Z_in
  end.

(** A position inside the grid. *)
Definition in_grid (Z_in : ndarray) (p : point) : Prop :=
  fst p < nrows Z_in /\ snd p < ncols Z_in.

(** The state of the output while the filling loop runs: the shape of the
    input, every cell still the input's or already filled. *)
Definition partly_filled (Z_in : ndarray) (k : Z) (power : R)
  (Z_out : ndarray) : Prop :=
  nrows Z_out = nrows Z_in /\ ncols Z_out = ncols Z_in
  /\ forall i j, item Z_out i j = item Z_in i j
                 \/ item Z_out i j = fill_cell Z_in k power i j.

(** The grid of the scenario: cell (0,1) is missing. *)
Definition grid1 : ndarray :=
  of_rows [[Fin 1; NaN]; [Fin 3; Fin 4]].

(** A grid with one known cell and one missing cell. *)
Definition grid_single : ndarray := of_rows [[Fin 1; NaN]].

(** A grid with no missing cell. *)
Definition grid_complete : ndarray := of_rows [[Fin 1; Fin 2]; [Fin 3; Fin 4]].

(** The grid with no cell. *)
Definition grid_empty : ndarray := np_full 0 0 NaN.

(** One step of the dictionary comprehension. *)
Definition index_step (d : dict) (jx : nat * Qc) : dict :=
  dict_set d (snd jx) (fst jx).

(** The sample at position [(x, y)]. *)
Definition at_position (x y : Qc) (s : sample) : bool :=
  Qc_eqb (sx s) x && Qc_eqb (sy s) y.

(** The value of the latest sample at [(x, y)] among [rows], [other]
    when there is none. *)
Definition latest_value (rows : list sample) (x y : Qc) (other : npfloat)
  : npfloat :=
  match find (at_position x y) (rev rows) with
  | Some s => sz s
  | None => other
  end.

(** Three samples, the first and the last at the same position. *)
Definition gdf_example : list sample :=
  [ mkSample 0%Qc 0%Qc (Fin 1);
    mkSample 1%Qc 0%Qc (Fin 2);
    mkSample 0%Qc 0%Qc (Fin 5) ].

(** Vocabulary of the binary64 resamplers. *)
(** The value returned by a float computation, NaN when it raises. *)
Definition value_of64 (r : result f64) : f64 :=
  match r with
  | Ok v => v
  | Raise _ => F_nan
  end.

(** The float of a whole number [n] of magnitude up to [2^53]. *)
Definition whole (n : Z) : f64 := F_fin (inject_Z n).

(** The grid [[1, 2, 3], [4, 5, 6], [7, 8, 9]]. *)
Definition grid3_64 : ndarray64 :=
  of_rows64 [[whole 1; whole 2; whole 3];
             [whole 4; whole 5; whole 6];
             [whole 7; whole 8; whole 9]].

(** The grid [[1, 2], [3, NaN]]. *)
Definition grid_hole64 : ndarray64 :=
  of_rows64 [[whole 1; whole 2]; [whole 3; F_nan]].

(** A grid of five rows and five columns. *)
Definition grid5_64 : ndarray64 := np_full64 5 5 (whole 1).

(** An extent of at most [2^51].  Memory is not bounded in this model
    ([np.empty] returns for all extents that are not negative); an
    array with a larger extent does not fit in the memory of a machine,
    and the properties of the binary64 resamplers are stated for
    addressable extents. *)
Definition addressable (n : Z) : Prop := (n <= 2 ^ 51)%Z.

(** A float that is zero, a negative number or the negative infinity. *)
Definition not_positive (x : f64) : Prop :=
  match x with
  | F_nan => False
  | F_inf s => s = true
  | F_fin v => (v <= 0)%Q
  end.

(** The grid without a cell. *)
Definition grid_empty64 : ndarray64 := np_full64 0 0 (F_fin 0).

(** A cell that holds a finite binary64 number. *)
Definition binary64 (x : f64) : Prop :=
  match x with
  | F_fin v => fl v = F_fin v
  | _ => False
  end.

(** Two arrays with the same shape and the same cells. *)
Definition same_array64 (A B : ndarray64) : Prop :=
  shape64 A = shape64 B /\
  forall i j, i < nrows64 A -> j < ncols64 A -> item64 A i j = item64 B i j.

(** ** Vocabulary of the further properties *)

(** The position of a sample. *)
Definition position (s : sample) : Qc * Qc := (sx s, sy s).

(** ** The drivers

    [plot_and_save], [process_full_grid], [process_incomplete_grid] and
    [main] act on the file system and the terminal.  What they do there
    is kept as a list of events; the collaborators outside the repository
    ([os.listdir], [geopandas.read_file], [os.path], [matplotlib]) are
    parameters and are taken to succeed. *)

Abbreviation string := String.string.

Inductive event : Type :=
| Makedirs (path : string)
| Savefig (out_path title : string) (Z : ndarray)
| Print (line : string).

(** A driver emits events, then returns or raises. *)
Definition io (A : Type) : Type := (list event * result A)%type.

Definition io_ret {A : Type} (a : A) : io A := ([], Ok a).

Definition io_bind {A B : Type} (m : io A) (f : A -> io B) : io B :=
  match m with
  | (log, Ok a) => let (log', r) := f a in (log ++ log', r)
  | (log, Raise e) => (log, Raise e)
  end.

Notation "x <~ m ;; k" := (io_bind m (fun x => k))
  (at level 61, m at next level, right associativity) : py_scope.

Definition emit (e : event) : io unit := ([e], Ok tt).

Definition lift {A : Type} (r : result A) : io A := ([], r).

(** [for a in l: body(a)] in a driver. *)
Fixpoint io_for_each {A : Type} (l : list A) (body : A -> io unit) : io unit :=
  match l with
  | [] => io_ret tt
  | a :: l' => _ <~ body a ;; io_for_each l' body
  end.

(** [s.endswith(suffix)]. *)
Definition endswith (s suffix : string) : bool :=
  let n := String.length s in
  let m := String.length suffix in
  (m <=? n) && String.eqb (String.substring (n - m) m s) suffix.

Section Drivers.

Open Scope string_scope.

(** [os.listdir], [geopandas.read_file] (the rows of the table, attribute
    'Z'), [os.path.join], [os.path.splitext], [os.path.dirname]. *)
Variable listdir : string -> list string.
Variable read_file : string -> list sample.
Variable path_join : list string -> string.
Variable splitext : string -> string * string.
Variable dirname : string -> string.

(** [plot_and_save]: the directory of the target is created, then the
    figure of [Z] with its title is saved there. *)
Definition plot_and_save (Z : ndarray) (title out_path : string) : io unit :=
  _ <~ emit (Makedirs (dirname out_path)) ;;
  emit (Savefig out_path title Z).

(** The body of the loop of [process_full_grid] for one directory entry. *)
Definition full_grid_file (shp_dir : string) (factor : Q) (out_dir : string)
  (fname : string) : io unit :=
  if negb (endswith fname ".shp") then io_ret tt
  else
    let base := fst (splitext fname) in
    let shp_path := path_join [shp_dir; fname] in
    g <~ lift (shapefile_to_grid (read_file shp_path)) ;;
    let '(Z, xs, ys) := g in
    Z_th <~ lift (thiessen_interpolation Z factor) ;;
    _ <~ plot_and_save Z_th (String.append base ": Thiessen")
           (path_join [out_dir; "thiessen"%string;
                       String.append base "_thiessen.png"]) ;;
    Z_bl <~ lift (bilinear_interpolation Z factor) ;;
    _ <~ plot_and_save Z_bl (String.append base ": Bilinear")
           (path_join [out_dir; "bilinear"%string;
                       String.append base "_bilinear.png"]) ;;
    emit (Print (String.append "[OK] "
                   (String.append base ": Thiessen & Bilinear"))).

(** [process_full_grid] on a given listing of the directory. *)
Definition process_full_files (files : list string) (shp_dir : string)
  (factor : Q) (out_dir : string) : io unit :=
  io_for_each files (full_grid_file shp_dir factor out_dir).

Definition process_full_grid (shp_dir : string) (factor : Q)
  (out_dir : string) : io unit :=
  process_full_files (listdir shp_dir) shp_dir factor out_dir.

(** The body of the loop of [process_incomplete_grid] for one entry. *)
Definition incomplete_grid_file (shp_dir : string) (k : Z) (power : R)
  (out_dir : string) (fname : string) : io unit :=
  if negb (endswith fname ".shp") then io_ret tt
  else
    let base := fst (splitext fname) in
    let shp_path := path_join [shp_dir; fname] in
    g <~ lift (shapefile_to_grid (read_file shp_path)) ;;
    let '(Z, xs, ys) := g in
    Z_idw <~ lift (idw_interpolation Z k power) ;;
    _ <~ plot_and_save Z_idw (String.append base ": IDW")
           (path_join [out_dir; "idw"%string; String.append base "_idw.png"]) ;;
    emit (Print (String.append "[OK] " (String.append base ": IDW"))).

(** [process_incomplete_grid] on a given listing of the directory. *)
Definition process_incomplete_files (files : list string) (shp_dir : string)
  (k : Z) (power : R) (out_dir : string) : io unit :=
  io_for_each files (incomplete_grid_file shp_dir k power out_dir).

Definition process_incomplete_grid (shp_dir : string) (k : Z) (power : R)
  (out_dir : string) : io unit :=
  process_incomplete_files (listdir shp_dir) shp_dir k power out_dir.

(** The line [main] prints last. *)
Definition done_message : string :=
  "Vse interpolacije so končane in shranjene v 'output/'."%string.

Definition main : io unit :=
  let factor := 7%Q in
  let k_neighbors := 4%Z in
  let power := 2%R in
  let full_dir := "DatotekePolnaMreza"%string in
  let missing_dir := "DatotekeManjkajoceTocke"%string in
  let out_dir := "output"%string in
  _ <~ process_full_grid full_dir factor out_dir ;;
  _ <~ process_incomplete_grid missing_dir k_neighbors power out_dir ;;
  emit (Print done_message).

(** The events of one '.shp' entry in [process_full_grid] with a whole
    factor [n]: both figures have [n] times the rows and columns of the
    assembled grid, and the thiessen figure holds grid cell [(i, j)] at
    [(n * i, n * j)]. *)
Definition full_grid_events (shp_dir : string) (n : nat) (out_dir : string)
  (fname : string) (events : list event) : Prop :=
  exists Z xs ys Z_th Z_bl,
    shapefile_to_grid (read_file (path_join [shp_dir; fname])) = Ok (Z, xs, ys)
    /\ shape Z_th = (n * nrows Z, n * ncols Z)
    /\ shape Z_bl = (n * nrows Z, n * ncols Z)
    /\ (forall i j, i < nrows Z -> j < ncols Z ->
                    item Z_th (n * i) (n * j) = item Z i j)
    /\ let base := fst (splitext fname) in
       let p_th := path_join [out_dir; "thiessen"%string;
                              String.append base "_thiessen.png"] in
       let p_bl := path_join [out_dir; "bilinear"%string;
                              String.append base "_bilinear.png"] in
       events = [ Makedirs (dirname p_th);
                  Savefig p_th (String.append base ": Thiessen") Z_th;
                  Makedirs (dirname p_bl);
                  Savefig p_bl (String.append base ": Bilinear") Z_bl;
                  Print (String.append "[OK] "
                           (String.append base ": Thiessen & Bilinear")) ].

(** The events of one '.shp' entry in [process_incomplete_grid]: the
    figure has the shape of the assembled grid and holds its known cells
    unchanged. *)
Definition incomplete_grid_events (shp_dir : string)
  (out_dir : string) (fname : string) (events : list event) : Prop :=
  exists Z xs ys Z_idw,
    shapefile_to_grid (read_file (path_join [shp_dir; fname])) = Ok (Z, xs, ys)
    /\ shape Z_idw = shape Z
    /\ (forall i j, i < nrows Z -> j < ncols Z ->
                    isnan (item Z i j) = false -> item Z_idw i j = item Z i j)
    /\ let base := fst (splitext fname) in
       let p := path_join [out_dir; "idw"%string;
                           String.append base "_idw.png"] in
       events = [ Makedirs (dirname p);
                  Savefig p (String.append base ": IDW") Z_idw;
                  Print (String.append "[OK] " (String.append base ": IDW")) ].

Close Scope string_scope.

End Drivers.

(** The entries a driver processes. *)
Definition is_shp (fname : string) : bool := endswith fname ".shp"%string.

(** Collaborators of a small example: a directory with one '.shp' entry
    and one other entry; the table read is given separately. *)
Definition demo_listdir (dir : string) : list string :=
  ["a.shp"%string; "notes.txt"%string].

Definition demo_path_join (parts : list string) : string :=
  String.concat "/"%string parts.

Definition demo_splitext (name : string) : string * string :=
  (String.substring 0 (String.length name - 4) name,
   String.substring (String.length name - 4) 4 name).

Definition demo_dirname (path : string) : string := path.

(** A table with two samples on one row. *)
Definition gdf_pair : list sample :=
  [ mkSample 0%Qc 0%Qc (Fin 1); mkSample 1%Qc 0%Qc (Fin 2) ].

(** Collaborators of a second example: a directory with three '.shp'
    entries, the second of which holds a table whose only value is
    missing. *)
Definition demo_listdir3 (dir : string) : list string :=
  ["a.shp"%string; "b.shp"%string; "c.shp"%string].

Definition gdf_missing : list sample := [ mkSample 0%Qc 0%Qc NaN ].

Definition demo_read_file (path : string) : list sample :=
  if String.eqb path "in/b.shp"%string then gdf_missing else gdf_pair.

(** The weight that lines 67 and 68 give to the known cell [p] seen from
    the missing cell [q]. *)
Definition idw_weight (power : R) (q p : point) : R :=
  (1 / Rpower (Rmax (sqrt (IZR (sqdist q p))) eps) power)%R.

(** * Properties *)

(** ** The outcome monad and the loops *)

Lemma bind_assoc {A B C : Type} (m : result A) (f : A -> result B)
  (g : B -> result C) :
  (y <- (x <- m ;; f x) ;; g y) = (x <- m ;; y <- f x ;; g y).
Proof. destruct m; reflexivity. Qed.

Lemma for_each_app {A S : Type} (l1 l2 : list A) (body : A -> S -> result S)
  (s : S) :
  for_each (l1 ++ l2) body s = (s' <- for_each l1 body s ;; for_each l2 body s').
Proof.
  revert s. induction l1 as [|a l1 IH]; intros s; simpl.
  - reflexivity.
  - destruct (body a s) as [s'|e]; simpl; [apply IH | reflexivity].
Qed.

Lemma for_each_map {A B S : Type} (f : A -> B) (l : list A)
  (body : B -> S -> result S) (s : S) :
  for_each (map f l) body s = for_each l (fun a => body (f a)) s.
Proof.
  revert s. induction l as [|a l IH]; intros s; simpl.
  - reflexivity.
  - destruct (body (f a) s); simpl; [apply IH | reflexivity].
Qed.

(** The nested loops visit the cells in row-major order. *)
Lemma for_range2_flat {S : Type} (M N : nat)
  (body : nat -> nat -> S -> result S) (s : S) :
  for_range2 M N body s
  = for_each (positions M N) (fun p => body (fst p) (snd p)) s.
Proof.
  unfold for_range2, positions. generalize (range M) as rows. intros rows.
  revert s. induction rows as [|i rows IH]; intros s; simpl.
  - reflexivity.
  - rewrite for_each_app, for_each_map. simpl.
    destruct (for_each (range N) (fun j => body i j) s); simpl;
      [apply IH | reflexivity].
Qed.

Lemma in_positions (M N : nat) (p : point) :
  In p (positions M N) <-> fst p < M /\ snd p < N.
Proof.
  unfold positions, range. rewrite in_flat_map. split.
  - intros (i & Hi & Hp). apply in_map_iff in Hp as (j & <- & Hj).
    apply in_seq in Hi. apply in_seq in Hj. simpl. lia.
  - intros [Hi Hj]. exists (fst p). split.
    + apply in_seq. lia.
    + apply in_map_iff. exists (snd p). split.
      * destruct p; reflexivity.
      * apply in_seq. lia.
Qed.

(** ** Array access *)

Lemma norm_index_in_range (n : nat) (i : Z) :
  (0 <= i < Z.of_nat n)%Z -> norm_index n i = Ok (Z.to_nat i).
Proof.
  intros H. unfold norm_index.
  destruct (Z.leb_spec 0 i); [|lia].
  destruct (Z.ltb_spec i (Z.of_nat n)); [|lia]. reflexivity.
Qed.

Lemma norm_index_nat (n i : nat) : i < n -> norm_index n (Z.of_nat i) = Ok i.
Proof.
  intros H. rewrite norm_index_in_range by lia. now rewrite Nat2Z.id.
Qed.

Lemma getitem_in_range (A : ndarray) (i j : Z) :
  (0 <= i < Z.of_nat (nrows A))%Z -> (0 <= j < Z.of_nat (ncols A))%Z ->
  getitem A i j = Ok (item A (Z.to_nat i) (Z.to_nat j)).
Proof.
  intros Hi Hj. unfold getitem.
  now rewrite !norm_index_in_range.
Qed.

Lemma getitem_nat (A : ndarray) (i j : nat) :
  i < nrows A -> j < ncols A ->
  getitem A (Z.of_nat i) (Z.of_nat j) = Ok (item A i j).
Proof.
  intros Hi Hj. unfold getitem. now rewrite !norm_index_nat.
Qed.

Lemma setitem_nat (A : ndarray) (i j : nat) (v : npfloat) :
  i < nrows A -> j < ncols A ->
  setitem A (Z.of_nat i) (Z.of_nat j) v = Ok (updated A i j v).
Proof.
  intros Hi Hj. unfold setitem. now rewrite !norm_index_nat.
Qed.

Lemma item_updated (A : ndarray) (i j : nat) (v : npfloat) (a b : nat) :
  item (updated A i j v) a b = if ((a =? i) && (b =? j))%nat then v else item A a b.
Proof. reflexivity. Qed.

Lemma point_test (a b i j : nat) :
  ((a =? i) && (b =? j))%nat = true <-> (a, b) = (i, j).
Proof.
  rewrite andb_true_iff, !Nat.eqb_eq. split.
  - intros [-> ->]. reflexivity.
  - intros H. inversion H. auto.
Qed.

(** A loop that assigns [cell i j] to every visited cell [(i, j)] of the
    output: when no [cell] raises, every visited cell ends with its value
    and the others are untouched. *)
Lemma fill_loop (cell : nat -> nat -> result npfloat)
  (g : nat -> nat -> npfloat) (l : list point) (Z0 : ndarray) :
  (forall p, In p l ->
     fst p < nrows Z0 /\ snd p < ncols Z0 /\ cell (fst p) (snd p) = Ok (g (fst p) (snd p))) ->
  exists Z1,
    for_each l
      (fun p Z_out =>
         v <- cell (fst p) (snd p) ;;
         setitem Z_out (Z.of_nat (fst p)) (Z.of_nat (snd p)) v) Z0 = Ok Z1
    /\ nrows Z1 = nrows Z0 /\ ncols Z1 = ncols Z0
    /\ (forall i j, In (i, j) l -> item Z1 i j = g i j)
    /\ (forall i j, ~ In (i, j) l -> item Z1 i j = item Z0 i j).
Proof.
  revert Z0. induction l as [|p l IH]; intros Z0 H.
  - exists Z0. simpl. repeat split; auto. intros i j [].
  - destruct (H p (or_introl eq_refl)) as (Hi & Hj & Hc).
    simpl. rewrite Hc. simpl. rewrite setitem_nat by assumption. simpl.
    destruct (IH (updated Z0 (fst p) (snd p) (g (fst p) (snd p)))) as
      (Z1 & Hrun & Hr & Hcn & Hin & Hout).
    { intros q Hq. simpl. apply H. now right. }
    exists Z1. rewrite Hrun. simpl in Hr, Hcn. repeat split; auto.
    + intros i j [Hp | Hl]; [|now apply Hin].
      destruct (in_dec (fun a b : point =>
                  ltac:(decide equality; apply Nat.eq_dec)) (i, j) l) as [Hl|Hl].
      * now apply Hin.
      * rewrite Hout by assumption. rewrite item_updated.
        subst p. simpl. now rewrite !Nat.eqb_refl.
    + intros i j Hn. rewrite Hout by tauto. rewrite item_updated.
      destruct ((i =? fst p) && (j =? snd p))%nat eqn:E; [|reflexivity].
      apply point_test in E. exfalso. apply Hn. left.
      destruct p; simpl in *. congruence.
Qed.

(** ** Output extents and source indices *)

Lemma py_int_nonneg (q : Q) : (0 <= q)%Q -> py_int q = Qfloor q.
Proof.
  destruct q as [n d]. unfold Qle, py_int, Qfloor. simpl. intros H.
  apply Z.quot_div_nonneg; lia.
Qed.

Lemma py_int_nonpos (q : Q) : (q <= 0)%Q -> (py_int q <= 0)%Z.
Proof.
  destruct q as [n d]. unfold Qle, py_int. simpl. intros H.
  assert (Hn : (n <= 0)%Z) by lia.
  rewrite <- (Z.opp_involutive n), Z.quot_opp_l by lia.
  assert (0 <= Z.quot (- n) (Z.pos d))%Z by (apply Z.quot_pos; lia). lia.
Qed.

Lemma extent_mul_nonneg (M : nat) (factor : Q) :
  (0 < factor)%Q -> (0 <= inject_Z (Z.of_nat M) * factor)%Q.
Proof.
  intros Hf. apply Qmult_le_0_compat.
  - change 0%Q with (inject_Z 0). rewrite <- Zle_Qle. lia.
  - now apply Qlt_le_weak.
Qed.

Lemma out_extent_floor (M : nat) (factor : Q) :
  (0 < factor)%Q ->
  out_extent M factor = Qfloor (inject_Z (Z.of_nat M) * factor).
Proof.
  intros Hf. unfold out_extent. apply py_int_nonneg.
  now apply extent_mul_nonneg.
Qed.

Lemma out_extent_nonneg (M : nat) (factor : Q) :
  (0 < factor)%Q -> (0 <= out_extent M factor)%Z.
Proof.
  intros Hf. rewrite out_extent_floor by assumption.
  change 0%Z with (Qfloor 0). apply Qfloor_resp_le.
  now apply extent_mul_nonneg.
Qed.

Lemma truediv_pos (a factor : Q) :
  (0 < factor)%Q -> truediv a factor = Ok (a / factor)%Q.
Proof.
  intros Hf. unfold truediv.
  destruct (Qeq_bool factor 0) eqn:E; [|reflexivity].
  apply Qeq_bool_eq in E. rewrite E in Hf. discriminate.
Qed.

(** The source position of an output index inside the output extent lies
    in [[0, M)]. *)
Lemma source_position (M : nat) (factor : Q) (i_out : nat) :
  (0 < factor)%Q -> (Z.of_nat i_out < out_extent M factor)%Z ->
  (0 <= inject_Z (Z.of_nat i_out) / factor)%Q
  /\ (inject_Z (Z.of_nat i_out) / factor < inject_Z (Z.of_nat M))%Q.
Proof.
  intros Hf Hi. split.
  - apply Qle_shift_div_l; [assumption|]. rewrite Qmult_0_l.
    change 0%Q with (inject_Z 0). rewrite <- Zle_Qle. lia.
  - apply Qlt_shift_div_r; [assumption|].
    rewrite out_extent_floor in Hi by assumption.
    apply Qlt_le_trans with (inject_Z (Qfloor (inject_Z (Z.of_nat M) * factor))).
    + rewrite <- Zlt_Qlt. exact Hi.
    + apply Qfloor_le.
Qed.

Lemma extent_pos_source (M : nat) (factor : Q) (i_out : nat) :
  (0 < factor)%Q -> (Z.of_nat i_out < out_extent M factor)%Z -> 0 < M.
Proof.
  intros Hf Hi. destruct M as [|M]; [|lia]. exfalso.
  unfold out_extent, py_int in Hi. simpl in Hi.
  rewrite Z.quot_0_l in Hi by lia. lia.
Qed.

Lemma floor_in_source (M : nat) (x : Q) :
  (0 <= x)%Q -> (x < inject_Z (Z.of_nat M))%Q ->
  (0 <= Qfloor x <= Z.of_nat M - 1)%Z.
Proof.
  intros H0 HM. split.
  - change 0%Z with (Qfloor 0). now apply Qfloor_resp_le.
  - assert (H : (inject_Z (Qfloor x) < inject_Z (Z.of_nat M))%Q).
    { eapply Qle_lt_trans; [apply Qfloor_le | exact HM]. }
    rewrite <- Zlt_Qlt in H. lia.
Qed.

(** [nn_index] stays inside the source axis. *)
Lemma nn_index_in_source (M : nat) (factor : Q) (i_out : nat) :
  (0 < factor)%Q -> (Z.of_nat i_out < out_extent M factor)%Z ->
  exists i_nn, nn_index M factor i_out = Ok i_nn
               /\ (0 <= i_nn <= Z.of_nat M - 1)%Z.
Proof.
  intros Hf Hi. pose proof (extent_pos_source M factor i_out Hf Hi) as HM.
  unfold nn_index. rewrite truediv_pos by assumption. cbn [bind].
  eexists. split; [reflexivity | lia].
Qed.

(** [corner_index] stays inside the source axis, and the offset is the
    fractional part of the source position. *)
Lemma corner_index_in_source (M : nat) (factor : Q) (i_out : nat) :
  (0 < factor)%Q -> (Z.of_nat i_out < out_extent M factor)%Z ->
  exists i0 i1 a, corner_index M factor i_out = Ok (i0, i1, a)
                  /\ (0 <= i0 <= Z.of_nat M - 1)%Z
                  /\ (0 <= i1 <= Z.of_nat M - 1)%Z
                  /\ i1 = Z.min (i0 + 1) (Z.of_nat M - 1).
Proof.
  intros Hf Hi. destruct (source_position M factor i_out Hf Hi) as [H0 H1].
  pose proof (floor_in_source M _ H0 H1) as Hfl.
  unfold corner_index. rewrite truediv_pos by assumption. cbn [bind].
  do 3 eexists. split; [reflexivity|]. repeat split; lia.
Qed.

(** On a positive factor both resamplers compute every output cell from
    in-range source cells. *)
Lemma thiessen_cell_ok (Z_in : ndarray) (factor : Q) (i_out j_out : nat) :
  (0 < factor)%Q ->
  (Z.of_nat i_out < out_extent (nrows Z_in) factor)%Z ->
  (Z.of_nat j_out < out_extent (ncols Z_in) factor)%Z ->
  exists i_nn j_nn,
    nn_index (nrows Z_in) factor i_out = Ok i_nn
    /\ nn_index (ncols Z_in) factor j_out = Ok j_nn
    /\ (0 <= i_nn <= Z.of_nat (nrows Z_in) - 1)%Z
    /\ (0 <= j_nn <= Z.of_nat (ncols Z_in) - 1)%Z
    /\ thiessen_cell Z_in factor i_out j_out
       = Ok (item Z_in (Z.to_nat i_nn) (Z.to_nat j_nn)).
Proof.
  intros Hf Hi Hj.
  destruct (nn_index_in_source _ _ _ Hf Hi) as (i_nn & Ei & Bi).
  destruct (nn_index_in_source _ _ _ Hf Hj) as (j_nn & Ej & Bj).
  exists i_nn, j_nn. repeat split; try assumption; try lia.
  unfold thiessen_cell. rewrite Ei, Ej. simpl.
  apply getitem_in_range; lia.
Qed.

Lemma bilinear_cell_ok (Z_in : ndarray) (factor : Q) (i_out j_out : nat) :
  (0 < factor)%Q ->
  (Z.of_nat i_out < out_extent (nrows Z_in) factor)%Z ->
  (Z.of_nat j_out < out_extent (ncols Z_in) factor)%Z ->
  exists i0 i1 a j0 j1 b,
    corner_index (nrows Z_in) factor i_out = Ok (i0, i1, a)
    /\ corner_index (ncols Z_in) factor j_out = Ok (j0, j1, b)
    /\ (0 <= i0 <= Z.of_nat (nrows Z_in) - 1)%Z
    /\ (0 <= i1 <= Z.of_nat (nrows Z_in) - 1)%Z
    /\ (0 <= j0 <= Z.of_nat (ncols Z_in) - 1)%Z
    /\ (0 <= j1 <= Z.of_nat (ncols Z_in) - 1)%Z
    /\ bilinear_cell Z_in factor i_out j_out
       = Ok (blend a b
               (item Z_in (Z.to_nat i0) (Z.to_nat j0))
               (item Z_in (Z.to_nat i1) (Z.to_nat j0))
               (item Z_in (Z.to_nat i0) (Z.to_nat j1))
               (item Z_in (Z.to_nat i1) (Z.to_nat j1))).
Proof.
  intros Hf Hi Hj.
  destruct (corner_index_in_source _ _ _ Hf Hi) as (i0 & i1 & a & Ei & Bi0 & Bi1 & _).
  destruct (corner_index_in_source _ _ _ Hf Hj) as (j0 & j1 & b & Ej & Bj0 & Bj1 & _).
  exists i0, i1, a, j0, j1, b. repeat split; try assumption; try lia.
  unfold bilinear_cell. rewrite Ei, Ej. simpl.
  rewrite !getitem_in_range by lia. reflexivity.
Qed.

(** A resampling loop whose cell computation never raises inside the
    output extent returns an array of that extent holding the computed
    cells. *)
Lemma resample_loop (cell : nat -> nat -> result npfloat) (M_out N_out : Z) :
  (0 <= M_out)%Z -> (0 <= N_out)%Z ->
  (forall i j, (Z.of_nat i < M_out)%Z -> (Z.of_nat j < N_out)%Z ->
               exists v, cell i j = Ok v) ->
  exists Z_out,
    (Z0 <- np_empty M_out N_out ;;
     for_range2 (Z.to_nat M_out) (Z.to_nat N_out)
       (fun i_out j_out Z_out =>
          v <- cell i_out j_out ;;
          setitem Z_out (Z.of_nat i_out) (Z.of_nat j_out) v) Z0) = Ok Z_out
    /\ Z.of_nat (nrows Z_out) = M_out
    /\ Z.of_nat (ncols Z_out) = N_out
    /\ forall i j, i < nrows Z_out -> j < ncols Z_out ->
                   cell i j = Ok (item Z_out i j).
Proof.
  intros HM HN Hcell. unfold np_empty.
  destruct (Z.ltb_spec M_out 0); [lia|].
  destruct (Z.ltb_spec N_out 0); [lia|]. simpl.
  rewrite for_range2_flat.
  destruct (fill_loop cell (fun i j => value_of (cell i j))
              (positions (Z.to_nat M_out) (Z.to_nat N_out))
              (np_full (Z.to_nat M_out) (Z.to_nat N_out) (Fin 0)))
    as (Z1 & Hrun & Hr & Hc & Hin & _).
  { intros p Hp. apply in_positions in Hp as [Hi Hj]. simpl.
    repeat split; try assumption.
    destruct (Hcell (fst p) (snd p)) as [v ->]; [lia | lia | reflexivity]. }
  exists Z1. simpl in Hr, Hc. rewrite Hrun, Hr, Hc.
  repeat split; try lia.
  intros i j Hi Hj. rewrite Hin.
  - destruct (Hcell i j) as [v ->]; [lia | lia | reflexivity].
  - apply in_positions. simpl. lia.
Qed.

Lemma thiessen_spec (Z_in : ndarray) (factor : Q) :
  (0 < factor)%Q ->
  exists Z_out,
    thiessen_interpolation Z_in factor = Ok Z_out
    /\ Z.of_nat (nrows Z_out) = out_extent (nrows Z_in) factor
    /\ Z.of_nat (ncols Z_out) = out_extent (ncols Z_in) factor
    /\ forall i j, i < nrows Z_out -> j < ncols Z_out ->
                   thiessen_cell Z_in factor i j = Ok (item Z_out i j).
Proof.
  intros Hf. unfold thiessen_interpolation.
  apply resample_loop; try (now apply out_extent_nonneg).
  intros i j Hi Hj.
  destruct (thiessen_cell_ok Z_in factor i j Hf Hi Hj)
    as (i_nn & j_nn & _ & _ & _ & _ & ->).
  eexists. reflexivity.
Qed.

Lemma bilinear_spec (Z_in : ndarray) (factor : Q) :
  (0 < factor)%Q ->
  exists Z_out,
    bilinear_interpolation Z_in factor = Ok Z_out
    /\ Z.of_nat (nrows Z_out) = out_extent (nrows Z_in) factor
    /\ Z.of_nat (ncols Z_out) = out_extent (ncols Z_in) factor
    /\ forall i j, i < nrows Z_out -> j < ncols Z_out ->
                   bilinear_cell Z_in factor i j = Ok (item Z_out i j).
Proof.
  intros Hf. unfold bilinear_interpolation.
  apply resample_loop; try (now apply out_extent_nonneg).
  intros i j Hi Hj.
  destruct (bilinear_cell_ok Z_in factor i j Hf Hi Hj)
    as (i0 & i1 & a & j0 & j1 & b & _ & _ & _ & _ & _ & _ & ->).
  eexists. reflexivity.
Qed.

(** ** The spatial index *)

Lemma insert_hit_In (h x : hit) (l : list hit) :
  In x (insert_hit h l) <-> x = h \/ In x l.
Proof.
  induction l as [|h' l IH]; simpl.
  - intuition.
  - destruct (fst h <=? fst h')%Z; simpl; rewrite ?IH; intuition.
Qed.

Lemma sort_hits_In (x : hit) (l : list hit) :
  In x (sort_hits l) <-> In x l.
Proof.
  induction l as [|h l IH]; simpl.
  - tauto.
  - rewrite insert_hit_In, IH. intuition.
Qed.

Lemma insert_hit_length (h : hit) (l : list hit) :
  length (insert_hit h l) = S (length l).
Proof.
  induction l as [|h' l IH]; simpl; [reflexivity|].
  destruct (fst h <=? fst h')%Z; simpl; [reflexivity | now rewrite IH].
Qed.

Lemma sort_hits_length (l : list hit) : length (sort_hits l) = length l.
Proof.
  induction l as [|h l IH]; simpl; [reflexivity|].
  now rewrite insert_hit_length, IH.
Qed.

Lemma insert_hit_sorted (h : hit) (l : list hit) :
  StronglySorted hit_le l -> StronglySorted hit_le (insert_hit h l).
Proof.
  induction 1 as [|h' l Hs IH Hall]; simpl.
  - constructor; constructor.
  - destruct (Z.leb_spec (fst h) (fst h')).
    + constructor; [now constructor|].
      constructor; [assumption|].
      eapply Forall_impl; [|exact Hall]. unfold hit_le. intros; lia.
    + constructor; [assumption|].
      apply Forall_forall. intros x Hx. apply insert_hit_In in Hx as [->|Hx].
      * unfold hit_le. lia.
      * rewrite Forall_forall in Hall. now apply Hall.
Qed.

Lemma sort_hits_sorted (l : list hit) : StronglySorted hit_le (sort_hits l).
Proof.
  induction l as [|h l IH]; simpl; [constructor | now apply insert_hit_sorted].
Qed.

Lemma candidates_length (t : KDTree) (q : point) :
  length (candidates t q) = length (data t).
Proof.
  unfold candidates. rewrite length_combine, length_map, length_seq. lia.
Qed.

Lemma combine_seq_In (q : point) (l : list point) (s : nat) (h : hit) :
  In h (combine (map (sqdist q) l) (seq s (length l))) ->
  s <= snd h < s + length l
  /\ exists p, nth_error l (snd h - s) = Some p /\ fst h = sqdist q p.
Proof.
  revert s. induction l as [|p l IH]; intros s; simpl; [tauto|].
  intros [<- | Hin].
  - simpl. split; [lia|]. exists p. now rewrite Nat.sub_diag.
  - destruct (IH _ Hin) as (Hb & p' & Hn & Hd). split; [lia|].
    exists p'. split; [|assumption].
    replace (snd h - s) with (S (snd h - S s)) by lia. exact Hn.
Qed.

(** Every candidate carries a valid index and the squared distance of the
    point at that index. *)
Lemma candidates_In (t : KDTree) (q : point) (h : hit) :
  In h (candidates t q) ->
  snd h < length (data t)
  /\ exists p, nth_error (data t) (snd h) = Some p /\ fst h = sqdist q p.
Proof.
  intros Hin. apply combine_seq_In in Hin as (Hb & p & Hn & Hd).
  split; [lia|]. exists p. now rewrite Nat.sub_0_r in Hn.
Qed.

Lemma firstn_In {A : Type} (n : nat) (l : list A) (x : A) :
  In x (firstn n l) -> In x l.
Proof.
  revert l. induction n as [|n IH]; intros [|a l]; simpl; try tauto.
  intros [->|H]; auto.
Qed.

(** The hits returned for [k >= 2]: [k] of them when the index holds at
    least [k] points, ranked by distance, each with a valid index, and no
    point left out is closer than a point returned. *)
Lemma query_neighbours (t : KDTree) (q : point) (k : Z) :
  (2 <= k <= Z.of_nat (length (data t)))%Z ->
  exists hits rest,
    query t q k = Ok (Neighbours (map hit_dist hits) (map snd hits))
    /\ sort_hits (candidates t q) = hits ++ rest
    /\ length hits = Z.to_nat k
    /\ StronglySorted hit_le hits
    /\ (forall h, In h hits -> In h (candidates t q))
    /\ (forall h r, In h hits -> In r rest -> (fst h <= fst r)%Z).
Proof.
  intros Hk. unfold query.
  destruct (Z.ltb_spec k 1); [lia|]. destruct (Z.eqb_spec k 1); [lia|].
  set (sorted := sort_hits (candidates t q)).
  exists (firstn (Z.to_nat k) sorted), (skipn (Z.to_nat k) sorted).
  assert (Hs : StronglySorted hit_le (firstn (Z.to_nat k) sorted ++ skipn (Z.to_nat k) sorted)).
  { rewrite firstn_skipn. apply sort_hits_sorted. }
  repeat split.
  - now rewrite firstn_skipn.
  - rewrite length_firstn. unfold sorted.
    rewrite sort_hits_length, candidates_length. lia.
  - clear -Hs. induction (firstn (Z.to_nat k) sorted) as [|a l IH]; [constructor|].
    simpl in Hs. inversion Hs as [|? ? Hs' Hall]; subst.
    constructor; [now apply IH|].
    apply Forall_forall. intros x Hx. rewrite Forall_forall in Hall.
    apply Hall. apply in_or_app. now left.
  - intros h Hh. apply firstn_In in Hh. unfold sorted in Hh.
    exact (proj1 (sort_hits_In h _) Hh).
  - clear -Hs. induction (firstn (Z.to_nat k) sorted) as [|a l IH]; [intros ? ? []|].
    simpl in Hs. inversion Hs as [|? ? Hs' Hall]; subst.
    intros h r [<-|Hh] Hr.
    + rewrite Forall_forall in Hall. apply Hall. apply in_or_app. now right.
    + now apply IH.
Qed.

(** ** Weights and estimates *)

Lemma eps_pos : (0 < eps)%R.
Proof.
  unfold eps. apply Rinv_0_lt_compat. apply pow_lt. lra.
Qed.

Lemma idw_weight_pos (power d : R) : (0 < 1 / Rpower (Rmax d eps) power)%R.
Proof.
  apply Rdiv_lt_0_compat; [lra|]. unfold Rpower. apply exp_pos.
Qed.

Lemma np_sum_weights_pos (power : R) (dists : list R) :
  dists <> [] -> (0 < np_sum (idw_weights power dists))%R.
Proof.
  intros Hne.
  assert (H : forall l, (0 <= np_sum (idw_weights power l))%R).
  { induction l as [|d l IH]; simpl; [lra|].
    pose proof (idw_weight_pos power d). lra. }
  destruct dists as [|d dists]; [congruence|]. simpl.
  pose proof (idw_weight_pos power d). pose proof (H dists). lra.
Qed.

Lemma fdiv_finite (x y : R) : y <> 0%R -> fdiv (Fin x) (Fin y) = Fin (x / y)%R.
Proof.
  intros Hy. unfold fdiv. destruct (Req_dec_T y 0); [contradiction | reflexivity].
Qed.

Lemma finite_inv (v : npfloat) : finite v -> exists r, v = Fin r.
Proof.
  destruct v as [|r]; [discriminate | intros _; now exists r].
Qed.

Lemma np_dot_finite (w : list R) (vals : list npfloat) :
  Forall finite vals -> exists r, np_dot w vals = Fin r.
Proof.
  intros H. revert w. induction H as [|v vals Hv _ IH]; intros [|wi w]; simpl;
    try (now eexists).
  destruct (IH w) as [r ->]. apply finite_inv in Hv as [x ->].
  simpl. now eexists.
Qed.

Lemma known_cells_finite (Z_in : ndarray) (p : point) :
  In p (known_cells Z_in) ->
  finite (item Z_in (fst p) (snd p))
  /\ fst p < nrows Z_in /\ snd p < ncols Z_in.
Proof.
  unfold known_cells. intros H. apply filter_In in H as [Hp Hf].
  apply in_positions in Hp. apply negb_true_iff in Hf. tauto.
Qed.

Lemma known_values_length (Z_in : ndarray) (known : list point) :
  length (known_values Z_in known) = length known.
Proof. unfold known_values. apply length_map. Qed.

Lemma known_values_finite (Z_in : ndarray) (i : nat) :
  i < length (known_cells Z_in) ->
  exists v, nth_error (known_values Z_in (known_cells Z_in)) i = Some v
            /\ finite v.
Proof.
  intros Hi. unfold known_values.
  destruct (nth_error (known_cells Z_in) i) as [p|] eqn:E.
  - exists (item Z_in (fst p) (snd p)). split.
    + now rewrite nth_error_map, E.
    + apply nth_error_In in E. now apply known_cells_finite in E.
  - apply nth_error_None in E. lia.
Qed.

Lemma map_result_getitem (values : list npfloat) (idxs : list nat) :
  (forall i, In i idxs -> exists v, nth_error values i = Some v /\ finite v) ->
  exists vals, map_result (list_getitem values) idxs = Ok vals
               /\ Forall finite vals.
Proof.
  induction idxs as [|i idxs IH]; intros H; simpl.
  - exists []. split; [reflexivity | constructor].
  - destruct (H i (or_introl eq_refl)) as (v & Ev & Hv).
    destruct IH as (vals & -> & Hvals). { intros j Hj. apply H. now right. }
    unfold list_getitem. rewrite Ev. simpl.
    exists (v :: vals). split; [reflexivity | now constructor].
Qed.

(** The estimate for [k] clamped to at least two neighbours: a finite
    weighted mean. *)
Lemma idw_estimate_finite (Z_in : ndarray) (k : Z) (power : R) (p : point) :
  let known := known_cells Z_in in
  (2 <= Z.min k (Z.of_nat (length known)))%Z ->
  exists r, idw_estimate (mkTree known) known (known_values Z_in known) k power p
            = Ok (Fin r).
Proof.
  intros known Hk. unfold idw_estimate.
  destruct (query_neighbours (mkTree known) p (Z.min k (Z.of_nat (length known))))
    as (hits & rest & -> & _ & Hlen & _ & Hin & _).
  { simpl. lia. }
  cbn [bind].
  destruct (map_result_getitem (known_values Z_in known) (map snd hits))
    as (vals & -> & Hvals).
  { intros i Hi. apply in_map_iff in Hi as (h & <- & Hh).
    apply Hin, candidates_In in Hh as [Hh _]. simpl in Hh.
    now apply known_values_finite. }
  cbn [bind].
  destruct (np_dot_finite (idw_weights power (map hit_dist hits)) vals Hvals)
    as [r ->].
  rewrite fdiv_finite.
  - now eexists.
  - assert (map hit_dist hits <> []).
    { destruct hits; [simpl in Hlen; lia | discriminate]. }
    pose proof (np_sum_weights_pos power (map hit_dist hits) H). lra.
Qed.

(** With the clamped [k] equal to one the index returns scalars and the
    comprehension over them raises. *)
Lemma idw_estimate_squeezed (Z_in : ndarray) (k : Z) (power : R) (p : point) :
  let known := known_cells Z_in in
  Z.min k (Z.of_nat (length known)) = 1%Z ->
  idw_estimate (mkTree known) known (known_values Z_in known) k power p
  = Raise TypeError.
Proof.
  intros known Hk. unfold idw_estimate, query. rewrite Hk. simpl.
  destruct (sort_hits (candidates (mkTree known) p)) as [|h l] eqn:E.
  - exfalso. apply (f_equal (@length _)) in E.
    rewrite sort_hits_length, candidates_length in E. simpl in E. lia.
  - reflexivity.
Qed.

(** With the clamped [k] below one the index refuses the query. *)
Lemma idw_estimate_refused (Z_in : ndarray) (k : Z) (power : R) (p : point) :
  let known := known_cells Z_in in
  (Z.min k (Z.of_nat (length known)) < 1)%Z ->
  idw_estimate (mkTree known) known (known_values Z_in known) k power p
  = Raise ValueError.
Proof.
  intros known Hk. unfold idw_estimate, query.
  destruct (Z.ltb_spec (Z.min k (Z.of_nat (length known))) 1); [reflexivity | lia].
Qed.

(** ** The filling loop *)

Lemma same_array_refl (A : ndarray) : same_array A A.
Proof. split; auto. Qed.

Lemma result_equiv_sym (r1 r2 : result ndarray) :
  result_equiv r1 r2 -> result_equiv r2 r1.
Proof.
  destruct r1 as [A|e1], r2 as [B|e2]; simpl; auto.
  intros [Hs H]. split; [auto|]. unfold shape in Hs. inversion Hs as [[Hr Hc]].
  intros i j Hi Hj. symmetry. apply H; congruence.
Qed.

Lemma result_equiv_trans (r1 r2 r3 : result ndarray) :
  result_equiv r1 r2 -> result_equiv r2 r3 -> result_equiv r1 r3.
Proof.
  destruct r1 as [A|e1], r2 as [B|e2], r3 as [C|e3]; simpl; try tauto; try congruence.
  intros [Hs1 H1] [Hs2 H2]. split; [congruence|].
  unfold shape in Hs1. inversion Hs1 as [[Hr Hc]].
  intros i j Hi Hj. rewrite H1 by assumption. apply H2; congruence.
Qed.

Section FillingLoop.

Variable Z_in : ndarray.
Variable k : Z.
Variable power : R.

Let known := known_cells Z_in.
Let values := known_values Z_in known.
Let tree := mkTree known.
Let body (p : point) (Z_out : ndarray) : result ndarray :=
  idw_step tree known values k power (fst p) (snd p) Z_out.

Lemma idw_loop_complete (l : list point) :
  (forall p, In p l -> in_grid Z_in p) ->
  existsb (missing_at Z_in) l = false ->
  for_each l body Z_in = Ok Z_in.
Proof.
  induction l as [|p l IH]; intros Hin Hex; simpl; [reflexivity|].
  simpl in Hex. apply orb_false_iff in Hex as [Hp Hl].
  destruct (Hin p (or_introl eq_refl)) as [Hi Hj].
  unfold body at 1, idw_step. rewrite getitem_nat by assumption.
  cbn [bind]. unfold missing_at in Hp. rewrite Hp.
  apply IH; [|assumption]. intros q Hq. apply Hin. now right.
Qed.

Lemma idw_loop_raises (e : exn) (l : list point) :
  (forall p, estimate_from_input Z_in k power p = Raise e) ->
  (forall p, In p l -> in_grid Z_in p) ->
  for_each l body Z_in
  = if existsb (missing_at Z_in) l then Raise e else Ok Z_in.
Proof.
  intros He. induction l as [|p l IH]; intros Hin; simpl; [reflexivity|].
  destruct (Hin p (or_introl eq_refl)) as [Hi Hj].
  unfold body at 1, idw_step. rewrite getitem_nat by assumption.
  cbn [bind]. unfold missing_at at 1.
  destruct (isnan (item Z_in (fst p) (snd p))) eqn:E; simpl.
  - specialize (He (fst p, snd p)). unfold estimate_from_input in He.
    fold known values tree in He. now rewrite He.
  - apply IH. intros q Hq. apply Hin. now right.
Qed.

Hypothesis estimates :
  forall p, exists r, estimate_from_input Z_in k power p = Ok (Fin r).

Lemma fill_cell_finite (i j : nat) : finite (fill_cell Z_in k power i j).
Proof.
  unfold fill_cell. destruct (isnan (item Z_in i j)) eqn:E.
  - destruct (estimates (i, j)) as [r ->]. reflexivity.
  - exact E.
Qed.

Lemma idw_loop_fills (l : list point) (Z0 : ndarray) :
  partly_filled Z_in k power Z0 ->
  (forall p, In p l -> in_grid Z_in p) ->
  exists Z1,
    for_each l body Z0 = Ok Z1
    /\ partly_filled Z_in k power Z1
    /\ (forall i j, In (i, j) l -> item Z1 i j = fill_cell Z_in k power i j)
    /\ (forall i j, item Z0 i j = fill_cell Z_in k power i j ->
                    item Z1 i j = fill_cell Z_in k power i j).
Proof.
  revert Z0. induction l as [|p l IH]; intros Z0 Inv Hin.
  - exists Z0. simpl. repeat split; try apply Inv; auto. intros i j [].
  - destruct (Hin p (or_introl eq_refl)) as [Hi Hj].
    destruct Inv as (Hr & Hc & Hcells).
    assert (Hstep : exists Z',
      body p Z0 = Ok Z' /\ partly_filled Z_in k power Z'
      /\ item Z' (fst p) (snd p) = fill_cell Z_in k power (fst p) (snd p)
      /\ (forall i j, item Z0 i j = fill_cell Z_in k power i j ->
                      item Z' i j = fill_cell Z_in k power i j)).
    { unfold body, idw_step. rewrite getitem_nat by congruence. cbn [bind].
      pose proof (fill_cell_finite (fst p) (snd p)) as Hfin.
      destruct (isnan (item Z0 (fst p) (snd p))) eqn:E.
      - destruct (Hcells (fst p) (snd p)) as [H0 | H0];
          [|rewrite H0 in E; unfold finite in Hfin; congruence].
        assert (Hv : estimate_from_input Z_in k power (fst p, snd p)
                     = Ok (fill_cell Z_in k power (fst p) (snd p))).
        { unfold fill_cell. rewrite <- H0, E.
          destruct (estimates (fst p, snd p)) as [r ->]. reflexivity. }
        unfold estimate_from_input in Hv. fold known values tree in Hv.
        rewrite Hv. cbn [bind]. rewrite setitem_nat by congruence.
        eexists. split; [reflexivity|]. split; [|split].
        + repeat split; try assumption. intros i j. rewrite item_updated.
          destruct ((i =? fst p) && (j =? snd p))%nat eqn:T; [|apply Hcells].
          apply point_test in T. inversion T. now right.
        + rewrite item_updated, !Nat.eqb_refl. reflexivity.
        + intros i j H. rewrite item_updated.
          destruct ((i =? fst p) && (j =? snd p))%nat eqn:T; [|assumption].
          apply point_test in T. now inversion T.
      - exists Z0. repeat split; try assumption; auto.
        destruct (Hcells (fst p) (snd p)) as [H0 | H0]; [|assumption].
        unfold fill_cell. rewrite <- H0, E. reflexivity. }
    destruct Hstep as (Z' & Ebody & Inv' & Hp & Hkeep).
    destruct (IH Z' Inv') as (Z1 & Erun & Inv1 & Hin1 & Hkeep1).
    { intros q Hq. apply Hin. now right. }
    exists Z1. simpl. rewrite Ebody. cbn [bind]. repeat split; try apply Inv1; auto.
    intros i j [Hq | Hq]; [|now apply Hin1].
    apply Hkeep1. subst p. exact Hp.
Qed.

End FillingLoop.

Lemma idw_interpolation_flat (Z_in : ndarray) (k : Z) (power : R) :
  idw_interpolation Z_in k power
  = idw_interpolation_in_order (positions (nrows Z_in) (ncols Z_in)) Z_in k power.
Proof.
  unfold idw_interpolation, idw_interpolation_in_order.
  destruct (KDTree_new (known_cells Z_in)); cbn [bind]; [|reflexivity].
  apply for_range2_flat.
Qed.

Lemma existsb_same_elements {A : Type} (f : A -> bool) (l1 l2 : list A) :
  (forall x, In x l1 <-> In x l2) -> existsb f l1 = existsb f l2.
Proof.
  intros H. apply eq_true_iff_eq. rewrite !existsb_exists.
  split; intros (x & Hx & Hf); exists x; split; auto; now apply H.
Qed.

(** Whatever the order in which the cells are visited, the gap filler
    ends with the outcome of the closed form. *)
Lemma idw_in_order_closed (order : list point) (Z_in : ndarray) (k : Z)
  (power : R) :
  (forall p, In p order <-> In p (positions (nrows Z_in) (ncols Z_in))) ->
  result_equiv (idw_interpolation_in_order order Z_in k power)
               (idw_closed_form Z_in k power).
Proof.
  intros Hord.
  assert (Hgrid : forall p, In p order -> in_grid Z_in p).
  { intros p Hp. apply Hord, in_positions in Hp. exact Hp. }
  unfold idw_interpolation_in_order, idw_closed_form.
  rewrite <- (existsb_same_elements (missing_at Z_in) order _ Hord).
  destruct (known_cells Z_in) as [|p0 known'] eqn:Ek; [reflexivity|].
  rewrite <- Ek. unfold KDTree_new. rewrite Ek at 1. cbn [bind]. unfold copy.
  destruct (existsb (missing_at Z_in) order) eqn:Emiss.
  - destruct (Z.ltb_spec (Z.min k (Z.of_nat (length (known_cells Z_in)))) 1)
      as [Hlt | Hge].
    + rewrite (idw_loop_raises Z_in k power ValueError order); auto.
      * now rewrite Emiss.
      * intros p. now apply idw_estimate_refused.
    + destruct (Z.eqb_spec (Z.min k (Z.of_nat (length (known_cells Z_in)))) 1)
        as [Heq | Hne].
      * rewrite (idw_loop_raises Z_in k power TypeError order); auto.
        -- now rewrite Emiss.
        -- intros p. now apply idw_estimate_squeezed.
      * destruct (idw_loop_fills Z_in k power) with (l := order) (Z0 := Z_in)
          as (Z1 & -> & (Hr & Hc & _) & Hin & _); auto.
        -- intros p. apply idw_estimate_finite. lia.
        -- repeat split; auto.
        -- simpl. split; [unfold shape; simpl; congruence|].
           intros i j Hi Hj. apply Hin, Hord, in_positions. simpl. lia.
  - rewrite idw_loop_complete; auto. apply same_array_refl.
Qed.

(** [idw_interpolation] itself ends with the outcome of the closed form. *)
Lemma idw_interpolation_closed (Z_in : ndarray) (k : Z) (power : R) :
  result_equiv (idw_interpolation Z_in k power) (idw_closed_form Z_in k power).
Proof.
  rewrite idw_interpolation_flat. apply idw_in_order_closed. tauto.
Qed.

Lemma Rpower_2 (x : R) : (0 < x)%R -> Rpower x 2 = (x * x)%R.
Proof.
  intros Hx. replace 2%R with (INR 2) by (simpl; lra).
  rewrite Rpower_pow by assumption. simpl. ring.
Qed.

Lemma eps_lt_1 : (eps < 1)%R.
Proof.
  unfold eps. assert (H : (1 < 10 ^ 12)%R) by (simpl; lra).
  apply Rlt_le_trans with (/ 1)%R; [|rewrite Rinv_1; lra].
  apply Rinv_lt_contravar; lra.
Qed.

Lemma weight_at_1 : (1 / Rpower (Rmax 1 eps) 2 = 1)%R.
Proof.
  rewrite Rmax_left by (pose proof eps_lt_1; lra).
  rewrite Rpower_2 by lra. field.
Qed.

Lemma weight_at_sqrt2 : (1 / Rpower (Rmax (sqrt 2) eps) 2 = / 2)%R.
Proof.
  assert (H : (1 <= sqrt 2)%R).
  { rewrite <- sqrt_1 at 1. apply sqrt_le_1_alt. lra. }
  rewrite Rmax_left by (pose proof eps_lt_1; lra).
  rewrite Rpower_2 by lra. rewrite sqrt_sqrt by lra. field.
Qed.

Lemma grid1_estimate :
  estimate_from_input grid1 3 2 (0, 1) = Ok (Fin (26 / 10)).
Proof.
  cbv - [Rplus Rmult Rinv Rdiv Rpower Rmax sqrt IZR Req_dec_T eps].
  rewrite !sqrt_1, !weight_at_1, !weight_at_sqrt2.
  destruct (Req_dec_T _ 0) as [H | H]; [exfalso; lra|].
  do 2 f_equal. field.
Qed.

(** C1. On [[1, NaN], [3, 4]] with k = 3 and power = 2 the gap filler
    replaces the missing cell (0,1) by the inverse-squared-distance
    weighted mean of the three known cells, at distances 1 to (0,0),
    sqrt 2 to (1,0) and 1 to (1,1): (1*1 + 3*0.5 + 4*1) / 2.5 = 2.6; the
    other cells are unchanged. *)
Theorem idw_scenario :
  known_cells grid1 = [(0, 0); (1, 0); (1, 1)]
  /\ known_values grid1 (known_cells grid1) = [Fin 1; Fin 3; Fin 4]
  /\ query (mkTree (known_cells grid1)) (0, 1) 3
     = Ok (Neighbours [1; 1; sqrt 2]%R [0; 2; 1])
  /\ idw_weights 2 [1; 1; sqrt 2]%R = [1; 1; / 2]%R
  /\ ((1 * 1 + 3 * / 2 + 4 * 1) / (1 + / 2 + 1) = 26 / 10)%R
  /\ exists Z_out,
       idw_interpolation grid1 3 2 = Ok Z_out
       /\ to_rows Z_out = [[Fin 1; Fin (26 / 10)]; [Fin 3; Fin 4]].
Proof.
  split; [reflexivity|]. split; [reflexivity|]. split; [|split; [|split]].
  - cbv - [sqrt IZR]. now rewrite sqrt_1.
  - unfold idw_weights. simpl map.
    now rewrite !weight_at_1, weight_at_sqrt2.
  - field.
  - pose proof (idw_interpolation_closed grid1 3 2) as H.
    change (idw_closed_form grid1 3 2) with (Ok (idw_filled grid1 3 2)) in H.
    destruct (idw_interpolation grid1 3 2) as [Z_out | e]; [|contradiction].
    exists Z_out. split; [reflexivity|].
    destruct H as [Hs Hc]. unfold shape in Hs. simpl in Hs.
    injection Hs as Hr Hn. rewrite Hr, Hn in Hc.
    unfold to_rows. rewrite Hr, Hn. simpl.
    rewrite !Hc by lia. cbn [idw_filled item].
    assert (E : fill_cell grid1 3 2 0 1 = Fin (26 / 10)).
    { unfold fill_cell. simpl isnan. cbn iota. now rewrite grid1_estimate. }
    rewrite E. reflexivity.
Qed.

(** C3. With a known cell, a positive k and a positive power the gap
    filler is to succeed and leave no missing cell.  It does whenever the
    clamped neighbour count min(k, number of known cells) is at least two;
    when that count is one (k = 1, or a single known cell) and a cell is
    missing, the call raises [TypeError] instead: here with the default
    k = 4 on a grid with one known cell, and with k = 1 on the grid of the
    scenario. *)
Theorem idw_single_neighbour_raises :
  known_cells grid_single = [(0, 0)]
  /\ idw_interpolation grid_single 4 2 = Raise TypeError
  /\ idw_interpolation grid1 1 2 = Raise TypeError.
Proof.
  split; [reflexivity|]. split.
  - pose proof (idw_interpolation_closed grid_single 4 2) as H.
    change (idw_closed_form grid_single 4 2) with (@Raise ndarray TypeError) in H.
    destruct (idw_interpolation grid_single 4 2); simpl in H; [contradiction|].
    now subst.
  - pose proof (idw_interpolation_closed grid1 1 2) as H.
    change (idw_closed_form grid1 1 2) with (@Raise ndarray TypeError) in H.
    destruct (idw_interpolation grid1 1 2); simpl in H; [contradiction|].
    now subst.
Qed.

(** With at least two neighbours available after clamping, the gap filler
    returns a grid of the input's shape without a missing cell, each
    missing cell replaced by its estimate. *)
Lemma idw_fills_every_gap (Z_in : ndarray) (k : Z) (power : R) :
  (2 <= Z.min k (Z.of_nat (length (known_cells Z_in))))%Z ->
  exists Z_out,
    idw_interpolation Z_in k power = Ok Z_out
    /\ shape Z_out = shape Z_in
    /\ forall i j, i < nrows Z_in -> j < ncols Z_in ->
         finite (item Z_out i j)
         /\ item Z_out i j = fill_cell Z_in k power i j.
Proof.
  intros Hk. pose proof (idw_interpolation_closed Z_in k power) as H.
  assert (Hfin : forall i j, finite (fill_cell Z_in k power i j)).
  { intros i j. apply fill_cell_finite. intros p.
    apply idw_estimate_finite. exact Hk. }
  unfold idw_closed_form in H.
  destruct (known_cells Z_in) as [|p0 known'] eqn:Ek; [simpl in Hk; lia|].
  rewrite <- Ek in *.
  destruct (Z.ltb_spec (Z.min k (Z.of_nat (length (known_cells Z_in)))) 1); [lia|].
  destruct (Z.eqb_spec (Z.min k (Z.of_nat (length (known_cells Z_in)))) 1); [lia|].
  destruct (idw_interpolation Z_in k power) as [Z_out | e].
  - exists Z_out. split; [reflexivity|].
    destruct (existsb (missing_at Z_in) _) eqn:Em; simpl in H;
      destruct H as [Hs Hc]; (split; [exact Hs|]);
      injection Hs as Hr Hn; intros i j Hi Hj;
      rewrite Hc by congruence.
    + split; [apply Hfin | reflexivity].
    + assert (Hij : missing_at Z_in (i, j) = false).
      { destruct (missing_at Z_in (i, j)) eqn:E; [|reflexivity].
        assert (Hex : existsb (missing_at Z_in)
                        (positions (nrows Z_in) (ncols Z_in)) = true).
        { apply existsb_exists. exists (i, j). split; [|assumption].
          apply in_positions. simpl. lia. }
        congruence. }
      unfold missing_at in Hij. simpl in Hij.
      unfold fill_cell. rewrite Hij. split; [exact Hij | reflexivity].
  - destruct (existsb (missing_at Z_in) _); simpl in H; contradiction.
Qed.

Lemma not_missing_in_complete (Z_in : ndarray) (i j : nat) :
  existsb (missing_at Z_in) (positions (nrows Z_in) (ncols Z_in)) = false ->
  i < nrows Z_in -> j < ncols Z_in -> isnan (item Z_in i j) = false.
Proof.
  intros Hex Hi Hj. destruct (isnan (item Z_in i j)) eqn:E; [|reflexivity].
  assert (H : existsb (missing_at Z_in) (positions (nrows Z_in) (ncols Z_in)) = true).
  { apply existsb_exists. exists (i, j). split; [|exact E].
    apply in_positions. simpl. lia. }
  congruence.
Qed.

Lemma complete_no_missing (Z_in : ndarray) :
  (forall i j, i < nrows Z_in -> j < ncols Z_in -> finite (item Z_in i j)) ->
  existsb (missing_at Z_in) (positions (nrows Z_in) (ncols Z_in)) = false.
Proof.
  intros H. destruct (existsb _ _) eqn:E; [|reflexivity].
  apply existsb_exists in E as (p & Hp & Hm). apply in_positions in Hp as [Hi Hj].
  specialize (H _ _ Hi Hj). unfold missing_at, finite in *. congruence.
Qed.

(** What a returned grid holds: the input's shape, the input's known
    cells, and in each missing cell the estimate computed from the known
    cells of the input. *)
Lemma idw_returned_cells (Z_in : ndarray) (k : Z) (power : R) (Z_out : ndarray) :
  idw_interpolation Z_in k power = Ok Z_out ->
  shape Z_out = shape Z_in
  /\ forall i j, i < nrows Z_in -> j < ncols Z_in ->
       (finite (item Z_in i j) -> item Z_out i j = item Z_in i j)
       /\ (isnan (item Z_in i j) = true ->
           estimate_from_input Z_in k power (i, j) = Ok (item Z_out i j)).
Proof.
  intros E. pose proof (idw_interpolation_closed Z_in k power) as H.
  rewrite E in H. unfold idw_closed_form in H.
  destruct (known_cells Z_in) as [|p0 known'] eqn:Ek; [contradiction|].
  rewrite <- Ek in H.
  destruct (existsb (missing_at Z_in) _) eqn:Em.
  - destruct (Z.ltb_spec (Z.min k (Z.of_nat (length (known_cells Z_in)))) 1);
      [contradiction|].
    destruct (Z.eqb_spec (Z.min k (Z.of_nat (length (known_cells Z_in)))) 1);
      [contradiction|].
    destruct H as [Hs Hc]. split; [exact Hs|]. injection Hs as Hr Hn.
    intros i j Hi Hj. rewrite Hc by congruence. simpl. unfold fill_cell.
    split.
    + unfold finite. intros ->. reflexivity.
    + intros ->.
      destruct (idw_estimate_finite Z_in k power (i, j)) as [r Hr']; [lia|].
      unfold estimate_from_input. now rewrite Hr'.
  - destruct H as [Hs Hc]. split; [exact Hs|]. injection Hs as Hr Hn.
    intros i j Hi Hj. rewrite Hc by congruence. split; [reflexivity|].
    intros Hnan. rewrite (not_missing_in_complete Z_in i j Em Hi Hj) in Hnan.
    discriminate.
Qed.

(** On a grid with a cell and no missing cell the loop changes nothing,
    whatever [k] and [power]. *)
Lemma idw_complete_grid (Z_in : ndarray) (k : Z) (power : R) :
  0 < nrows Z_in * ncols Z_in ->
  (forall i j, i < nrows Z_in -> j < ncols Z_in -> finite (item Z_in i j)) ->
  idw_interpolation Z_in k power = Ok Z_in.
Proof.
  intros Hne Hall. rewrite idw_interpolation_flat.
  unfold idw_interpolation_in_order.
  assert (Hk : known_cells Z_in <> []).
  { assert (Hp : In (0, 0) (known_cells Z_in)).
    { unfold known_cells. apply filter_In. split.
      - apply in_positions. simpl. nia.
      - simpl. apply negb_true_iff. apply Hall; nia. }
    intros Ek. now rewrite Ek in Hp. }
  destruct (known_cells Z_in) as [|p0 known'] eqn:Ek; [congruence|].
  rewrite <- Ek. unfold KDTree_new. rewrite Ek at 1. cbn [bind]. unfold copy.
  apply idw_loop_complete.
  - intros p Hp. now apply in_positions in Hp.
  - now apply complete_no_missing.
Qed.

Lemma known_cells_all_missing (Z_in : ndarray) :
  (forall i j, i < nrows Z_in -> j < ncols Z_in -> isnan (item Z_in i j) = true) ->
  known_cells Z_in = [].
Proof.
  intros H. destruct (known_cells Z_in) as [|p l] eqn:E; [reflexivity|].
  assert (Hp : In p (known_cells Z_in)) by (rewrite E; now left).
  apply known_cells_finite in Hp as (Hf & Hi & Hj).
  specialize (H _ _ Hi Hj). unfold finite in Hf. congruence.
Qed.

(** C5. On a grid whose cells are all missing the gap filler signals an
    error and produces no estimate: building the index over zero known
    cells raises [ValueError], before any cell is visited. *)
Theorem idw_all_missing_raises (Z_in : ndarray) (k : Z) (power : R) :
  (forall i j, i < nrows Z_in -> j < ncols Z_in -> isnan (item Z_in i j) = true) ->
  known_cells Z_in = []
  /\ KDTree_new (known_cells Z_in) = Raise ValueError
  /\ idw_interpolation Z_in k power = Raise ValueError.
Proof.
  intros H. apply known_cells_all_missing in H.
  unfold idw_interpolation. rewrite H. auto.
Qed.

Lemma idw_all_missing_raises_witness :
  known_cells (np_full 2 2 NaN) = []
  /\ KDTree_new (known_cells (np_full 2 2 NaN)) = Raise ValueError
  /\ idw_interpolation (np_full 2 2 NaN) 4 2 = Raise ValueError.
Proof.
  apply (idw_all_missing_raises (np_full 2 2 NaN) 4 2).
  intros i j _ _. reflexivity.
Defined.

(** C6, as stated, fails on the grid with no cell: it has no missing
    cell, and the call raises instead of returning a copy. *)
Lemma idw_empty_grid_raises :
  (forall i j, i < nrows grid_empty -> j < ncols grid_empty ->
               isnan (item grid_empty i j) = false)
  /\ (0 < 4)%Z /\ (0 < 2)%R
  /\ idw_interpolation grid_empty 4 2 = Raise ValueError
  /\ ~ exists Z_out, idw_interpolation grid_empty 4 2 = Ok Z_out
                     /\ same_array Z_out grid_empty.
Proof.
  split; [intros i j Hi; simpl in Hi; lia|].
  split; [lia|]. split; [lra|]. split; [reflexivity|].
  intros (Z_out & H & _). discriminate.
Qed.

(** C6, amended. Whenever the gap filler returns a grid, the grid has the
    input's shape and every cell that is not missing in the input keeps
    its value; on a grid with at least one cell and no missing cell it
    returns the input grid, for every k and power. *)
Theorem idw_keeps_known_cells (Z_in : ndarray) (k : Z) (power : R) :
  (forall Z_out,
     idw_interpolation Z_in k power = Ok Z_out ->
     shape Z_out = shape Z_in
     /\ forall i j, i < nrows Z_in -> j < ncols Z_in ->
          isnan (item Z_in i j) = false -> item Z_out i j = item Z_in i j)
  /\
  (0 < nrows Z_in * ncols Z_in ->
   (forall i j, i < nrows Z_in -> j < ncols Z_in -> isnan (item Z_in i j) = false) ->
   idw_interpolation Z_in k power = Ok Z_in).
Proof.
  split.
  - intros Z_out E. destruct (idw_returned_cells Z_in k power Z_out E) as [Hs Hc].
    split; [exact Hs|]. intros i j Hi Hj Hf. now apply Hc.
  - apply idw_complete_grid.
Qed.

Lemma idw_keeps_known_cells_witness :
  (exists Z_out,
     idw_interpolation grid1 3 2 = Ok Z_out
     /\ shape Z_out = (2, 2)
     /\ item Z_out 1 0 = Fin 3)
  /\ idw_interpolation grid_complete 4 2 = Ok grid_complete.
Proof.
  split.
  - eexists. split; [reflexivity|].
    destruct (proj1 (idw_keeps_known_cells grid1 3 2) _ eq_refl) as [Hs Hc].
    split; [exact Hs|]. apply (Hc 1 0); [simpl; lia | simpl; lia | reflexivity].
  - apply (proj2 (idw_keeps_known_cells grid_complete 4 2)).
    + simpl. lia.
    + intros i j Hi Hj. simpl in Hi, Hj.
      destruct i as [|[|i]]; destruct j as [|[|j]]; try lia; reflexivity.
Defined.

(** ** Binary64 rounding *)

Ltac qlra := Lqa.lra.
Ltac qnra := Lqa.nra.

Lemma pow2_pos (e : Z) : (0 < pow2 e)%Q.
Proof. unfold pow2. apply Qpower_0_lt. reflexivity. Qed.

Lemma pow2_add (a b : Z) : (pow2 (a + b) == pow2 a * pow2 b)%Q.
Proof. unfold pow2. apply Qpower_plus. discriminate. Qed.

Lemma pow2_le (a b : Z) : (a <= b)%Z -> (pow2 a <= pow2 b)%Q.
Proof. intros H. unfold pow2. apply Qpower_le_compat_l; [assumption | discriminate]. Qed.

Lemma pow2_lt_inv (a b : Z) : (pow2 a < pow2 b)%Q -> (a < b)%Z.
Proof. intros H. unfold pow2 in H. eapply Qpower_lt_compat_l_inv; [eassumption | reflexivity]. Qed.

Lemma pow2_Z (e : Z) : (0 <= e)%Z -> (pow2 e == inject_Z (2 ^ e))%Q.
Proof. intros H. unfold pow2. now rewrite Zpower_Qpower. Qed.

Lemma pow2_succ (e : Z) : (pow2 (e + 1) == 2 * pow2 e)%Q.
Proof. rewrite pow2_add. change (pow2 1) with 2%Q. ring. Qed.

Lemma pow2_pred (e : Z) : (pow2 (e - 1) == pow2 e / 2)%Q.
Proof.
  assert (H := pow2_succ (e - 1)). replace (e - 1 + 1)%Z with e in H by ring.
  rewrite H. field.
Qed.

Lemma div_pow2 (x : Q) (q : Z) : (x / pow2 q * pow2 q == x)%Q.
Proof. field. pose proof (pow2_pos q). qlra. Qed.

(** [round] is within a half of its argument, monotone, and the
    identity on the integers. *)
Lemma py_round_near (y : Q) :
  (inject_Z (py_round y) - (1 # 2) <= y)%Q /\ (y <= inject_Z (py_round y) + (1 # 2))%Q.
Proof.
  unfold py_round.
  pose proof (Qfloor_le y) as Hl. pose proof (Qlt_floor y) as Hu.
  rewrite inject_Z_plus in Hu. change (inject_Z 1) with 1%Q in Hu.
  destruct (Qcompare_spec (y - inject_Z (Qfloor y)) (1 # 2)) as [E|E|E].
  - destruct (Z.even (Qfloor y)).
    + split; qlra.
    + rewrite inject_Z_plus. change (inject_Z 1) with 1%Q. split; qlra.
  - split; qlra.
  - rewrite inject_Z_plus. change (inject_Z 1) with 1%Q. split; qlra.
Qed.

Lemma py_round_comp (x y : Q) : (x == y)%Q -> py_round x = py_round y.
Proof.
  intros E. unfold py_round. rewrite (Qfloor_comp _ _ E).
  assert (E' : (x - inject_Z (Qfloor y) == y - inject_Z (Qfloor y))%Q) by (rewrite E; reflexivity).
  now rewrite (Qcompare_comp _ _ E' _ _ (Qeq_refl (1 # 2))).
Qed.

Lemma py_round_int (n : Z) : py_round (inject_Z n) = n.
Proof.
  unfold py_round. rewrite Qfloor_Z.
  destruct (Qcompare_spec (inject_Z n - inject_Z n) (1 # 2)) as [E|E|E].
  - exfalso. qlra.
  - reflexivity.
  - exfalso. qlra.
Qed.

Lemma py_round_mono (x y : Q) : (x <= y)%Q -> (py_round x <= py_round y)%Z.
Proof.
  intros H.
  pose proof (Qfloor_resp_le _ _ H) as Hf.
  destruct (Z.eq_dec (Qfloor x) (Qfloor y)) as [E|E].
  - unfold py_round. rewrite E.
    destruct (Qcompare_spec (x - inject_Z (Qfloor y)) (1 # 2)) as [Ex|Ex|Ex];
      destruct (Qcompare_spec (y - inject_Z (Qfloor y)) (1 # 2)) as [Ey|Ey|Ey];
      try (destruct (Z.even (Qfloor y))); try lia; exfalso; qlra.
  - assert (Hlt : (Qfloor x + 1 <= Qfloor y)%Z) by lia.
    assert (Hx : (py_round x <= Qfloor x + 1)%Z).
    { unfold py_round. destruct (_ ?= _)%Q; try destruct (Z.even _); lia. }
    assert (Hy : (Qfloor y <= py_round y)%Z).
    { unfold py_round. destruct (_ ?= _)%Q; try destruct (Z.even _); lia. }
    lia.
Qed.

Lemma py_round_nonneg (y : Q) : (0 <= y)%Q -> (0 <= py_round y)%Z.
Proof.
  intros H. rewrite <- (py_round_int 0). now apply py_round_mono.
Qed.

(** [ilog2 x] is the exponent of the binade of [x]. *)
Lemma ilog2_spec (x : Q) :
  (0 < x)%Q -> (pow2 (ilog2 x) <= x)%Q /\ (x < pow2 (ilog2 x + 1))%Q.
Proof.
  intros Hx. unfold ilog2.
  destruct x as [n d]. cbn [Qnum Qden].
  assert (Hn : (0 < n)%Z) by (unfold Qlt in Hx; simpl in Hx; lia).
  set (a := Z.log2 n). set (b := Z.log2 (Z.pos d)).
  destruct (Z.log2_spec n Hn) as [Ha1 Ha2]. fold a in Ha1, Ha2.
  destruct (Z.log2_spec (Z.pos d) eq_refl) as [Hb1 Hb2]. fold b in Hb1, Hb2.
  assert (Ha0 : (0 <= a)%Z) by apply Z.log2_nonneg.
  assert (Hb0 : (0 <= b)%Z) by apply Z.log2_nonneg.
  assert (Qa1 : (pow2 a <= inject_Z n)%Q) by (rewrite pow2_Z by lia; now rewrite <- Zle_Qle).
  assert (Qa2 : (inject_Z n < 2 * pow2 a)%Q).
  { rewrite <- pow2_succ, pow2_Z by lia. rewrite <- Zlt_Qlt.
    now replace (a + 1)%Z with (Z.succ a) by lia. }
  assert (Qb1 : (pow2 b <= inject_Z (Z.pos d))%Q) by (rewrite pow2_Z by lia; now rewrite <- Zle_Qle).
  assert (Qb2 : (inject_Z (Z.pos d) < 2 * pow2 b)%Q).
  { rewrite <- pow2_succ, pow2_Z by lia. rewrite <- Zlt_Qlt.
    now replace (b + 1)%Z with (Z.succ b) by lia. }
  assert (Hxd : ((n # d) * inject_Z (Z.pos d) == inject_Z n)%Q).
  { unfold Qeq, Qmult, inject_Z. simpl. lia. }
  assert (He : (pow2 (a - b) * pow2 b == pow2 a)%Q).
  { rewrite <- pow2_add. now replace (a - b + b)%Z with a by ring. }
  pose proof (pow2_pos a) as Pa. pose proof (pow2_pos b) as Pb.
  pose proof (pow2_pos (a - b)) as Pe.
  set (x := (n # d)%Q) in *. set (D := inject_Z (Z.pos d)) in *.
  set (N := inject_Z n) in *.
  set (pa := pow2 a) in *. set (pb := pow2 b) in *. set (pe := pow2 (a - b)) in *.
  destruct (Qle_bool pe x) eqn:E.
  - apply Qle_bool_iff in E. split; [assumption|].
    rewrite pow2_succ. fold pe.
    apply Qnot_le_lt. intros Hc.
    assert (H1 : (2 * pe * pb <= x * pb)%Q) by (apply Qmult_le_compat_r; qlra).
    assert (H2 : (x * pb <= x * D)%Q) by (apply Qmult_le_l; qlra).
    qlra.
  - assert (E' : (x < pe)%Q).
    { apply Qnot_le_lt. intros Hc. apply Qle_bool_iff in Hc. congruence. }
    replace (a - b - 1 + 1)%Z with (a - b)%Z by ring. fold pe.
    split; [|assumption].
    rewrite pow2_pred. fold pe.
    apply Qnot_lt_le. intros Hc.
    assert (H1 : (x * (2 * pb) < pe / 2 * (2 * pb))%Q) by (apply Qmult_lt_compat_r; qlra).
    assert (H2 : (x * D <= x * (2 * pb))%Q) by (apply Qmult_le_l; qlra).
    assert (H3 : (pe / 2 * (2 * pb) == pe * pb)%Q) by field.
    qlra.
Qed.

Lemma ilog2_unique (x : Q) (e : Z) :
  (pow2 e <= x)%Q -> (x < pow2 (e + 1))%Q -> ilog2 x = e.
Proof.
  intros H1 H2.
  assert (Hx : (0 < x)%Q) by (pose proof (pow2_pos e); qlra).
  destruct (ilog2_spec x Hx) as [H3 H4].
  assert (ilog2 x < e + 1)%Z by (apply pow2_lt_inv; qlra).
  assert (e < ilog2 x + 1)%Z by (apply pow2_lt_inv; qlra).
  lia.
Qed.

Lemma ilog2_mono (x y : Q) : (0 < x)%Q -> (x <= y)%Q -> (ilog2 x <= ilog2 y)%Z.
Proof.
  intros Hx Hxy.
  destruct (ilog2_spec x Hx) as [H1 _].
  destruct (ilog2_spec y) as [_ H2]; [qlra|].
  assert (ilog2 x < ilog2 y + 1)%Z by (apply pow2_lt_inv; qlra).
  lia.
Qed.

Lemma ilog2_comp (x y : Q) : (0 < x)%Q -> (x == y)%Q -> ilog2 x = ilog2 y.
Proof.
  intros Hx E. destruct (ilog2_spec x Hx) as [H1 H2].
  symmetry. apply ilog2_unique; rewrite <- E; assumption.
Qed.

Lemma ulp_exp_mono (x y : Q) : (0 < x)%Q -> (x <= y)%Q -> (ulp_exp x <= ulp_exp y)%Z.
Proof.
  intros Hx Hxy. unfold ulp_exp. pose proof (ilog2_mono x y Hx Hxy). lia.
Qed.

(** The significand of a positive number scaled by its unit in the last
    place lies below [2^53], and at or above [2^52] for a normal number. *)
Lemma scaled_below (x : Q) : (0 < x)%Q -> (x / pow2 (ulp_exp x) < pow2 53)%Q.
Proof.
  intros Hx. destruct (ilog2_spec x Hx) as [_ H2].
  apply Qlt_shift_div_r; [apply pow2_pos|].
  rewrite <- pow2_add.
  eapply Qlt_le_trans; [exact H2|]. apply pow2_le. unfold ulp_exp. lia.
Qed.

Lemma scaled_above (x : Q) :
  (0 < x)%Q -> ulp_exp x = (ilog2 x - 52)%Z -> (pow2 52 <= x / pow2 (ulp_exp x))%Q.
Proof.
  intros Hx E. destruct (ilog2_spec x Hx) as [H1 _].
  apply Qle_shift_div_l; [apply pow2_pos|].
  rewrite <- pow2_add, E. now replace (52 + (ilog2 x - 52))%Z with (ilog2 x) by ring.
Qed.

Lemma round_pos_comp (x y : Q) : (0 < x)%Q -> (x == y)%Q -> (round_pos x == round_pos y)%Q.
Proof.
  intros Hx E. unfold round_pos, ulp_exp.
  rewrite (ilog2_comp x y Hx E).
  rewrite (py_round_comp (x / pow2 (Z.max (ilog2 y - 52) (-1074)))
             (y / pow2 (Z.max (ilog2 y - 52) (-1074)))) by (now rewrite E).
  reflexivity.
Qed.

Lemma round_pos_nonneg (x : Q) : (0 < x)%Q -> (0 <= round_pos x)%Q.
Proof.
  intros Hx. unfold round_pos.
  pose proof (pow2_pos (ulp_exp x)) as Hp.
  apply Qmult_le_0_compat; [|qlra].
  change 0%Q with (inject_Z 0). rewrite <- Zle_Qle. apply py_round_nonneg.
  apply Qle_shift_div_l; [assumption | qlra].
Qed.

(** Rounding is monotone. *)
Lemma round_pos_mono (x y : Q) :
  (0 < x)%Q -> (x <= y)%Q -> (round_pos x <= round_pos y)%Q.
Proof.
  intros Hx Hxy. assert (Hy : (0 < y)%Q) by qlra.
  pose proof (ulp_exp_mono x y Hx Hxy) as Hq.
  destruct (Z.eq_dec (ulp_exp x) (ulp_exp y)) as [E|E].
  - unfold round_pos. rewrite E.
    pose proof (pow2_pos (ulp_exp y)) as Hp.
    apply Qmult_le_compat_r; [|qlra].
    rewrite <- Zle_Qle. apply py_round_mono.
    apply Qmult_le_compat_r; [assumption|].
    apply Qinv_le_0_compat. qlra.
  - assert (Hlt : (ulp_exp x + 1 <= ulp_exp y)%Z) by lia.
    assert (Ey : ulp_exp y = (ilog2 y - 52)%Z) by (unfold ulp_exp in *; lia).
    apply Qle_trans with (pow2 (52 + ulp_exp y)).
    + unfold round_pos.
      apply Qle_trans with (pow2 53 * pow2 (ulp_exp x))%Q.
      * pose proof (pow2_pos (ulp_exp x)) as Hp.
        apply Qmult_le_compat_r; [|qlra].
        rewrite (pow2_Z 53) by lia. rewrite <- Zle_Qle.
        rewrite <- (py_round_int (2 ^ 53)). apply py_round_mono.
        rewrite <- pow2_Z by lia. apply Qlt_le_weak. now apply scaled_below.
      * rewrite <- pow2_add. apply pow2_le. lia.
    + unfold round_pos. rewrite pow2_add.
      pose proof (pow2_pos (ulp_exp y)) as Hp.
      apply Qmult_le_compat_r; [|qlra].
      rewrite (pow2_Z 52) by lia. rewrite <- Zle_Qle.
      rewrite <- (py_round_int (2 ^ 52)). apply py_round_mono.
      rewrite <- pow2_Z by lia. now apply scaled_above.
Qed.

(** Rounding leaves a number with a significand below [2^53] and an
    exponent of the format unchanged. *)
Lemma round_pos_exact (m k : Z) :
  (0 < m < 2 ^ 53)%Z -> (-1074 <= k)%Z ->
  (round_pos (inject_Z m * pow2 k) == inject_Z m * pow2 k)%Q.
Proof.
  intros Hm Hk.
  set (x := (inject_Z m * pow2 k)%Q).
  assert (Hl : (0 <= Z.log2 m <= 52)%Z).
  { split; [apply Z.log2_nonneg|].
    assert (Z.log2 m < 53)%Z by (apply Z.log2_lt_pow2; lia). lia. }
  destruct (Z.log2_spec m) as [L1 L2]; [lia|].
  pose proof (pow2_pos k) as Pk.
  assert (E : ilog2 x = (Z.log2 m + k)%Z).
  { apply ilog2_unique; unfold x.
    - rewrite pow2_add. apply Qmult_le_compat_r; [|qlra].
      rewrite pow2_Z by lia. now rewrite <- Zle_Qle.
    - replace (Z.log2 m + k + 1)%Z with (Z.succ (Z.log2 m) + k)%Z by ring.
      rewrite pow2_add. apply Qmult_lt_compat_r; [assumption|].
      rewrite pow2_Z by lia. now rewrite <- Zlt_Qlt. }
  unfold round_pos, ulp_exp. rewrite E.
  set (q := Z.max (Z.log2 m + k - 52) (-1074)).
  assert (Hq : (0 <= k - q)%Z) by (unfold q; lia).
  assert (Ex : (x / pow2 q == inject_Z (m * 2 ^ (k - q)))%Q).
  { unfold x. rewrite inject_Z_mult, <- pow2_Z by assumption.
    replace k with ((k - q) + q)%Z at 1 by ring. rewrite pow2_add.
    field. pose proof (pow2_pos q). qlra. }
  rewrite (py_round_comp _ _ Ex), py_round_int.
  rewrite <- Ex. apply div_pow2.
Qed.

Lemma round_pos_int (n : Z) :
  (0 < n <= 2 ^ 53)%Z -> (round_pos (inject_Z n) == inject_Z n)%Q.
Proof.
  intros Hn. destruct (Z.eq_dec n (2 ^ 53)) as [->|Hne].
  - assert (E : (inject_Z (2 ^ 53) == inject_Z 1 * pow2 53)%Q) by reflexivity.
    assert (Hp : (0 < inject_Z (2 ^ 53))%Q) by reflexivity.
    rewrite (round_pos_comp _ _ Hp E).
    rewrite E. apply round_pos_exact; lia.
  - assert (E : (inject_Z n == inject_Z n * pow2 0)%Q).
    { change (pow2 0) with 1%Q. ring. }
    assert (Hp : (0 < inject_Z n)%Q).
    { change 0%Q with (inject_Z 0). rewrite <- Zlt_Qlt. lia. }
    rewrite (round_pos_comp _ _ Hp E).
    rewrite E at 2. apply round_pos_exact; lia.
Qed.

(** The rounding error of a normal number is at most [2^-53] of it. *)
Lemma round_pos_error (x : Q) :
  (pow2 (-1022) <= x)%Q ->
  (x * (1 - pow2 (-53)) <= round_pos x)%Q /\ (round_pos x <= x * (1 + pow2 (-53)))%Q.
Proof.
  intros Hx.
  assert (Hx0 : (0 < x)%Q) by (pose proof (pow2_pos (-1022)); qlra).
  destruct (ilog2_spec x Hx0) as [H1 H2].
  assert (He : (-1022 <= ilog2 x)%Z).
  { assert (-1022 < ilog2 x + 1)%Z by (apply pow2_lt_inv; qlra). lia. }
  assert (Eq : ulp_exp x = (ilog2 x - 52)%Z) by (unfold ulp_exp; lia).
  unfold round_pos. rewrite Eq.
  set (q := (ilog2 x - 52)%Z).
  pose proof (py_round_near (x / pow2 q)) as [N1 N2].
  pose proof (pow2_pos q) as Pq.
  set (r := inject_Z (py_round (x / pow2 q))) in *.
  assert (Hu : (pow2 q == 2 * (pow2 (ilog2 x) * pow2 (-53)))%Q).
  { rewrite <- pow2_add, <- pow2_succ. unfold q.
    now replace (ilog2 x + -53 + 1)%Z with (ilog2 x - 52)%Z by ring. }
  pose proof (pow2_pos (-53)) as Pu.
  assert (M1 : ((r - (1 # 2)) * pow2 q <= x / pow2 q * pow2 q)%Q)
    by (apply Qmult_le_compat_r; qlra).
  assert (M2 : (x / pow2 q * pow2 q <= (r + (1 # 2)) * pow2 q)%Q)
    by (apply Qmult_le_compat_r; qlra).
  rewrite div_pow2 in M1, M2.
  assert (M3 : (pow2 (ilog2 x) * pow2 (-53) <= x * pow2 (-53))%Q)
    by (apply Qmult_le_compat_r; qlra).
  split; qlra.
Qed.

(** The float of a positive rational whose rounding stays below
    [2^1024] is finite. *)
Lemma fl_pos (x : Q) :
  (0 < x)%Q -> (round_pos x < pow2 1024)%Q -> fl x = F_fin (Qred (round_pos x)).
Proof.
  intros Hx Hr. unfold fl.
  destruct (Qcompare_spec x 0) as [E|E|E]; try (exfalso; qlra).
  destruct (Qle_bool (pow2 1024) (round_pos x)) eqn:B; [|reflexivity].
  apply Qle_bool_iff in B. exfalso. qlra.
Qed.

Lemma fl_pos_cases (x : Q) :
  (0 < x)%Q ->
  (fl x = F_inf false /\ (pow2 1024 <= round_pos x)%Q)
  \/ (fl x = F_fin (Qred (round_pos x)) /\ (round_pos x < pow2 1024)%Q).
Proof.
  intros Hx. destruct (Qlt_le_dec (round_pos x) (pow2 1024)) as [H|H].
  - right. split; [now apply fl_pos | assumption].
  - left. split; [|assumption]. unfold fl.
    destruct (Qcompare_spec x 0) as [E|E|E]; try (exfalso; qlra).
    apply Qle_bool_iff in H. now rewrite H.
Qed.

Lemma fl_zero (x : Q) : (x == 0)%Q -> fl x = F_fin 0.
Proof.
  intros E. unfold fl. rewrite (Qcompare_comp _ _ E _ _ (Qeq_refl 0)). reflexivity.
Qed.

Lemma fl_comp (x y : Q) : (x == y)%Q -> fl x = fl y.
Proof.
  intros E. unfold fl. rewrite (Qcompare_comp _ _ E _ _ (Qeq_refl 0)).
  destruct (Qcompare_spec y 0) as [H|H|H]; [reflexivity| |].
  - assert (Hx : (0 < - x)%Q) by (rewrite E; qlra).
    assert (E' : (- x == - y)%Q) by (now rewrite E).
    pose proof (round_pos_comp _ _ Hx E') as Er.
    rewrite (Qleb_comp _ _ (Qeq_refl (pow2 1024)) _ _ Er).
    destruct (Qle_bool _ _); [reflexivity|].
    f_equal. apply Qred_complete. now rewrite Er.
  - assert (Hx : (0 < x)%Q) by (rewrite E; qlra).
    pose proof (round_pos_comp _ _ Hx E) as Er.
    rewrite (Qleb_comp _ _ (Qeq_refl (pow2 1024)) _ _ Er).
    destruct (Qle_bool _ _); [reflexivity|].
    f_equal. now apply Qred_complete.
Qed.

(** A float that is not positive: a finite number at most zero, or the
    negative infinity. *)
Lemma fl_nonpos (x : Q) :
  (x <= 0)%Q -> fl x = F_inf true \/ exists r, fl x = F_fin r /\ (r <= 0)%Q.
Proof.
  intros Hx. unfold fl.
  destruct (Qcompare_spec x 0) as [E|E|E].
  - right. exists 0%Q. split; [reflexivity | qlra].
  - destruct (Qle_bool _ _); [now left|]. right.
    eexists. split; [reflexivity|]. rewrite Qred_correct.
    assert (H : (0 < - x)%Q) by qlra.
    pose proof (round_pos_nonneg _ H). qlra.
  - exfalso. qlra.
Qed.

Lemma pow2_1024_large (n : Z) : (n <= 2 ^ 53)%Z -> (inject_Z n < pow2 1024)%Q.
Proof.
  intros H. apply Qle_lt_trans with (inject_Z (2 ^ 53)).
  - now rewrite <- Zle_Qle.
  - reflexivity.
Qed.

(** An [int] of magnitude up to [2^53] converts to a float exactly. *)
Lemma float_of_int_exact (n : Z) :
  (0 <= n <= 2 ^ 53)%Z ->
  exists x, float_of_int n = Ok x /\ (x == inject_Z n)%Q.
Proof.
  intros Hn. unfold float_of_int.
  destruct (Z.eq_dec n 0) as [->|Hne].
  - exists 0%Q. split; reflexivity.
  - assert (Hp : (0 < inject_Z n)%Q).
    { change 0%Q with (inject_Z 0). rewrite <- Zlt_Qlt. lia. }
    assert (Er : (round_pos (inject_Z n) == inject_Z n)%Q) by (apply round_pos_int; lia).
    rewrite fl_pos; [|assumption|].
    + eexists. split; [reflexivity|]. now rewrite Qred_correct.
    + rewrite Er. apply pow2_1024_large. lia.
Qed.

(** [int(M * factor)] for a positive finite factor: the truncation of
    the rounded product. *)
Lemma out_extent64_pos (M : nat) (v : Q) (R : Z) :
  (0 < v)%Q -> (Z.of_nat M <= 2 ^ 53)%Z ->
  out_extent64 M (F_fin v) = Ok R ->
  (M = 0 /\ R = 0%Z)
  \/ (0 < M /\ (round_pos (inject_Z (Z.of_nat M) * v) < pow2 1024)%Q
      /\ R = Qfloor (round_pos (inject_Z (Z.of_nat M) * v))).
Proof.
  intros Hv HM E. unfold out_extent64, int_mul_float in E.
  destruct (float_of_int_exact (Z.of_nat M)) as (x & Ex & Hx); [lia|].
  rewrite Ex in E. cbn [bind mul64] in E.
  destruct (Nat.eq_dec M 0) as [->|HM0].
  - left. split; [reflexivity|].
    rewrite fl_zero in E by (rewrite Hx; reflexivity).
    cbn in E. now inversion E.
  - right. split; [lia|].
    assert (Hp : (0 < inject_Z (Z.of_nat M))%Q).
    { change 0%Q with (inject_Z 0). rewrite <- Zlt_Qlt. lia. }
    assert (Exv : (x * v == inject_Z (Z.of_nat M) * v)%Q) by (now rewrite Hx).
    rewrite (fl_comp _ _ Exv) in E.
    assert (Hpos : (0 < inject_Z (Z.of_nat M) * v)%Q).
    { apply Qmult_lt_0_compat; assumption. }
    destruct (fl_pos_cases _ Hpos) as [[Ef Hr]|[Ef Hr]]; rewrite Ef in E.
    + discriminate.
    + split; [assumption|].
      assert (ER : py_int (Qred (round_pos (inject_Z (Z.of_nat M) * v))) = R)
        by (cbn [int_of_float] in E; congruence).
      rewrite <- ER. rewrite py_int_nonneg.
      * exact (Qfloor_comp _ _ (Qred_correct _)).
      * rewrite Qred_correct. now apply round_pos_nonneg.
Qed.

(** The extent lies within one of the exact product's floor. *)
Lemma rounded_floor (P : Q) :
  (0 < P)%Q -> (Qfloor (round_pos P) <= 2 ^ 52)%Z ->
  (Qfloor P <= Qfloor (round_pos P) <= Qfloor P + 1)%Z.
Proof.
  intros HP Hb.
  assert (Hlt : (P < inject_Z (2 ^ 53))%Q).
  { apply Qnot_le_lt. intros Hc.
    assert (H : (round_pos (inject_Z (2 ^ 53)) <= round_pos P)%Q)
      by (apply round_pos_mono; [reflexivity | assumption]).
    rewrite round_pos_int in H by lia.
    apply Qfloor_resp_le in H. rewrite Qfloor_Z in H. lia. }
  assert (Hf0 : (0 <= Qfloor P)%Z).
  { change 0%Z with (Qfloor 0). apply Qfloor_resp_le. qlra. }
  assert (Hf1 : (Qfloor P + 1 <= 2 ^ 53)%Z).
  { assert (H : (Qfloor P < 2 ^ 53)%Z).
    { rewrite Zlt_Qlt. eapply Qle_lt_trans; [apply Qfloor_le | exact Hlt]. }
    lia. }
  split.
  - destruct (Z.eq_dec (Qfloor P) 0) as [E|E].
    + rewrite E. change 0%Z with (Qfloor 0). apply Qfloor_resp_le.
      now apply round_pos_nonneg.
    + assert (Hp : (0 < inject_Z (Qfloor P))%Q).
      { change 0%Q with (inject_Z 0). rewrite <- Zlt_Qlt. lia. }
      assert (H : (round_pos (inject_Z (Qfloor P)) <= round_pos P)%Q).
      { apply round_pos_mono; [assumption | apply Qfloor_le]. }
      rewrite round_pos_int in H by lia.
      apply Qfloor_resp_le in H. now rewrite Qfloor_Z in H.
  - assert (H : (round_pos P <= round_pos (inject_Z (Qfloor P + 1)))%Q).
    { apply round_pos_mono; [assumption|]. apply Qlt_le_weak, Qlt_floor. }
    rewrite round_pos_int in H by lia.
    apply Qfloor_resp_le in H. now rewrite Qfloor_Z in H.
Qed.

Lemma rounded_whole (P : Q) (n : Z) :
  (0 < n <= 2 ^ 53)%Z -> (P == inject_Z n)%Q -> Qfloor (round_pos P) = n.
Proof.
  intros Hn E.
  assert (Hp : (0 < P)%Q).
  { rewrite E. change 0%Q with (inject_Z 0). rewrite <- Zlt_Qlt. lia. }
  rewrite (Qfloor_comp _ _ (round_pos_comp _ _ Hp E)).
  rewrite (Qfloor_comp _ _ (round_pos_int n Hn)). apply Qfloor_Z.
Qed.

(** The source position of an output index inside the extent rounds to
    a number below the source extent. *)
Lemma position_below (M i : Z) (v : Q) :
  (0 < v)%Q -> (1 <= M <= 2 ^ 51)%Z -> (0 < i)%Z -> (i + 1 <= 2 ^ 51)%Z ->
  (inject_Z (i + 1) <= round_pos (inject_Z M * v))%Q ->
  (round_pos (inject_Z i / v) < inject_Z M)%Q.
Proof.
  intros Hv HM Hi Hi' Hext.
  set (Mq := inject_Z M) in *. set (Iq := inject_Z i).
  assert (HM1 : (1 <= Mq)%Q).
  { unfold Mq. change 1%Q with (inject_Z 1). rewrite <- Zle_Qle. lia. }
  assert (HI1 : (1 <= Iq)%Q).
  { unfold Iq. change 1%Q with (inject_Z 1). rewrite <- Zle_Qle. lia. }
  assert (HI2 : (Iq <= inject_Z (2 ^ 51))%Q).
  { unfold Iq. rewrite <- Zle_Qle. lia. }
  rewrite inject_Z_plus in Hext. fold Iq in Hext. change (inject_Z 1) with 1%Q in Hext.
  assert (HP : (0 < Mq * v)%Q) by (apply Qmult_lt_0_compat; qlra).
  assert (Hz : (0 < Iq / v)%Q) by (apply Qlt_shift_div_l; qlra).
  assert (Hzv : (Iq / v * v == Iq)%Q) by (field; qlra).
  apply Qnot_le_lt. intros Hc.
  (* the product and the position are normal numbers *)
  assert (HP1 : (1 <= Mq * v)%Q).
  { apply Qnot_lt_le. intros H.
    assert (H' : (round_pos (Mq * v) <= round_pos (inject_Z 1))%Q).
    { apply round_pos_mono; [assumption|]. change (inject_Z 1) with 1%Q. qlra. }
    rewrite round_pos_int in H' by lia. change (inject_Z 1) with 1%Q in H'. qlra. }
  assert (Hz1 : (1 # 2 <= Iq / v)%Q).
  { apply Qnot_lt_le. intros H.
    assert (H' : (round_pos (Iq / v) <= round_pos (inject_Z 1 * pow2 (-1)))%Q).
    { apply round_pos_mono; [assumption|]. change (inject_Z 1 * pow2 (-1))%Q with (1 * (1 # 2))%Q.
      qlra. }
    rewrite round_pos_exact in H' by lia.
    change (inject_Z 1 * pow2 (-1))%Q with (1 * (1 # 2))%Q in H'. qlra. }
  assert (Hsmall : (pow2 (-1022) <= 1 # 2)%Q) by (apply (pow2_le (-1022) (-1)); lia).
  destruct (round_pos_error (Mq * v)) as [_ EP]; [qlra|].
  destruct (round_pos_error (Iq / v)) as [_ Ez]; [qlra|].
  assert (Eu : (pow2 (-53) == 1 # 9007199254740992)%Q) by reflexivity.
  rewrite Eu in EP, Ez.
  set (u := (1 # 9007199254740992)%Q) in *.
  assert (H1 : (Mq * (v * (1 + u)) <= Iq / v * (1 + u) * (v * (1 + u)))%Q).
  { apply Qmult_le_compat_r; [qlra|]. apply Qlt_le_weak, Qmult_lt_0_compat; [assumption|].
    unfold u. reflexivity. }
  assert (H2 : (Iq / v * (1 + u) * (v * (1 + u)) == Iq * ((1 + u) * (1 + u)))%Q).
  { rewrite <- Hzv at 2. ring. }
  assert (H3 : (Mq * v * (1 + u) == Mq * (v * (1 + u)))%Q) by ring.
  assert (H4 : (Iq + 1 <= Iq * ((1 + u) * (1 + u)))%Q) by qlra.
  assert (H5 : (Iq * ((1 + u) * (1 + u)) == Iq + Iq * (2 * u + u * u))%Q) by ring.
  assert (H6 : (Iq * (2 * u + u * u) <= inject_Z (2 ^ 51) * (2 * u + u * u))%Q).
  { apply Qmult_le_compat_r; [assumption|]. unfold u. discriminate. }
  assert (H7 : (inject_Z (2 ^ 51) * (2 * u + u * u) < 1)%Q) by reflexivity.
  qlra.
Qed.

(** On the sample numbers the conversions are inverse to each other,
    and [mul64], [add64], [sub64] and the rounded quotient are the
    machine's product, sum, difference and quotient. *)
Lemma agrees_with_machine_floats :
  forallb (fun a => f64_eqb (of_float (to_float a)) a) samples64 = true
  /\ forallb (fun a =>
       forallb (fun b =>
         agrees mul64 PrimFloat.mul a b && agrees add64 PrimFloat.add a b
         && agrees sub64 PrimFloat.sub a b && agrees_div a b)
       samples64) samples64 = true.
Proof. split; vm_compute; reflexivity. Qed.

(** ** Arrays of binary64 cells *)

Lemma getitem64_in_range (A : ndarray64) (i j : Z) :
  (0 <= i < Z.of_nat (nrows64 A))%Z -> (0 <= j < Z.of_nat (ncols64 A))%Z ->
  getitem64 A i j = Ok (item64 A (Z.to_nat i) (Z.to_nat j)).
Proof.
  intros Hi Hj. unfold getitem64.
  now rewrite !norm_index_in_range.
Qed.

Lemma setitem64_nat (A : ndarray64) (i j : nat) (v : f64) :
  i < nrows64 A -> j < ncols64 A ->
  setitem64 A (Z.of_nat i) (Z.of_nat j) v = Ok (updated64 A i j v).
Proof.
  intros Hi Hj. unfold setitem64. now rewrite !norm_index_nat.
Qed.

Lemma item64_updated (A : ndarray64) (i j : nat) (v : f64) (a b : nat) :
  item64 (updated64 A i j v) a b = if ((a =? i) && (b =? j))%nat then v else item64 A a b.
Proof. reflexivity. Qed.

(** A loop that assigns [cell i j] to every visited cell [(i, j)] of the
    output: when no [cell] raises, every visited cell ends with its value
    and the others are untouched. *)
Lemma fill_loop64 (cell : nat -> nat -> result f64)
  (g : nat -> nat -> f64) (l : list point) (Z0 : ndarray64) :
  (forall p, In p l ->
     fst p < nrows64 Z0 /\ snd p < ncols64 Z0 /\ cell (fst p) (snd p) = Ok (g (fst p) (snd p))) ->
  exists Z1,
    for_each l
      (fun p Z_out =>
         v <- cell (fst p) (snd p) ;;
         setitem64 Z_out (Z.of_nat (fst p)) (Z.of_nat (snd p)) v) Z0 = Ok Z1
    /\ nrows64 Z1 = nrows64 Z0 /\ ncols64 Z1 = ncols64 Z0
    /\ (forall i j, In (i, j) l -> item64 Z1 i j = g i j)
    /\ (forall i j, ~ In (i, j) l -> item64 Z1 i j = item64 Z0 i j).
Proof.
  revert Z0. induction l as [|p l IH]; intros Z0 H.
  - exists Z0. simpl. repeat split; auto. intros i j [].
  - destruct (H p (or_introl eq_refl)) as (Hi & Hj & Hc).
    simpl. rewrite Hc. simpl. rewrite setitem64_nat by assumption. simpl.
    destruct (IH (updated64 Z0 (fst p) (snd p) (g (fst p) (snd p)))) as
      (Z1 & Hrun & Hr & Hcn & Hin & Hout).
    { intros q Hq. simpl. apply H. now right. }
    exists Z1. rewrite Hrun. simpl in Hr, Hcn. repeat split; auto.
    + intros i j [Hp | Hl]; [|now apply Hin].
      destruct (in_dec (fun a b : point =>
                  ltac:(decide equality; apply Nat.eq_dec)) (i, j) l) as [Hl|Hl].
      * now apply Hin.
      * rewrite Hout by assumption. rewrite item64_updated.
        subst p. simpl. now rewrite !Nat.eqb_refl.
    + intros i j Hn. rewrite Hout by tauto. rewrite item64_updated.
      destruct ((i =? fst p) && (j =? snd p))%nat eqn:E; [|reflexivity].
      apply point_test in E. exfalso. apply Hn. left.
      destruct p; simpl in *. congruence.
Qed.

(** A resampling loop whose cell computation never raises inside the
    output extent returns an array of that extent holding the computed
    cells. *)
Lemma resample_loop64 (cell : nat -> nat -> result f64) (M_out N_out : Z) :
  (0 <= M_out)%Z -> (0 <= N_out)%Z ->
  (forall i j, (Z.of_nat i < M_out)%Z -> (Z.of_nat j < N_out)%Z ->
               exists v, cell i j = Ok v) ->
  exists Z_out,
    (Z0 <- np_empty64 M_out N_out ;;
     for_range2 (Z.to_nat M_out) (Z.to_nat N_out)
       (fun i_out j_out Z_out =>
          v <- cell i_out j_out ;;
          setitem64 Z_out (Z.of_nat i_out) (Z.of_nat j_out) v) Z0) = Ok Z_out
    /\ Z.of_nat (nrows64 Z_out) = M_out
    /\ Z.of_nat (ncols64 Z_out) = N_out
    /\ forall i j, i < nrows64 Z_out -> j < ncols64 Z_out ->
                   cell i j = Ok (item64 Z_out i j).
Proof.
  intros HM HN Hcell. unfold np_empty64.
  destruct (Z.ltb_spec M_out 0); [lia|].
  destruct (Z.ltb_spec N_out 0); [lia|]. simpl.
  rewrite for_range2_flat.
  destruct (fill_loop64 cell (fun i j => value_of64 (cell i j))
              (positions (Z.to_nat M_out) (Z.to_nat N_out))
              (np_full64 (Z.to_nat M_out) (Z.to_nat N_out) (F_fin 0)))
    as (Z1 & Hrun & Hr & Hc & Hin & _).
  { intros p Hp. apply in_positions in Hp as [Hi Hj]. simpl.
    repeat split; try assumption.
    destruct (Hcell (fst p) (snd p)) as [v ->]; [lia | lia | reflexivity]. }
  exists Z1. simpl in Hr, Hc. rewrite Hrun, Hr, Hc.
  repeat split; try lia.
  intros i j Hi Hj. rewrite Hin.
  - destruct (Hcell i j) as [v ->]; [lia | lia | reflexivity].
  - apply in_positions. simpl. lia.
Qed.

(** With a factor that is not positive the output extents are not
    positive: the allocation raises, or the output has no cell. *)
Lemma resample_nonpositive64 (cell : nat -> nat -> result f64)
  (M_out N_out : Z) :
  (M_out <= 0)%Z -> (N_out <= 0)%Z ->
  let r := (Z0 <- np_empty64 M_out N_out ;;
            for_range2 (Z.to_nat M_out) (Z.to_nat N_out)
              (fun i_out j_out Z_out =>
                 v <- cell i_out j_out ;;
                 setitem64 Z_out (Z.of_nat i_out) (Z.of_nat j_out) v) Z0) in
  r = Raise ValueError \/ r = Ok (np_full64 0 0 (F_fin 0)).
Proof.
  intros HM HN. unfold np_empty64.
  destruct (Z.ltb_spec M_out 0); [now left|].
  destruct (Z.ltb_spec N_out 0); [now left|].
  right. assert (M_out = 0%Z) as -> by lia. assert (N_out = 0%Z) as -> by lia.
  reflexivity.
Qed.

(** ** The resamplers in binary64 *)

(** Inside the output extent the source position is a finite float in
    [[0, M)]. *)
Lemma source_position64 (M : nat) (v : Q) (R : Z) (i_out : nat) :
  (0 < v)%Q -> addressable (Z.of_nat M) -> addressable R ->
  out_extent64 M (F_fin v) = Ok R -> (Z.of_nat i_out < R)%Z ->
  exists x, int_div_float (Z.of_nat i_out) (F_fin v) = Ok (F_fin x)
            /\ (0 <= x)%Q /\ (x < inject_Z (Z.of_nat M))%Q.
Proof.
  unfold addressable. intros Hv HM HR E Hi.
  destruct (out_extent64_pos M v R Hv ltac:(lia) E) as [[-> ->]|(HM0 & Hfin & ER)]; [lia|].
  assert (HMq : (0 < inject_Z (Z.of_nat M))%Q).
  { change 0%Q with (inject_Z 0). rewrite <- Zlt_Qlt. lia. }
  unfold int_div_float.
  destruct (float_of_int_exact (Z.of_nat i_out)) as (x & Ex & Hx); [lia|].
  rewrite Ex. cbn [bind].
  destruct (Qeq_bool v 0) eqn:B.
  { apply Qeq_bool_eq in B. exfalso. qlra. }
  destruct (Nat.eq_dec i_out 0) as [->|Hi0].
  - exists 0%Q. split; [|split; [qlra | assumption]].
    rewrite fl_zero; [reflexivity|]. rewrite Hx. change (inject_Z (Z.of_nat 0)) with 0%Q.
    field. qlra.
  - assert (Hp : (0 < inject_Z (Z.of_nat i_out))%Q).
    { change 0%Q with (inject_Z 0). rewrite <- Zlt_Qlt. lia. }
    assert (Exv : (x / v == inject_Z (Z.of_nat i_out) / v)%Q) by (now rewrite Hx).
    assert (Hz : (0 < inject_Z (Z.of_nat i_out) / v)%Q)
      by (apply Qlt_shift_div_l; qlra).
    assert (Hb : (round_pos (inject_Z (Z.of_nat i_out) / v) < inject_Z (Z.of_nat M))%Q).
    { apply position_below; try assumption; try lia.
      apply Qle_trans with (inject_Z R).
      - rewrite <- Zle_Qle. lia.
      - rewrite ER. apply Qfloor_le. }
    rewrite (fl_comp _ _ Exv), fl_pos; try assumption.
    + eexists. split; [reflexivity|]. rewrite Qred_correct. split; [|assumption].
      now apply round_pos_nonneg.
    + eapply Qlt_trans; [exact Hb|]. apply pow2_1024_large. lia.
Qed.

Lemma extent_pos_source64 (M : nat) (v : Q) (R : Z) (i_out : nat) :
  (0 < v)%Q -> addressable (Z.of_nat M) ->
  out_extent64 M (F_fin v) = Ok R -> (Z.of_nat i_out < R)%Z -> 0 < M.
Proof.
  unfold addressable. intros Hv HM E Hi.
  destruct (out_extent64_pos M v R Hv ltac:(lia) E) as [[-> ->]|(HM0 & _)]; [lia | assumption].
Qed.

(** The extent of a positive factor is not negative. *)
Lemma out_extent64_nonneg (M : nat) (v : Q) (R : Z) :
  (0 < v)%Q -> addressable (Z.of_nat M) ->
  out_extent64 M (F_fin v) = Ok R -> (0 <= R)%Z.
Proof.
  unfold addressable. intros Hv HM E.
  destruct (out_extent64_pos M v R Hv ltac:(lia) E) as [[-> ->]|(HM0 & Hfin & ->)]; [lia|].
  change 0%Z with (Qfloor 0). apply Qfloor_resp_le, round_pos_nonneg.
  apply Qmult_lt_0_compat; [|assumption].
  change 0%Q with (inject_Z 0). rewrite <- Zlt_Qlt. lia.
Qed.

Lemma corner_index64_in_source (M : nat) (v : Q) (R : Z) (i_out : nat) :
  (0 < v)%Q -> addressable (Z.of_nat M) -> addressable R ->
  out_extent64 M (F_fin v) = Ok R -> (Z.of_nat i_out < R)%Z ->
  exists x i0 i1 a,
    int_div_float (Z.of_nat i_out) (F_fin v) = Ok x
    /\ floor_float x = Ok i0
    /\ float_sub_int x i0 = Ok a
    /\ corner_index64 M (F_fin v) i_out = Ok (i0, i1, a)
    /\ (0 <= i0 <= Z.of_nat M - 1)%Z
    /\ (0 <= i1 <= Z.of_nat M - 1)%Z
    /\ i1 = Z.min (i0 + 1) (Z.of_nat M - 1).
Proof.
  intros Hv HM HR E Hi.
  destruct (source_position64 M v R i_out Hv HM HR E Hi) as (x & Ex & H0 & H1).
  pose proof (floor_in_source M x H0 H1) as Hfl.
  destruct (float_of_int_exact (Qfloor x)) as (y & Ey & _).
  { unfold addressable in HM. lia. }
  exists (F_fin x), (Qfloor x), (Z.min (Qfloor x + 1) (Z.of_nat M - 1)), (sub64 (F_fin x) (F_fin y)).
  unfold corner_index64, float_sub_int. rewrite Ex. cbn [bind floor_float].
  rewrite Ey. cbn [bind].
  repeat split; try reflexivity; lia.
Qed.

Lemma thiessen_cell64_ok (Z_in : ndarray64) (v : Q) (R C : Z) (i_out j_out : nat) :
  (0 < v)%Q ->
  addressable (Z.of_nat (nrows64 Z_in)) -> addressable (Z.of_nat (ncols64 Z_in)) ->
  addressable R -> addressable C ->
  out_extent64 (nrows64 Z_in) (F_fin v) = Ok R ->
  out_extent64 (ncols64 Z_in) (F_fin v) = Ok C ->
  (Z.of_nat i_out < R)%Z -> (Z.of_nat j_out < C)%Z ->
  exists i_nn j_nn,
    nn_index64 (nrows64 Z_in) (F_fin v) i_out = Ok i_nn
    /\ nn_index64 (ncols64 Z_in) (F_fin v) j_out = Ok j_nn
    /\ (0 <= i_nn <= Z.of_nat (nrows64 Z_in) - 1)%Z
    /\ (0 <= j_nn <= Z.of_nat (ncols64 Z_in) - 1)%Z
    /\ thiessen_cell64 Z_in (F_fin v) i_out j_out
       = Ok (item64 Z_in (Z.to_nat i_nn) (Z.to_nat j_nn)).
Proof.
  intros Hv HM HN HR HC ER EC Hi Hj.
  pose proof (extent_pos_source64 _ v R i_out Hv HM ER Hi) as HM0.
  pose proof (extent_pos_source64 _ v C j_out Hv HN EC Hj) as HN0.
  destruct (source_position64 _ v R i_out Hv HM HR ER Hi) as (x & Ex & _).
  destruct (source_position64 _ v C j_out Hv HN HC EC Hj) as (y & Ey & _).
  unfold nn_index64, thiessen_cell64. rewrite Ex, Ey. cbn [bind round_float].
  do 2 eexists. split; [reflexivity|]. split; [reflexivity|].
  split; [lia|]. split; [lia|].
  apply getitem64_in_range; lia.
Qed.

(** The blend never raises, and a missing corner makes it missing
    whatever the weights. *)
Lemma float_of_int_one : float_of_int 1 = Ok 1%Q.
Proof. reflexivity. Qed.

Lemma mul64_nan_r (a : f64) : mul64 a F_nan = F_nan.
Proof. destruct a; reflexivity. Qed.

Lemma add64_nan_r (a : f64) : add64 a F_nan = F_nan.
Proof. destruct a; reflexivity. Qed.

Lemma add64_nan_l (a : f64) : add64 F_nan a = F_nan.
Proof. reflexivity. Qed.

Lemma blend64_ok (a b s00 s10 s01 s11 : f64) :
  exists r, blend64 a b s00 s10 s01 s11 = Ok r
            /\ (s00 = F_nan \/ s10 = F_nan \/ s01 = F_nan \/ s11 = F_nan -> r = F_nan).
Proof.
  unfold blend64, int_sub_float. rewrite float_of_int_one. cbn [bind].
  eexists. split; [reflexivity|].
  intros [-> | [-> | [-> | ->]]];
    rewrite ?mul64_nan_r, ?add64_nan_r, ?add64_nan_l; reflexivity.
Qed.

Lemma bilinear_cell64_ok (Z_in : ndarray64) (v : Q) (R C : Z) (i_out j_out : nat) :
  (0 < v)%Q ->
  addressable (Z.of_nat (nrows64 Z_in)) -> addressable (Z.of_nat (ncols64 Z_in)) ->
  addressable R -> addressable C ->
  out_extent64 (nrows64 Z_in) (F_fin v) = Ok R ->
  out_extent64 (ncols64 Z_in) (F_fin v) = Ok C ->
  (Z.of_nat i_out < R)%Z -> (Z.of_nat j_out < C)%Z ->
  exists i0 i1 a j0 j1 b,
    corner_index64 (nrows64 Z_in) (F_fin v) i_out = Ok (i0, i1, a)
    /\ corner_index64 (ncols64 Z_in) (F_fin v) j_out = Ok (j0, j1, b)
    /\ (0 <= i0 <= Z.of_nat (nrows64 Z_in) - 1)%Z
    /\ (0 <= i1 <= Z.of_nat (nrows64 Z_in) - 1)%Z
    /\ (0 <= j0 <= Z.of_nat (ncols64 Z_in) - 1)%Z
    /\ (0 <= j1 <= Z.of_nat (ncols64 Z_in) - 1)%Z
    /\ bilinear_cell64 Z_in (F_fin v) i_out j_out
       = blend64 a b
           (item64 Z_in (Z.to_nat i0) (Z.to_nat j0))
           (item64 Z_in (Z.to_nat i1) (Z.to_nat j0))
           (item64 Z_in (Z.to_nat i0) (Z.to_nat j1))
           (item64 Z_in (Z.to_nat i1) (Z.to_nat j1)).
Proof.
  intros Hv HM HN HR HC ER EC Hi Hj.
  destruct (corner_index64_in_source _ _ _ _ Hv HM HR ER Hi)
    as (x & i0 & i1 & a & Ex & Ei0 & Ea & Ei & Bi0 & Bi1 & Di1).
  destruct (corner_index64_in_source _ _ _ _ Hv HN HC EC Hj)
    as (y & j0 & j1 & b & Ey & Ej0 & Eb & Ej & Bj0 & Bj1 & Dj1).
  exists i0, i1, a, j0, j1, b. repeat split; try assumption; try lia.
  unfold bilinear_cell64. rewrite Ex, Ey. cbn [bind]. rewrite Ei0, Ej0. cbn [bind].
  rewrite Ea, Eb. cbn [bind]. rewrite <- Di1, <- Dj1.
  rewrite !getitem64_in_range by lia. reflexivity.
Qed.

Lemma thiessen64_spec (Z_in : ndarray64) (v : Q) (R C : Z) :
  (0 < v)%Q ->
  addressable (Z.of_nat (nrows64 Z_in)) -> addressable (Z.of_nat (ncols64 Z_in)) ->
  addressable R -> addressable C ->
  out_extent64 (nrows64 Z_in) (F_fin v) = Ok R ->
  out_extent64 (ncols64 Z_in) (F_fin v) = Ok C ->
  exists Z_out,
    thiessen_interpolation64 Z_in (F_fin v) = Ok Z_out
    /\ Z.of_nat (nrows64 Z_out) = R
    /\ Z.of_nat (ncols64 Z_out) = C
    /\ forall i j, i < nrows64 Z_out -> j < ncols64 Z_out ->
                   thiessen_cell64 Z_in (F_fin v) i j = Ok (item64 Z_out i j).
Proof.
  intros Hv HM HN HR HC ER EC. unfold thiessen_interpolation64.
  rewrite ER, EC. cbn [bind].
  apply resample_loop64.
  - exact (out_extent64_nonneg _ v R Hv HM ER).
  - exact (out_extent64_nonneg _ v C Hv HN EC).
  - intros i j Hi Hj.
    destruct (thiessen_cell64_ok Z_in v R C i j Hv HM HN HR HC ER EC Hi Hj)
      as (i_nn & j_nn & _ & _ & _ & _ & ->).
    eexists. reflexivity.
Qed.

Lemma bilinear64_spec (Z_in : ndarray64) (v : Q) (R C : Z) :
  (0 < v)%Q ->
  addressable (Z.of_nat (nrows64 Z_in)) -> addressable (Z.of_nat (ncols64 Z_in)) ->
  addressable R -> addressable C ->
  out_extent64 (nrows64 Z_in) (F_fin v) = Ok R ->
  out_extent64 (ncols64 Z_in) (F_fin v) = Ok C ->
  exists Z_out,
    bilinear_interpolation64 Z_in (F_fin v) = Ok Z_out
    /\ Z.of_nat (nrows64 Z_out) = R
    /\ Z.of_nat (ncols64 Z_out) = C
    /\ forall i j, i < nrows64 Z_out -> j < ncols64 Z_out ->
                   bilinear_cell64 Z_in (F_fin v) i j = Ok (item64 Z_out i j).
Proof.
  intros Hv HM HN HR HC ER EC. unfold bilinear_interpolation64.
  rewrite ER, EC. cbn [bind].
  apply resample_loop64.
  - exact (out_extent64_nonneg _ v R Hv HM ER).
  - exact (out_extent64_nonneg _ v C Hv HN EC).
  - intros i j Hi Hj.
    destruct (bilinear_cell64_ok Z_in v R C i j Hv HM HN HR HC ER EC Hi Hj)
      as (i0 & i1 & a & j0 & j1 & b & _ & _ & _ & _ & _ & _ & ->).
    destruct (blend64_ok a b
                (item64 Z_in (Z.to_nat i0) (Z.to_nat j0))
                (item64 Z_in (Z.to_nat i1) (Z.to_nat j0))
                (item64 Z_in (Z.to_nat i0) (Z.to_nat j1))
                (item64 Z_in (Z.to_nat i1) (Z.to_nat j1))) as (r & -> & _).
    eexists. reflexivity.
Qed.

(** The extents of a positive factor are computed without an exception
    when the exact products are within the addressable range. *)
Lemma out_extent64_total (M : nat) (v : Q) :
  (0 < v)%Q -> addressable (Z.of_nat M) ->
  (inject_Z (Z.of_nat M) * v <= inject_Z (2 ^ 51))%Q ->
  exists R, out_extent64 M (F_fin v) = Ok R /\ (0 <= R)%Z /\ addressable R.
Proof.
  unfold addressable. intros Hv HM HP.
  unfold out_extent64, int_mul_float.
  destruct (float_of_int_exact (Z.of_nat M)) as (x & Ex & Hx); [lia|].
  rewrite Ex. cbn [bind mul64].
  destruct (Nat.eq_dec M 0) as [->|HM0].
  - exists 0%Z. rewrite fl_zero by (rewrite Hx; reflexivity).
    repeat split; try reflexivity; lia.
  - assert (Hp : (0 < inject_Z (Z.of_nat M))%Q).
    { change 0%Q with (inject_Z 0). rewrite <- Zlt_Qlt. lia. }
    assert (Exv : (x * v == inject_Z (Z.of_nat M) * v)%Q) by (now rewrite Hx).
    assert (Hpos : (0 < inject_Z (Z.of_nat M) * v)%Q)
      by (apply Qmult_lt_0_compat; assumption).
    assert (Hr : (round_pos (inject_Z (Z.of_nat M) * v) <= inject_Z (2 ^ 51))%Q).
    { rewrite <- (round_pos_int (2 ^ 51)) by lia. now apply round_pos_mono. }
    rewrite (fl_comp _ _ Exv), fl_pos; try assumption.
    + cbn [int_of_float]. eexists. split; [reflexivity|].
      pose proof (round_pos_nonneg _ Hpos) as H0.
      rewrite py_int_nonneg by (now rewrite Qred_correct).
      rewrite (Qfloor_comp _ _ (Qred_correct _)). split.
      * change 0%Z with (Qfloor 0). now apply Qfloor_resp_le.
      * rewrite <- (Qfloor_Z (2 ^ 51)). now apply Qfloor_resp_le.
    + eapply Qle_lt_trans; [exact Hr|]. apply pow2_1024_large. lia.
Qed.

(** The extent against the exact product: its floor or one more, and the
    product itself when that is a whole number. *)
Lemma out_extent64_floor (M : nat) (v : Q) (R : Z) :
  (0 < v)%Q -> addressable (Z.of_nat M) -> addressable R ->
  out_extent64 M (F_fin v) = Ok R ->
  (Qfloor (inject_Z (Z.of_nat M) * v) <= R
   <= Qfloor (inject_Z (Z.of_nat M) * v) + 1)%Z
  /\ forall n, (inject_Z (Z.of_nat M) * v == inject_Z n)%Q -> R = n.
Proof.
  unfold addressable. intros Hv HM HR E.
  destruct (out_extent64_pos M v R Hv ltac:(lia) E) as [[-> ->]|(HM0 & Hfin & ER)].
  - split.
    + rewrite (Qfloor_comp _ 0%Q) by (simpl; ring). change (Qfloor 0) with 0%Z. lia.
    + intros n Hn. assert (H : (inject_Z n == inject_Z 0)%Q).
      { rewrite <- Hn. simpl. ring. }
      apply (proj1 (inject_Z_injective _ _)) in H. now subst n.
  - assert (Hpos : (0 < inject_Z (Z.of_nat M) * v)%Q).
    { apply Qmult_lt_0_compat; [|assumption].
      change 0%Q with (inject_Z 0). rewrite <- Zlt_Qlt. lia. }
    assert (Hfl := rounded_floor _ Hpos). rewrite <- ER in Hfl.
    specialize (Hfl ltac:(lia)). split; [exact Hfl|].
    intros n Hn. rewrite ER. apply rounded_whole; [|assumption].
    rewrite (Qfloor_comp _ _ Hn), Qfloor_Z in Hfl.
    assert (0 < n)%Z.
    { rewrite Zlt_Qlt. rewrite <- Hn. exact Hpos. }
    lia.
Qed.

(** C2, as stated, fails: the extent is the truncation of the rounded
    product, not the floor of the product.  The float written 0.6 is
    5404319552844595 / 2^53, a little less than 6/10; five times it is
    less than 3 and has floor 2, the binary64 product is 3.0 and both
    resamplers return three rows and columns.  With the float written
    1e308 the product with 3 is an infinity and both resamplers raise
    OverflowError. *)
Lemma extent_is_not_the_floor :
  let f := (5404319552844595 # 9007199254740992)%Q in
  fl (3 # 5) = F_fin f
  /\ (0 < f)%Q
  /\ Qfloor (inject_Z 5 * f) = 2%Z
  /\ (exists Z_out, thiessen_interpolation64 grid5_64 (F_fin f) = Ok Z_out
                    /\ shape64 Z_out = (3, 3))
  /\ (exists Z_out, bilinear_interpolation64 grid5_64 (F_fin f) = Ok Z_out
                    /\ shape64 Z_out = (3, 3))
  /\ (exists g, fl (inject_Z (10 ^ 308)) = F_fin g /\ (0 < g)%Q
                /\ thiessen_interpolation64 grid3_64 (F_fin g) = Raise OverflowError
                /\ bilinear_interpolation64 grid3_64 (F_fin g) = Raise OverflowError).
Proof.
  intros f.
  assert (E5 : out_extent64 5 (F_fin f) = Ok 3%Z) by (vm_compute; reflexivity).
  split; [vm_compute; reflexivity|]. split; [reflexivity|].
  split; [vm_compute; reflexivity|]. split; [|split].
  - destruct (thiessen64_spec grid5_64 f 3 3) as (Z_out & E & Hr & Hc & _);
      try exact E5; try reflexivity; try (unfold addressable; simpl; lia).
    exists Z_out. split; [exact E|]. unfold shape64. f_equal; lia.
  - destruct (bilinear64_spec grid5_64 f 3 3) as (Z_out & E & Hr & Hc & _);
      try exact E5; try reflexivity; try (unfold addressable; simpl; lia).
    exists Z_out. split; [exact E|]. unfold shape64. f_equal; lia.
  - eexists. split; [vm_compute; reflexivity|]. split; [reflexivity|].
    split; vm_compute; reflexivity.
Qed.

(** For a positive finite factor the extent is computed, or the product
    is infinite and [int] raises [OverflowError]. *)
Lemma out_extent64_outcome (M : nat) (v : Q) :
  (0 < v)%Q ->
  out_extent64 M (F_fin v) = Raise OverflowError
  \/ exists R, out_extent64 M (F_fin v) = Ok R.
Proof.
  intros Hv. unfold out_extent64, int_mul_float.
  destruct (float_of_int (Z.of_nat M)) as [a|e] eqn:Ea.
  - cbn [bind mul64]. unfold fl.
    destruct (a * v ?= 0)%Q; try destruct (Qle_bool _ _); cbn; eauto.
  - left. unfold float_of_int in Ea.
    destruct (fl (inject_Z (Z.of_nat M))); inversion Ea; reflexivity.
Qed.

Lemma out_extent64_overflow (M : nat) (factor : f64) :
  int_mul_float (Z.of_nat M) factor = Ok (F_inf false) ->
  out_extent64 M factor = Raise OverflowError.
Proof. intros E. unfold out_extent64. now rewrite E. Qed.

(** C2, amended. For a grid of shape (M, N) and a finite float factor
    f > 0 with M, N, M*f and N*f at most 2^51, both resamplers return a
    grid of shape (R, C), where R = int(M * f) and C = int(N * f) are
    computed in binary64.  R is floor(M*f) or floor(M*f) + 1, and is M*f
    when that is a whole number; the same holds of C.  When the binary64
    product M * f or N * f is infinite, both resamplers raise
    OverflowError. *)
Theorem resamplers_shape (Z_in : ndarray64) (v : Q) :
  (0 < v)%Q ->
  (addressable (Z.of_nat (nrows64 Z_in)) ->
   addressable (Z.of_nat (ncols64 Z_in)) ->
   (inject_Z (Z.of_nat (nrows64 Z_in)) * v <= inject_Z (2 ^ 51))%Q ->
   (inject_Z (Z.of_nat (ncols64 Z_in)) * v <= inject_Z (2 ^ 51))%Q ->
   exists R C,
     out_extent64 (nrows64 Z_in) (F_fin v) = Ok R
     /\ out_extent64 (ncols64 Z_in) (F_fin v) = Ok C
     /\ (exists Z_out,
           thiessen_interpolation64 Z_in (F_fin v) = Ok Z_out
           /\ Z.of_nat (nrows64 Z_out) = R /\ Z.of_nat (ncols64 Z_out) = C)
     /\ (exists Z_out,
           bilinear_interpolation64 Z_in (F_fin v) = Ok Z_out
           /\ Z.of_nat (nrows64 Z_out) = R /\ Z.of_nat (ncols64 Z_out) = C)
     /\ (Qfloor (inject_Z (Z.of_nat (nrows64 Z_in)) * v) <= R
         <= Qfloor (inject_Z (Z.of_nat (nrows64 Z_in)) * v) + 1)%Z
     /\ (Qfloor (inject_Z (Z.of_nat (ncols64 Z_in)) * v) <= C
         <= Qfloor (inject_Z (Z.of_nat (ncols64 Z_in)) * v) + 1)%Z
     /\ (forall n, (inject_Z (Z.of_nat (nrows64 Z_in)) * v == inject_Z n)%Q -> R = n)
     /\ (forall n, (inject_Z (Z.of_nat (ncols64 Z_in)) * v == inject_Z n)%Q -> C = n))
  /\
  (int_mul_float (Z.of_nat (nrows64 Z_in)) (F_fin v) = Ok (F_inf false)
   \/ int_mul_float (Z.of_nat (ncols64 Z_in)) (F_fin v) = Ok (F_inf false) ->
   thiessen_interpolation64 Z_in (F_fin v) = Raise OverflowError
   /\ bilinear_interpolation64 Z_in (F_fin v) = Raise OverflowError).
Proof.
  intros Hv. split.
  - intros HM HN HPM HPN.
    destruct (out_extent64_total _ v Hv HM HPM) as (R & ER & _ & HR).
    destruct (out_extent64_total _ v Hv HN HPN) as (C & EC & _ & HC).
    destruct (out_extent64_floor _ v R Hv HM HR ER) as [FR WR].
    destruct (out_extent64_floor _ v C Hv HN HC EC) as [FC WC].
    exists R, C. split; [exact ER|]. split; [exact EC|].
    split; [|split; [|split; [|split; [|split]]]]; try assumption.
    + destruct (thiessen64_spec Z_in v R C Hv HM HN HR HC ER EC)
        as (Z_out & E & Hr & Hc & _).
      exists Z_out. auto.
    + destruct (bilinear64_spec Z_in v R C Hv HM HN HR HC ER EC)
        as (Z_out & E & Hr & Hc & _).
      exists Z_out. auto.
  - intros H. unfold thiessen_interpolation64, bilinear_interpolation64.
    destruct (out_extent64_outcome (nrows64 Z_in) v Hv) as [EM | (R & EM)];
      rewrite EM; cbn [bind]; [now split|].
    destruct H as [H | H].
    + apply out_extent64_overflow in H. congruence.
    + apply out_extent64_overflow in H. rewrite H. now split.
Qed.

Lemma resamplers_shape_witness :
  (exists R C,
     out_extent64 3 (F_fin (5 # 2)) = Ok R
     /\ out_extent64 3 (F_fin (5 # 2)) = Ok C
     /\ (exists Z_out,
           thiessen_interpolation64 grid3_64 (F_fin (5 # 2)) = Ok Z_out
           /\ Z.of_nat (nrows64 Z_out) = R /\ Z.of_nat (ncols64 Z_out) = C)
     /\ (exists Z_out,
           bilinear_interpolation64 grid3_64 (F_fin (5 # 2)) = Ok Z_out
           /\ Z.of_nat (nrows64 Z_out) = R /\ Z.of_nat (ncols64 Z_out) = C)
     /\ (7 <= R <= 7 + 1)%Z
     /\ (7 <= C <= 7 + 1)%Z
     /\ (forall n, (inject_Z 3 * (5 # 2) == inject_Z n)%Q -> R = n)
     /\ (forall n, (inject_Z 3 * (5 # 2) == inject_Z n)%Q -> C = n))
  /\ thiessen_interpolation64 grid3_64 (F_fin (pow2 1023)) = Raise OverflowError.
Proof.
  split.
  - apply (proj1 (resamplers_shape grid3_64 (5 # 2) eq_refl));
      try reflexivity; try (unfold addressable; simpl; lia); discriminate.
  - apply (proj2 (resamplers_shape grid3_64 (pow2 1023) eq_refl)).
    left. vm_compute. reflexivity.
Defined.

Lemma norm_index_empty (i : Z) : norm_index 0 i = Raise IndexError.
Proof.
  unfold norm_index. change (Z.of_nat 0) with 0%Z. change (- 0)%Z with 0%Z.
  destruct (Z.leb_spec 0 i), (Z.ltb_spec i 0); simpl; try reflexivity; lia.
Qed.

(** Whatever the factor and the extents, a cell that thiessen reads is
    inside the source grid: the rounded indices are clamped. *)
Lemma thiessen_cell64_clamped (Z_in : ndarray64) (factor : f64)
  (i_out j_out : nat) (v : f64) :
  thiessen_cell64 Z_in factor i_out j_out = Ok v ->
  exists i_nn j_nn,
    (0 <= i_nn <= Z.of_nat (nrows64 Z_in) - 1)%Z
    /\ (0 <= j_nn <= Z.of_nat (ncols64 Z_in) - 1)%Z
    /\ getitem64 Z_in i_nn j_nn = Ok v.
Proof.
  unfold thiessen_cell64.
  destruct (int_div_float (Z.of_nat i_out) factor) as [x|]; [|discriminate].
  destruct (int_div_float (Z.of_nat j_out) factor) as [y|]; [|discriminate].
  cbn [bind].
  destruct (round_float x) as [r|]; [|discriminate].
  destruct (round_float y) as [c|]; [|discriminate].
  cbn [bind]. intros E.
  exists (Z.min (Z.max r 0) (Z.of_nat (nrows64 Z_in) - 1)),
         (Z.min (Z.max c 0) (Z.of_nat (ncols64 Z_in) - 1)).
  split; [|split; [|exact E]].
  - destruct (nrows64 Z_in) as [|M] eqn:EM; [|lia].
    exfalso. unfold getitem64 in E. rewrite EM, norm_index_empty in E.
    discriminate.
  - destruct (ncols64 Z_in) as [|N] eqn:EN; [|lia].
    exfalso. unfold getitem64 in E. rewrite EN, (norm_index_empty (Z.min _ _)) in E.
    destruct (norm_index _ _); discriminate.
Qed.

(** C7. For a finite float factor f > 0 and extents within the
    addressable range, every output cell of both resamplers is computed
    from source indices inside [0, M-1] x [0, N-1]: the clamped rounded
    indices for thiessen, the four corners for bilinear.  The output
    index ranges over the extent R = int(M * f) that the code computes.
    The 3x3 grid 1..9 upscaled by 2 gives a 6x6 grid whose cell (5,5) is
    the source cell (2,2), that is 9.  For thiessen the clamp does not
    depend on the factor or the extents: a cell that it reads is always
    inside the source grid. *)
Theorem resamplers_stay_in_bounds (Z_in : ndarray64) (v : Q) (R C : Z)
  (i_out j_out : nat) :
  (0 < v)%Q ->
  addressable (Z.of_nat (nrows64 Z_in)) -> addressable (Z.of_nat (ncols64 Z_in)) ->
  addressable R -> addressable C ->
  out_extent64 (nrows64 Z_in) (F_fin v) = Ok R ->
  out_extent64 (ncols64 Z_in) (F_fin v) = Ok C ->
  (Z.of_nat i_out < R)%Z -> (Z.of_nat j_out < C)%Z ->
  (exists Z_out i_nn j_nn,
     thiessen_interpolation64 Z_in (F_fin v) = Ok Z_out
     /\ nn_index64 (nrows64 Z_in) (F_fin v) i_out = Ok i_nn
     /\ nn_index64 (ncols64 Z_in) (F_fin v) j_out = Ok j_nn
     /\ (0 <= i_nn <= Z.of_nat (nrows64 Z_in) - 1)%Z
     /\ (0 <= j_nn <= Z.of_nat (ncols64 Z_in) - 1)%Z
     /\ getitem64 Z_in i_nn j_nn = Ok (item64 Z_out i_out j_out))
  /\
  (exists Z_out i0 i1 a j0 j1 b,
     bilinear_interpolation64 Z_in (F_fin v) = Ok Z_out
     /\ corner_index64 (nrows64 Z_in) (F_fin v) i_out = Ok (i0, i1, a)
     /\ corner_index64 (ncols64 Z_in) (F_fin v) j_out = Ok (j0, j1, b)
     /\ (0 <= i0 <= Z.of_nat (nrows64 Z_in) - 1)%Z
     /\ (0 <= i1 <= Z.of_nat (nrows64 Z_in) - 1)%Z
     /\ (0 <= j0 <= Z.of_nat (ncols64 Z_in) - 1)%Z
     /\ (0 <= j1 <= Z.of_nat (ncols64 Z_in) - 1)%Z
     /\ blend64 a b
          (item64 Z_in (Z.to_nat i0) (Z.to_nat j0))
          (item64 Z_in (Z.to_nat i1) (Z.to_nat j0))
          (item64 Z_in (Z.to_nat i0) (Z.to_nat j1))
          (item64 Z_in (Z.to_nat i1) (Z.to_nat j1))
        = Ok (item64 Z_out i_out j_out))
  /\
  (exists Z_out,
     thiessen_interpolation64 grid3_64 (whole 2) = Ok Z_out
     /\ shape64 Z_out = (6, 6)
     /\ item64 Z_out 5 5 = item64 grid3_64 2 2
     /\ item64 grid3_64 2 2 = whole 9)
  /\
  (forall Z_in' factor i j s,
     thiessen_cell64 Z_in' factor i j = Ok s ->
     exists i_nn j_nn,
       (0 <= i_nn <= Z.of_nat (nrows64 Z_in') - 1)%Z
       /\ (0 <= j_nn <= Z.of_nat (ncols64 Z_in') - 1)%Z
       /\ getitem64 Z_in' i_nn j_nn = Ok s).
Proof.
  intros Hv HM HN HR HC ER EC Hi Hj.
  split; [|split; [|split; [|exact thiessen_cell64_clamped]]].
  - destruct (thiessen64_spec Z_in v R C Hv HM HN HR HC ER EC)
      as (Z_out & E & Hr & Hc & Hcell).
    destruct (thiessen_cell64_ok Z_in v R C i_out j_out Hv HM HN HR HC ER EC Hi Hj)
      as (i_nn & j_nn & Ei & Ej & Bi & Bj & Ecell).
    exists Z_out, i_nn, j_nn. repeat split; try assumption; try lia.
    rewrite getitem64_in_range by lia.
    rewrite <- Ecell. apply Hcell; lia.
  - destruct (bilinear64_spec Z_in v R C Hv HM HN HR HC ER EC)
      as (Z_out & E & Hr & Hc & Hcell).
    destruct (bilinear_cell64_ok Z_in v R C i_out j_out Hv HM HN HR HC ER EC Hi Hj)
      as (i0 & i1 & a & j0 & j1 & b & Ei & Ej & Bi0 & Bi1 & Bj0 & Bj1 & Ecell).
    exists Z_out, i0, i1, a, j0, j1, b. repeat split; try assumption; try lia.
    rewrite <- Ecell. apply Hcell; lia.
  - assert (E6 : out_extent64 3 (whole 2) = Ok 6%Z) by (vm_compute; reflexivity).
    destruct (thiessen64_spec grid3_64 2 6 6) as (Z_out & E & Hr & Hc & Hcell);
      try exact E6; try reflexivity; try (unfold addressable; simpl; lia).
    exists Z_out.
    assert (nrows64 Z_out = 6) by lia. assert (ncols64 Z_out = 6) by lia.
    repeat split; try assumption.
    + unfold shape64. congruence.
    + assert (H1 : thiessen_cell64 grid3_64 (whole 2) 5 5 = Ok (item64 Z_out 5 5))
        by (apply Hcell; lia).
      assert (H2 : thiessen_cell64 grid3_64 (whole 2) 5 5 = Ok (item64 grid3_64 2 2))
        by (vm_compute; reflexivity).
      rewrite H1 in H2. now inversion H2.
Qed.

Lemma resamplers_stay_in_bounds_witness :
  (exists Z_out i_nn j_nn,
     thiessen_interpolation64 grid5_64 (F_fin (5404319552844595 # 9007199254740992))
     = Ok Z_out
     /\ nn_index64 5 (F_fin (5404319552844595 # 9007199254740992)) 2 = Ok i_nn
     /\ nn_index64 5 (F_fin (5404319552844595 # 9007199254740992)) 2 = Ok j_nn
     /\ (0 <= i_nn <= 4)%Z
     /\ (0 <= j_nn <= 4)%Z
     /\ getitem64 grid5_64 i_nn j_nn = Ok (item64 Z_out 2 2)).
Proof.
  apply (resamplers_stay_in_bounds grid5_64
           (5404319552844595 # 9007199254740992) 3 3 2 2);
    try reflexivity; try (unfold addressable; simpl; lia);
    vm_compute; reflexivity.
Defined.

(** C8. In bilinear_interpolation, when one of the four corner cells
    selected for an output cell is missing, the output cell is missing,
    also when the weight of that corner is zero: on [[1, 2], [3, NaN]]
    with factor 1 the output cell (0,0) has offsets 0 and 0, so the
    missing corner (1,1) has weight 0 * 0 = 0, and the cell is missing. *)
Theorem bilinear_propagates_missing (Z_in : ndarray64) (v : Q) (R C : Z)
  (i_out j_out : nat) (i0 i1 j0 j1 : Z) (a b : f64) :
  (0 < v)%Q ->
  addressable (Z.of_nat (nrows64 Z_in)) -> addressable (Z.of_nat (ncols64 Z_in)) ->
  addressable R -> addressable C ->
  out_extent64 (nrows64 Z_in) (F_fin v) = Ok R ->
  out_extent64 (ncols64 Z_in) (F_fin v) = Ok C ->
  (Z.of_nat i_out < R)%Z -> (Z.of_nat j_out < C)%Z ->
  corner_index64 (nrows64 Z_in) (F_fin v) i_out = Ok (i0, i1, a) ->
  corner_index64 (ncols64 Z_in) (F_fin v) j_out = Ok (j0, j1, b) ->
  getitem64 Z_in i0 j0 = Ok F_nan \/ getitem64 Z_in i1 j0 = Ok F_nan
  \/ getitem64 Z_in i0 j1 = Ok F_nan \/ getitem64 Z_in i1 j1 = Ok F_nan ->
  (exists Z_out,
     bilinear_interpolation64 Z_in (F_fin v) = Ok Z_out
     /\ item64 Z_out i_out j_out = F_nan)
  /\
  (exists Z_out,
     bilinear_interpolation64 grid_hole64 (whole 1) = Ok Z_out
     /\ corner_index64 (nrows64 grid_hole64) (whole 1) 0 = Ok (0%Z, 1%Z, F_fin 0)
     /\ corner_index64 (ncols64 grid_hole64) (whole 1) 0 = Ok (0%Z, 1%Z, F_fin 0)
     /\ mul64 (F_fin 0) (F_fin 0) = F_fin 0
     /\ item64 Z_out 0 0 = F_nan).
Proof.
  intros Hv HM HN HR HC ER EC Hi Hj Ei Ej Hnan.
  assert (Hgen : forall Z_in v R C i_out j_out i0 i1 j0 j1 a b,
    (0 < v)%Q ->
    addressable (Z.of_nat (nrows64 Z_in)) -> addressable (Z.of_nat (ncols64 Z_in)) ->
    addressable R -> addressable C ->
    out_extent64 (nrows64 Z_in) (F_fin v) = Ok R ->
    out_extent64 (ncols64 Z_in) (F_fin v) = Ok C ->
    (Z.of_nat i_out < R)%Z -> (Z.of_nat j_out < C)%Z ->
    corner_index64 (nrows64 Z_in) (F_fin v) i_out = Ok (i0, i1, a) ->
    corner_index64 (ncols64 Z_in) (F_fin v) j_out = Ok (j0, j1, b) ->
    getitem64 Z_in i0 j0 = Ok F_nan \/ getitem64 Z_in i1 j0 = Ok F_nan
    \/ getitem64 Z_in i0 j1 = Ok F_nan \/ getitem64 Z_in i1 j1 = Ok F_nan ->
    exists Z_out, bilinear_interpolation64 Z_in (F_fin v) = Ok Z_out
                  /\ item64 Z_out i_out j_out = F_nan).
  { clear. intros Z_in v R C i_out j_out i0 i1 j0 j1 a b
             Hv HM HN HR HC ER EC Hi Hj Ei Ej Hnan.
    destruct (bilinear64_spec Z_in v R C Hv HM HN HR HC ER EC)
      as (Z_out & E & Hr & Hc & Hcell).
    exists Z_out. split; [assumption|].
    destruct (bilinear_cell64_ok Z_in v R C i_out j_out Hv HM HN HR HC ER EC Hi Hj)
      as (i0' & i1' & a' & j0' & j1' & b' & Ei' & Ej' & Bi0 & Bi1 & Bj0 & Bj1 & Ecell).
    rewrite Ei in Ei'. rewrite Ej in Ej'.
    inversion Ei'; inversion Ej'; subst i0' i1' a' j0' j1' b'.
    rewrite !getitem64_in_range in Hnan by lia.
    rewrite Hcell in Ecell by lia.
    destruct (blend64_ok a b
                (item64 Z_in (Z.to_nat i0) (Z.to_nat j0))
                (item64 Z_in (Z.to_nat i1) (Z.to_nat j0))
                (item64 Z_in (Z.to_nat i0) (Z.to_nat j1))
                (item64 Z_in (Z.to_nat i1) (Z.to_nat j1))) as (r & Er & Hr').
    rewrite Er in Ecell. injection Ecell as ->. apply Hr'.
    destruct Hnan as [H | [H | [H | H]]]; injection H as ->; auto. }
  split.
  - now apply (Hgen Z_in v R C i_out j_out i0 i1 j0 j1 a b).
  - destruct (Hgen grid_hole64 1%Q 2%Z 2%Z 0 0 0%Z 1%Z 0%Z 1%Z (F_fin 0) (F_fin 0))
      as (Z_out & E & Hv0);
      try reflexivity; try (unfold addressable; simpl; lia).
    + right. right. right. reflexivity.
    + exists Z_out. repeat split; assumption.
Qed.

Lemma bilinear_propagates_missing_witness :
  exists Z_out,
    bilinear_interpolation64 grid_hole64 (whole 1) = Ok Z_out
    /\ item64 Z_out 1 0 = F_nan.
Proof.
  apply (bilinear_propagates_missing grid_hole64 1 2 2 1 0 1%Z 1%Z 0%Z 1%Z
           (F_fin 0) (F_fin 0));
    try reflexivity; try (unfold addressable; simpl; lia).
  right. right. right. reflexivity.
Defined.

Lemma float_of_int_nonneg (n : Z) :
  (0 <= n)%Z ->
  float_of_int n = Raise OverflowError
  \/ exists x, float_of_int n = Ok x /\ (0 <= x)%Q.
Proof.
  intros Hn. unfold float_of_int.
  destruct (Z.eq_dec n 0) as [->|Hne].
  - right. exists 0%Q. split; [reflexivity | discriminate].
  - assert (Hp : (0 < inject_Z n)%Q).
    { change 0%Q with (inject_Z 0). rewrite <- Zlt_Qlt. lia. }
    destruct (fl_pos_cases _ Hp) as [[-> _]|[-> _]]; [now left|].
    right. eexists. split; [reflexivity|].
    rewrite Qred_correct. now apply round_pos_nonneg.
Qed.

(** With a factor that is not positive the extent is not positive, when
    it is computed at all. *)
Lemma out_extent64_nonpos (M : nat) (factor : f64) :
  not_positive factor ->
  out_extent64 M factor = Raise OverflowError
  \/ out_extent64 M factor = Raise ValueError
  \/ exists R, out_extent64 M factor = Ok R /\ (R <= 0)%Z.
Proof.
  intros Hf. unfold out_extent64, int_mul_float.
  destruct (float_of_int_nonneg (Z.of_nat M)) as [->|(x & -> & Hx)]; [lia | now left|].
  cbn [bind]. destruct factor as [|s|v]; cbn [not_positive] in Hf.
  - contradiction.
  - subst s. cbn [mul64]. destruct (x ?= 0)%Q; cbn; auto.
  - cbn [mul64].
    assert (Hxv : (x * v <= 0)%Q).
    { qnra. }
    destruct (fl_nonpos _ Hxv) as [->|(r & -> & Hr)]; [now left|].
    right. right. cbn [int_of_float]. eexists. split; [reflexivity|].
    now apply py_int_nonpos.
Qed.

Lemma out_extent64_zero (M : nat) :
  addressable (Z.of_nat M) -> out_extent64 M (F_fin 0) = Ok 0%Z.
Proof.
  unfold addressable. intros HM. unfold out_extent64, int_mul_float.
  destruct (float_of_int_exact (Z.of_nat M)) as (x & -> & _); [lia|].
  cbn [bind mul64]. rewrite fl_zero by ring. reflexivity.
Qed.

(** ** Parameters that are not positive *)

(** C4, as stated, fails: no call validates its parameters.  A zero
    factor, and a negative factor whose truncated extents are zero, give
    an empty grid; a non-positive k or power is accepted on a grid
    without a missing cell; a negative power is used as it is to weight
    the neighbours of a missing cell. *)
Lemma invalid_parameters_accepted :
  thiessen_interpolation grid3 0 = Ok (np_full 0 0 (Fin 0))
  /\ bilinear_interpolation grid3 0 = Ok (np_full 0 0 (Fin 0))
  /\ thiessen_interpolation grid3 (- (1 # 10)) = Ok (np_full 0 0 (Fin 0))
  /\ idw_interpolation grid_complete 0 2 = Ok grid_complete
  /\ idw_interpolation grid_complete 4 (-1) = Ok grid_complete
  /\ exists Z_out, idw_interpolation grid1 3 (-2) = Ok Z_out.
Proof.
  repeat split; try reflexivity.
  destruct (idw_fills_every_gap grid1 3 (-2)) as (Z_out & E & _).
  - simpl. lia.
  - now exists Z_out.
Qed.

(** C4, amended. A resampler called with a factor that is zero,
    negative or the negative infinity raises [OverflowError] (the
    product with an extent is infinite) or [ValueError] (a negative
    extent reaches the allocation, or the product is NaN), in both cases
    before any cell is computed, or it returns the grid with no cell: no
    partly filled output exists.  With factor 0 it returns the empty
    grid.  The gap filler does not reject a non-positive k or power: on
    a grid with a cell and no missing cell it returns the input for
    every k and power. *)
Theorem no_parameter_validation (Z_in : ndarray64) (factor : f64)
  (Z_c : ndarray) (k : Z) (power : R) :
  (not_positive factor ->
   (thiessen_interpolation64 Z_in factor = Raise OverflowError
    \/ thiessen_interpolation64 Z_in factor = Raise ValueError
    \/ thiessen_interpolation64 Z_in factor = Ok grid_empty64)
   /\ (bilinear_interpolation64 Z_in factor = Raise OverflowError
       \/ bilinear_interpolation64 Z_in factor = Raise ValueError
       \/ bilinear_interpolation64 Z_in factor = Ok grid_empty64))
  /\ (addressable (Z.of_nat (nrows64 Z_in)) ->
      addressable (Z.of_nat (ncols64 Z_in)) ->
      thiessen_interpolation64 Z_in (F_fin 0) = Ok grid_empty64
      /\ bilinear_interpolation64 Z_in (F_fin 0) = Ok grid_empty64)
  /\ (0 < nrows Z_c * ncols Z_c ->
      (forall i j, i < nrows Z_c -> j < ncols Z_c ->
                   isnan (item Z_c i j) = false) ->
      idw_interpolation Z_c k power = Ok Z_c).
Proof.
  split; [|split].
  - intros Hf.
    destruct (out_extent64_nonpos (nrows64 Z_in) factor Hf)
      as [EM | [EM | (R & EM & HR)]];
      unfold thiessen_interpolation64, bilinear_interpolation64; rewrite EM;
      cbn [bind]; auto.
    destruct (out_extent64_nonpos (ncols64 Z_in) factor Hf)
      as [EN | [EN | (C & EN & HC)]]; rewrite EN; cbn [bind]; auto.
    split.
    + destruct (resample_nonpositive64 (thiessen_cell64 Z_in factor) R C HR HC)
        as [H | H]; rewrite H; auto.
    + destruct (resample_nonpositive64 (bilinear_cell64 Z_in factor) R C HR HC)
        as [H | H]; rewrite H; auto.
  - intros HM HN. unfold thiessen_interpolation64, bilinear_interpolation64.
    rewrite !out_extent64_zero by assumption. split; reflexivity.
  - apply idw_complete_grid.
Qed.

Lemma no_parameter_validation_witness :
  (thiessen_interpolation64 grid3_64 (F_fin (- (1 # 1))) = Raise OverflowError
   \/ thiessen_interpolation64 grid3_64 (F_fin (- (1 # 1))) = Raise ValueError
   \/ thiessen_interpolation64 grid3_64 (F_fin (- (1 # 1))) = Ok grid_empty64)
  /\ thiessen_interpolation64 grid3_64 (F_fin 0) = Ok grid_empty64
  /\ idw_interpolation grid_complete (-3) 0 = Ok grid_complete.
Proof.
  pose proof (no_parameter_validation grid3_64 (F_fin (- (1 # 1)))
                grid_complete (-3) 0) as H.
  split; [|split].
  - apply (proj1 H). discriminate.
  - apply (proj1 (proj2 H)); unfold addressable; simpl; lia.
  - apply (proj2 (proj2 H)).
    + simpl. lia.
    + intros i j Hi Hj. simpl in Hi, Hj.
      destruct i as [|[|i]]; destruct j as [|[|j]]; try lia; reflexivity.
Defined.

(** C10. Each estimate is computed from the known cells of the input
    alone: the cells filled earlier in the loop do not enter later
    estimates.  Every missing cell of a returned grid holds the estimate
    computed from the input's known positions and values, k and power;
    and visiting the cells in any other order gives the same outcome. *)
Theorem idw_estimates_from_input (Z_in : ndarray) (k : Z) (power : R)
  (order : list point) :
  Permutation order (positions (nrows Z_in) (ncols Z_in)) ->
  result_equiv (idw_interpolation_in_order order Z_in k power)
               (idw_interpolation Z_in k power)
  /\ forall Z_out,
       idw_interpolation Z_in k power = Ok Z_out ->
       forall i j, i < nrows Z_in -> j < ncols Z_in ->
         isnan (item Z_in i j) = true ->
         idw_estimate (mkTree (known_cells Z_in)) (known_cells Z_in)
           (known_values Z_in (known_cells Z_in)) k power (i, j)
         = Ok (item Z_out i j).
Proof.
  intros Hperm. split.
  - apply result_equiv_trans with (idw_closed_form Z_in k power).
    + apply idw_in_order_closed. intros p. split; intros Hp.
      * eapply Permutation_in; [exact Hperm | exact Hp].
      * eapply Permutation_in; [apply Permutation_sym; exact Hperm | exact Hp].
    + apply result_equiv_sym. apply idw_interpolation_closed.
  - intros Z_out E i j Hi Hj Hnan.
    destruct (idw_returned_cells Z_in k power Z_out E) as [_ Hc].
    now apply Hc.
Qed.

Lemma idw_estimates_from_input_witness :
  result_equiv
    (idw_interpolation_in_order (rev (positions 2 2)) grid1 3 2)
    (idw_interpolation grid1 3 2)
  /\ exists Z_out,
       idw_interpolation grid1 3 2 = Ok Z_out
       /\ idw_estimate (mkTree (known_cells grid1)) (known_cells grid1)
            (known_values grid1 (known_cells grid1)) 3 2 (0, 1)
          = Ok (item Z_out 0 1).
Proof.
  pose proof (idw_estimates_from_input grid1 3 2 (rev (positions 2 2))
                (Permutation_sym (Permutation_rev (positions 2 2)))) as [H1 H2].
  split; [exact H1|].
  eexists. split; [reflexivity|].
  apply H2; [reflexivity | simpl; lia | simpl; lia | reflexivity].
Defined.

(** ** Grid assembly *)

Lemma Qc_eqb_eq (a b : Qc) : Qc_eqb a b = true <-> a = b.
Proof.
  unfold Qc_eqb. rewrite Qeq_bool_iff. split.
  - apply Qc_is_canon.
  - intros ->. reflexivity.
Qed.

Lemma Qc_eqb_refl (a : Qc) : Qc_eqb a a = true.
Proof. now apply Qc_eqb_eq. Qed.

Lemma Qc_eqb_neq (a b : Qc) : Qc_eqb a b = false <-> a <> b.
Proof.
  rewrite <- Qc_eqb_eq. destruct (Qc_eqb a b); split; congruence.
Qed.

Lemma unique_In (x : Qc) (l : list Qc) : In x (unique l) <-> In x l.
Proof.
  induction l as [|a l IH]; simpl; [tauto|].
  rewrite filter_In, IH, negb_true_iff, Qc_eqb_neq.
  destruct (Qc_eq_dec a x); intuition.
Qed.

Lemma unique_NoDup (l : list Qc) : NoDup (unique l).
Proof.
  induction l as [|a l IH]; simpl; constructor.
  - rewrite filter_In, negb_true_iff, Qc_eqb_neq. intuition.
  - now apply NoDup_filter.
Qed.

Lemma insert_sorted_In (a x : Qc) (l : list Qc) :
  In x (insert_sorted a l) <-> x = a \/ In x l.
Proof.
  induction l as [|b l IH]; simpl.
  - intuition.
  - destruct (Qc_leb a b); simpl; rewrite ?IH; intuition.
Qed.

Lemma np_sort_In (x : Qc) (l : list Qc) : In x (np_sort l) <-> In x l.
Proof.
  induction l as [|a l IH]; simpl; [tauto|].
  rewrite insert_sorted_In, IH. intuition.
Qed.

Lemma Qc_leb_true (a b : Qc) : Qc_leb a b = true -> (a <= b)%Qc.
Proof.
  unfold Qc_leb. intros H. apply Qcle_alt.
  destruct (a ?= b)%Qc; congruence.
Qed.

Lemma Qc_leb_false (a b : Qc) : Qc_leb a b = false -> (b < a)%Qc.
Proof.
  unfold Qc_leb. intros H. apply Qcgt_alt.
  destruct (a ?= b)%Qc; congruence.
Qed.

Lemma insert_sorted_sorted (a : Qc) (l : list Qc) :
  StronglySorted Qclt l -> ~ In a l -> StronglySorted Qclt (insert_sorted a l).
Proof.
  induction 1 as [|b l Hs IH Hall]; intros Hn; simpl.
  - constructor; constructor.
  - destruct (Qc_leb a b) eqn:E.
    + apply Qc_leb_true in E.
      assert (Hab : (a < b)%Qc).
      { destruct (Qcle_lt_or_eq _ _ E) as [H | H]; [exact H|].
        exfalso. apply Hn. now left. }
      constructor; [now constructor|].
      constructor; [exact Hab|].
      eapply Forall_impl; [|exact Hall].
      intros c Hc. eapply Qclt_trans; eassumption.
    + apply Qc_leb_false in E.
      constructor.
      * apply IH. intros H. apply Hn. now right.
      * apply Forall_forall. intros x Hx.
        apply insert_sorted_In in Hx as [-> | Hx]; [exact E|].
        rewrite Forall_forall in Hall. now apply Hall.
Qed.

Lemma np_sort_sorted (l : list Qc) :
  NoDup l -> StronglySorted Qclt (np_sort l).
Proof.
  induction 1 as [|a l Hn Hd IH]; simpl; [constructor|].
  apply insert_sorted_sorted; [exact IH|]. now rewrite np_sort_In.
Qed.

Lemma sorted_NoDup (l : list Qc) : StronglySorted Qclt l -> NoDup l.
Proof.
  induction 1 as [|a l Hs IH Hall]; constructor; [|exact IH].
  intros Hin. rewrite Forall_forall in Hall.
  apply (Qclt_not_eq a a); [now apply Hall | reflexivity].
Qed.

(** The axis built from a column of coordinates: its distinct values in
    strictly ascending order. *)
Lemma axis_spec (l : list Qc) :
  StronglySorted Qclt (np_sort (unique l))
  /\ forall x, In x (np_sort (unique l)) <-> In x l.
Proof.
  split.
  - apply np_sort_sorted, unique_NoDup.
  - intros x. now rewrite np_sort_In, unique_In.
Qed.

Lemma index_absent (x : Qc) (l : list Qc) (s : nat) (d : dict) :
  ~ In x l ->
  dict_get (fold_left index_step (combine (seq s (length l)) l) d) x
  = dict_get d x.
Proof.
  revert s d. induction l as [|a l IH]; intros s d Hn; simpl; [reflexivity|].
  rewrite IH by (intros H; apply Hn; now right).
  simpl. destruct (Qc_eqb a x) eqn:E; [|reflexivity].
  apply Qc_eqb_eq in E. exfalso. apply Hn. now left.
Qed.

Lemma index_present (x : Qc) (l : list Qc) (s j : nat) (d : dict) :
  NoDup l -> nth_error l j = Some x ->
  dict_get (fold_left index_step (combine (seq s (length l)) l) d) x
  = Ok (s + j).
Proof.
  revert s j d. induction l as [|a l IH]; intros s j d Hd Hj.
  - destruct j; discriminate.
  - inversion Hd as [|? ? Ha Hd']; subst. destruct j as [|j]; simpl in Hj |- *.
    + injection Hj as ->. rewrite index_absent by assumption.
      simpl. rewrite Qc_eqb_refl. f_equal. lia.
    + rewrite (IH (S s) j) by assumption. f_equal. lia.
Qed.

(** The dictionary built from an axis maps each axis value to its
    position. *)
Lemma index_of_get (xs : list Qc) (x : Qc) :
  NoDup xs -> In x xs ->
  exists j, dict_get (index_of xs) x = Ok j
            /\ j < length xs /\ nth j xs 0%Qc = x.
Proof.
  intros Hd Hin. apply In_nth_error in Hin as [j Hj].
  exists j. split; [|split].
  - unfold index_of. change (fun (d : dict) (jx : nat * Qc) =>
                               dict_set d (snd jx) (fst jx)) with index_step.
    now rewrite (index_present x xs 0 j).
  - apply nth_error_Some. congruence.
  - now apply nth_error_nth.
Qed.

Lemma find_snoc {A : Type} (f : A -> bool) (l : list A) (a : A) :
  find f (l ++ [a])
  = match find f l with
    | Some x => Some x
    | None => if f a then Some a else None
    end.
Proof.
  induction l as [|b l IH]; simpl; [reflexivity|].
  destruct (f b); [reflexivity | exact IH].
Qed.

Section Assembly.

Variables xs ys : list Qc.
Hypothesis xs_distinct : NoDup xs.
Hypothesis ys_distinct : NoDup ys.

Let write (row : sample) (Z1 : ndarray) : result ndarray :=
  i <- dict_get (index_of ys) (sy row) ;;
  j <- dict_get (index_of xs) (sx row) ;;
  setitem Z1 (Z.of_nat i) (Z.of_nat j) (sz row).

Lemma assembly_loop (rows : list sample) (Z0 : ndarray) :
  nrows Z0 = length ys -> ncols Z0 = length xs ->
  (forall s, In s rows -> In (sx s) xs /\ In (sy s) ys) ->
  exists Z1,
    for_each rows write Z0 = Ok Z1
    /\ nrows Z1 = length ys /\ ncols Z1 = length xs
    /\ forall i j, i < length ys -> j < length xs ->
         item Z1 i j
         = latest_value rows (nth j xs 0%Qc) (nth i ys 0%Qc) (item Z0 i j).
Proof.
  revert Z0. induction rows as [|s rows IH]; intros Z0 Hr Hc Hin.
  - exists Z0. simpl. repeat split; auto.
  - destruct (Hin s (or_introl eq_refl)) as [Hx Hy].
    destruct (index_of_get xs (sx s) xs_distinct Hx) as (j_s & Ej & Bj & Nj).
    destruct (index_of_get ys (sy s) ys_distinct Hy) as (i_s & Ei & Bi & Ni).
    simpl. unfold write at 1. rewrite Ei, Ej. cbn [bind].
    rewrite setitem_nat by congruence. cbn [bind].
    destruct (IH (updated Z0 i_s j_s (sz s))) as (Z1 & Erun & Hr1 & Hc1 & Hcell);
      auto.
    { intros s' Hs'. apply Hin. now right. }
    exists Z1. repeat split; auto.
    intros i j Hi Hj. rewrite Hcell by assumption.
    unfold latest_value. simpl rev. rewrite find_snoc.
    destruct (find _ (rev rows)); [reflexivity|].
    rewrite item_updated. unfold at_position.
    destruct ((i =? i_s) && (j =? j_s))%nat eqn:T.
    + apply point_test in T. injection T as -> ->.
      now rewrite Nj, Ni, !Qc_eqb_refl.
    + destruct (Qc_eqb (sx s) (nth j xs 0%Qc) && Qc_eqb (sy s) (nth i ys 0%Qc)) eqn:U;
        [|reflexivity].
      apply andb_true_iff in U as [Ux Uy].
      apply Qc_eqb_eq in Ux, Uy. exfalso.
      assert (j = j_s).
      { apply (proj1 (NoDup_nth xs 0%Qc) xs_distinct); auto. congruence. }
      assert (i = i_s).
      { apply (proj1 (NoDup_nth ys 0%Qc) ys_distinct); auto. congruence. }
      subst. rewrite !Nat.eqb_refl in T. discriminate.
Qed.

End Assembly.

Lemma find_absent {A : Type} (f : A -> bool) (l : list A) :
  (forall x, In x l -> f x = false) -> find f l = None.
Proof.
  induction l as [|a l IH]; intros H; simpl; [reflexivity|].
  rewrite (H a) by now left. apply IH. intros x Hx. apply H. now right.
Qed.

Lemma find_first {A : Type} (f : A -> bool) (l1 l2 : list A) (a : A) :
  (forall x, In x l1 -> f x = false) -> f a = true ->
  find f (l1 ++ a :: l2) = Some a.
Proof.
  induction l1 as [|b l1 IH]; intros H Ha; simpl.
  - now rewrite Ha.
  - rewrite (H b) by now left. apply IH; [|exact Ha].
    intros x Hx. apply H. now right.
Qed.

Lemma at_position_false (x y : Qc) (s : sample) :
  ~ (sx s = x /\ sy s = y) -> at_position x y s = false.
Proof.
  intros H. unfold at_position.
  destruct (Qc_eqb (sx s) x) eqn:Ex; [|reflexivity].
  destruct (Qc_eqb (sy s) y) eqn:Ey; [|reflexivity].
  apply Qc_eqb_eq in Ex, Ey. tauto.
Qed.

(** Last write wins. *)
Lemma latest_value_last (before after : list sample) (s : sample) (x y : Qc)
  (other : npfloat) :
  sx s = x -> sy s = y ->
  (forall s', In s' after -> ~ (sx s' = x /\ sy s' = y)) ->
  latest_value (before ++ s :: after) x y other = sz s.
Proof.
  intros Hx Hy Hafter. unfold latest_value.
  rewrite rev_app_distr. simpl rev. rewrite <- app_assoc. simpl app.
  rewrite find_first; [reflexivity| |].
  - intros s' Hs'. apply at_position_false, Hafter. now apply in_rev.
  - unfold at_position. now rewrite Hx, Hy, !Qc_eqb_refl.
Qed.

Lemma latest_value_none (rows : list sample) (x y : Qc) (other : npfloat) :
  (forall s, In s rows -> ~ (sx s = x /\ sy s = y)) ->
  latest_value rows x y other = other.
Proof.
  intros H. unfold latest_value. rewrite find_absent; [reflexivity|].
  intros s Hs. apply at_position_false, H. now apply in_rev.
Qed.

(** C9. For every finite collection of samples, grid assembly returns
    axes xs and ys that hold exactly the distinct x- and y-values of the
    samples in strictly ascending order, and a grid of shape
    (len ys, len xs) in which the cell at the sorted positions of (x, y)
    holds the value of the last sample at (x, y), and is missing when no
    sample lies there. *)
Theorem grid_assembly (gdf : list sample) :
  exists Z xs ys,
    shapefile_to_grid gdf = Ok (Z, xs, ys)
    /\ StronglySorted Qclt xs
    /\ (forall x, In x xs <-> exists s, In s gdf /\ sx s = x)
    /\ StronglySorted Qclt ys
    /\ (forall y, In y ys <-> exists s, In s gdf /\ sy s = y)
    /\ shape Z = (length ys, length xs)
    /\ forall i j, i < length ys -> j < length xs ->
         (forall before s after,
            gdf = before ++ s :: after ->
            sx s = nth j xs 0%Qc -> sy s = nth i ys 0%Qc ->
            (forall s', In s' after ->
                        ~ (sx s' = nth j xs 0%Qc /\ sy s' = nth i ys 0%Qc)) ->
            item Z i j = sz s)
         /\ ((forall s, In s gdf ->
                        ~ (sx s = nth j xs 0%Qc /\ sy s = nth i ys 0%Qc)) ->
             item Z i j = NaN).
Proof.
  unfold shapefile_to_grid.
  destruct (axis_spec (map sx gdf)) as [Hxs Hxin].
  destruct (axis_spec (map sy gdf)) as [Hys Hyin].
  set (xs := np_sort (unique (map sx gdf))) in *.
  set (ys := np_sort (unique (map sy gdf))) in *.
  destruct (assembly_loop xs ys (sorted_NoDup xs Hxs) (sorted_NoDup ys Hys)
              gdf (np_full (length ys) (length xs) NaN))
    as (Z1 & Erun & Hr & Hc & Hcell); try reflexivity.
  { intros s Hs. split; [apply Hxin | apply Hyin]; now apply in_map. }
  exists Z1, xs, ys. rewrite Erun. cbn [bind].
  split; [reflexivity|]. split; [exact Hxs|]. split.
  { intros x. rewrite Hxin, in_map_iff. split; intros (s & H1 & H2); eauto. }
  split; [exact Hys|]. split.
  { intros y. rewrite Hyin, in_map_iff. split; intros (s & H1 & H2); eauto. }
  split; [unfold shape; congruence|].
  intros i j Hi Hj. rewrite Hcell by assumption. simpl item. split.
  - intros before s after -> Hx Hy Hafter. now apply latest_value_last.
  - apply latest_value_none.
Qed.

Lemma grid_assembly_witness :
  exists Z xs ys,
    shapefile_to_grid gdf_example = Ok (Z, xs, ys)
    /\ xs = [0%Qc; 1%Qc] /\ ys = [0%Qc]
    /\ item Z 0 0 = Fin 5 /\ item Z 0 1 = Fin 2.
Proof.
  destruct (grid_assembly gdf_example)
    as (Z & xs & ys & E & _ & _ & _ & _ & _ & Hcell).
  assert (E0 : exists Z', shapefile_to_grid gdf_example
                          = Ok (Z', [0%Qc; 1%Qc], [0%Qc]))
    by (eexists; reflexivity).
  destruct E0 as [Z' E0]. rewrite E0 in E. injection E as <- <- <-.
  exists Z', [0%Qc; 1%Qc], [0%Qc].
  split; [exact E0|]. split; [reflexivity|]. split; [reflexivity|]. split.
  - apply (proj1 (Hcell 0 0 (Nat.lt_0_1) (Nat.lt_0_2))
             [mkSample 0%Qc 0%Qc (Fin 1); mkSample 1%Qc 0%Qc (Fin 2)]
             (mkSample 0%Qc 0%Qc (Fin 5)) []); try reflexivity.
    intros s' [].
  - apply (proj1 (Hcell 0 1 (Nat.lt_0_1) (Nat.lt_1_2))
             [mkSample 0%Qc 0%Qc (Fin 1)]
             (mkSample 1%Qc 0%Qc (Fin 2))
             [mkSample 0%Qc 0%Qc (Fin 5)]); try reflexivity.
    intros s' [<- | []]. simpl. intros [H _]. discriminate.
Defined.

(** * Further properties *)

(** ** Resampling at aligned positions *)

Lemma py_round_integer (q : Q) (n : Z) : (q == inject_Z n)%Q -> py_round q = n.
Proof.
  intros H. unfold py_round.
  assert (Hf : Qfloor q = n) by (rewrite H; apply Qfloor_Z).
  rewrite Hf.
  assert (Hc : (q - inject_Z n ?= 1 # 2)%Q = Lt).
  { apply Qlt_alt. rewrite H. unfold Qminus. rewrite Qplus_opp_r. reflexivity. }
  now rewrite Hc.
Qed.

Lemma aligned_position (factor : Q) (i_out i : nat) :
  (0 < factor)%Q ->
  (inject_Z (Z.of_nat i_out) == inject_Z (Z.of_nat i) * factor)%Q ->
  (inject_Z (Z.of_nat i_out) / factor == inject_Z (Z.of_nat i))%Q.
Proof.
  intros Hf H. rewrite H. apply Qdiv_mult_l.
  intros E. rewrite E in Hf. discriminate.
Qed.

Lemma nn_index_aligned (M : nat) (factor : Q) (i_out i : nat) :
  (0 < factor)%Q -> i < M ->
  (inject_Z (Z.of_nat i_out) == inject_Z (Z.of_nat i) * factor)%Q ->
  nn_index M factor i_out = Ok (Z.of_nat i).
Proof.
  intros Hf Hi H. unfold nn_index. rewrite truediv_pos by assumption.
  cbn [bind]. rewrite (py_round_integer _ (Z.of_nat i))
    by now apply aligned_position.
  f_equal. lia.
Qed.

Lemma out_extent_integer (M n : nat) :
  out_extent M (inject_Z (Z.of_nat n)) = Z.of_nat (n * M).
Proof.
  unfold out_extent, py_int. simpl. rewrite Z.quot_1_r. lia.
Qed.

Lemma aligned_integer (n i : nat) :
  (inject_Z (Z.of_nat (n * i))
   == inject_Z (Z.of_nat i) * inject_Z (Z.of_nat n))%Q.
Proof.
  rewrite <- inject_Z_mult. rewrite Nat2Z.inj_mul.
  now rewrite Z.mul_comm.
Qed.

Lemma integer_factor_pos (n : nat) : 0 < n -> (0 < inject_Z (Z.of_nat n))%Q.
Proof.
  intros Hn. change 0%Q with (inject_Z 0). rewrite <- Zlt_Qlt. lia.
Qed.

Lemma thiessen_integer_cells (Z_in : ndarray) (n i j : nat) :
  0 < n -> i < nrows Z_in -> j < ncols Z_in ->
  exists Z_out,
    thiessen_interpolation Z_in (inject_Z (Z.of_nat n)) = Ok Z_out
    /\ shape Z_out = (n * nrows Z_in, n * ncols Z_in)
    /\ item Z_out (n * i) (n * j) = item Z_in i j.
Proof.
  intros Hn Hi Hj. pose proof (integer_factor_pos n Hn) as Hf.
  destruct (thiessen_spec Z_in _ Hf) as (Z_out & E & Hr & Hc & Hcell).
  rewrite out_extent_integer in Hr, Hc.
  apply Nat2Z.inj in Hr, Hc.
  exists Z_out. split; [exact E|]. split; [unfold shape; congruence|].
  assert (H : thiessen_cell Z_in (inject_Z (Z.of_nat n)) (n * i) (n * j)
              = Ok (item Z_in i j)).
  { unfold thiessen_cell.
    rewrite (nn_index_aligned _ _ _ i Hf Hi (aligned_integer n i)).
    rewrite (nn_index_aligned _ _ _ j Hf Hj (aligned_integer n j)).
    cbn [bind]. now apply getitem_nat. }
  rewrite Hcell in H by (rewrite ?Hr, ?Hc; nia).
  now injection H.
Qed.

(** X1. Upscaling by a whole factor n >= 1 with thiessen_interpolation
    returns a grid of shape (n*M, n*N) that holds input cell (i, j),
    missing or not, at output cell (n*i, n*j): no input cell is lost. *)
Theorem thiessen_integer_factor (Z_in : ndarray) (n i j : nat) :
  0 < n -> i < nrows Z_in -> j < ncols Z_in ->
  exists Z_out,
    thiessen_interpolation Z_in (inject_Z (Z.of_nat n)) = Ok Z_out
    /\ shape Z_out = (n * nrows Z_in, n * ncols Z_in)
    /\ item Z_out (n * i) (n * j) = item Z_in i j.
Proof. apply thiessen_integer_cells. Qed.

Lemma thiessen_integer_factor_witness :
  exists Z_out,
    thiessen_interpolation grid3 (inject_Z (Z.of_nat 7)) = Ok Z_out
    /\ shape Z_out = (21, 21)
    /\ item Z_out 14 7 = Fin 8.
Proof.
  apply (thiessen_integer_factor grid3 7 2 1); simpl; lia.
Defined.

(** X2. thiessen_interpolation with factor 1 returns a grid equal to its
    input: same shape, same cells. *)
Theorem thiessen_identity (Z_in : ndarray) :
  exists Z_out,
    thiessen_interpolation Z_in 1 = Ok Z_out /\ same_array Z_out Z_in.
Proof.
  destruct (thiessen_spec Z_in 1 eq_refl) as (Z_out & E & Hr & Hc & Hcell).
  change 1%Q with (inject_Z (Z.of_nat 1)) in Hr, Hc.
  rewrite out_extent_integer in Hr, Hc. apply Nat2Z.inj in Hr, Hc.
  rewrite Nat.mul_1_l in Hr, Hc.
  exists Z_out. split; [exact E|]. split; [unfold shape; congruence|].
  intros i j Hi Hj.
  destruct (thiessen_integer_cells Z_in 1 i j) as (Z' & E' & _ & Hv);
    try lia.
  change (inject_Z (Z.of_nat 1)) with 1%Q in E'.
  rewrite E in E'. injection E' as <-.
  now rewrite !Nat.mul_1_l in Hv.
Qed.

(** ** Bilinear resampling in binary64 at aligned positions *)

Lemma whole_pos (n : nat) : 0 < n -> (0 < inject_Z (Z.of_nat n))%Q.
Proof.
  intros Hn. change 0%Q with (inject_Z 0). rewrite <- Zlt_Qlt. lia.
Qed.

(** With a whole factor the extent is the exact product. *)
Lemma out_extent64_whole (M n : nat) :
  0 < n -> addressable (Z.of_nat (n * M)) ->
  out_extent64 M (whole (Z.of_nat n)) = Ok (Z.of_nat (n * M)).
Proof.
  intros Hn HP. pose proof (whole_pos n Hn) as Hv.
  assert (HM : addressable (Z.of_nat M)) by (unfold addressable in *; nia).
  assert (E : (inject_Z (Z.of_nat M) * inject_Z (Z.of_nat n)
               == inject_Z (Z.of_nat (n * M)))%Q).
  { rewrite <- inject_Z_mult. now rewrite Nat2Z.inj_mul, Z.mul_comm. }
  destruct (out_extent64_total M _ Hv HM) as (R & ER & _ & HR).
  { rewrite E. rewrite <- Zle_Qle. exact HP. }
  destruct (out_extent64_floor M _ R Hv HM HR ER) as [_ W].
  unfold whole. rewrite ER. f_equal. now apply W.
Qed.

(** The source position of output index [n * i] is [i], exactly. *)
Lemma int_div_float_whole (n i : nat) :
  0 < n -> addressable (Z.of_nat (n * i)) ->
  exists x, int_div_float (Z.of_nat (n * i)) (whole (Z.of_nat n)) = Ok (F_fin x)
            /\ (x == inject_Z (Z.of_nat i))%Q.
Proof.
  unfold addressable. intros Hn HP. pose proof (whole_pos n Hn) as Hv.
  unfold int_div_float, whole.
  destruct (float_of_int_exact (Z.of_nat (n * i))) as (y & -> & Hy); [lia|].
  cbn [bind].
  destruct (Qeq_bool (inject_Z (Z.of_nat n)) 0) eqn:B.
  { apply Qeq_bool_eq in B. exfalso. qlra. }
  assert (E : (y / inject_Z (Z.of_nat n) == inject_Z (Z.of_nat i))%Q).
  { rewrite Hy, Nat2Z.inj_mul, inject_Z_mult. field. qlra. }
  rewrite (fl_comp _ _ E).
  destruct (Nat.eq_dec i 0) as [->|Hi].
  - exists 0%Q. split; reflexivity.
  - assert (Hp : (0 < inject_Z (Z.of_nat i))%Q) by (apply whole_pos; lia).
    assert (Er : (round_pos (inject_Z (Z.of_nat i)) == inject_Z (Z.of_nat i))%Q)
      by (apply round_pos_int; nia).
    rewrite fl_pos; [|assumption|].
    + eexists. split; [reflexivity|]. now rewrite Qred_correct.
    + rewrite Er. apply pow2_1024_large. nia.
Qed.

Lemma float_sub_int_whole (x : Q) (i : nat) :
  (Z.of_nat i <= 2 ^ 53)%Z -> (x == inject_Z (Z.of_nat i))%Q ->
  float_sub_int (F_fin x) (Z.of_nat i) = Ok (F_fin 0).
Proof.
  intros Hi Hx. unfold float_sub_int.
  destruct (float_of_int_exact (Z.of_nat i)) as (y & -> & Hy); [lia|].
  cbn [bind sub64 neg64 add64]. f_equal. apply fl_zero. rewrite Hx, Hy. ring.
Qed.

(** At offsets 0 and 0 the blend of four finite numbers is the first. *)
Lemma blend64_aligned (s00 s10 s01 s11 : f64) :
  binary64 s00 -> binary64 s10 -> binary64 s01 -> binary64 s11 ->
  blend64 (F_fin 0) (F_fin 0) s00 s10 s01 s11 = Ok s00.
Proof.
  intros H00 H10 H01 H11.
  destruct s00 as [| |x]; try contradiction.
  destruct s10 as [| |y]; try contradiction.
  destruct s01 as [| |z]; try contradiction.
  destruct s11 as [| |w]; try contradiction.
  cbn [binary64] in H00.
  unfold blend64, int_sub_float. rewrite float_of_int_one. cbn [bind].
  change (sub64 (F_fin 1) (F_fin 0)) with (F_fin 1).
  change (mul64 (F_fin 1) (F_fin 1)) with (F_fin 1).
  change (mul64 (F_fin 0) (F_fin 1)) with (F_fin 0).
  change (mul64 (F_fin 1) (F_fin 0)) with (F_fin 0).
  change (mul64 (F_fin 0) (F_fin 0)) with (F_fin 0).
  cbn [mul64 add64].
  rewrite (fl_comp (1 * x) x) by ring. rewrite H00.
  rewrite (fl_zero (0 * y)), (fl_zero (0 * z)), (fl_zero (0 * w)) by ring.
  cbn [add64].
  rewrite (fl_comp (x + 0) x) by ring. rewrite H00. cbn [add64].
  rewrite (fl_comp (x + 0) x) by ring. rewrite H00. cbn [add64].
  rewrite (fl_comp (x + 0) x) by ring. now rewrite H00.
Qed.

Lemma bilinear64_whole_cells (Z_in : ndarray64) (n i j : nat) :
  0 < n ->
  addressable (Z.of_nat (n * nrows64 Z_in)) ->
  addressable (Z.of_nat (n * ncols64 Z_in)) ->
  i < nrows64 Z_in -> j < ncols64 Z_in ->
  let i1 := Nat.min (i + 1) (nrows64 Z_in - 1) in
  let j1 := Nat.min (j + 1) (ncols64 Z_in - 1) in
  binary64 (item64 Z_in i j) -> binary64 (item64 Z_in i1 j) ->
  binary64 (item64 Z_in i j1) -> binary64 (item64 Z_in i1 j1) ->
  exists Z_out,
    bilinear_interpolation64 Z_in (whole (Z.of_nat n)) = Ok Z_out
    /\ shape64 Z_out = (n * nrows64 Z_in, n * ncols64 Z_in)
    /\ item64 Z_out (n * i) (n * j) = item64 Z_in i j.
Proof.
  intros Hn HPM HPN Hi Hj i1 j1 F00 F10 F01 F11.
  pose proof (whole_pos n Hn) as Hv.
  assert (HM : addressable (Z.of_nat (nrows64 Z_in))) by (unfold addressable in *; nia).
  assert (HN : addressable (Z.of_nat (ncols64 Z_in))) by (unfold addressable in *; nia).
  pose proof (out_extent64_whole (nrows64 Z_in) n Hn HPM) as ER.
  pose proof (out_extent64_whole (ncols64 Z_in) n Hn HPN) as EC.
  destruct (bilinear64_spec Z_in _ _ _ Hv HM HN HPM HPN ER EC)
    as (Z_out & E & Hr & Hc & Hcell).
  apply Nat2Z.inj in Hr, Hc.
  exists Z_out. split; [exact E|]. split; [unfold shape64; congruence|].
  assert (H : bilinear_cell64 Z_in (whole (Z.of_nat n)) (n * i) (n * j)
              = Ok (item64 Z_in i j)).
  { unfold bilinear_cell64.
    destruct (int_div_float_whole n i Hn) as (x & -> & Hx);
      [unfold addressable in *; nia|].
    destruct (int_div_float_whole n j Hn) as (y & -> & Hy);
      [unfold addressable in *; nia|].
    cbn [bind floor_float].
    rewrite (Qfloor_comp _ _ Hx), (Qfloor_comp _ _ Hy), !Qfloor_Z.
    rewrite (float_sub_int_whole x i), (float_sub_int_whole y j);
      try assumption; try (unfold addressable in *; nia).
    cbn [bind].
    replace (Z.min (Z.of_nat i + 1) (Z.of_nat (nrows64 Z_in) - 1))
      with (Z.of_nat i1) by (unfold i1; lia).
    replace (Z.min (Z.of_nat j + 1) (Z.of_nat (ncols64 Z_in) - 1))
      with (Z.of_nat j1) by (unfold j1; lia).
    rewrite !getitem64_in_range by (unfold i1, j1; lia). cbn [bind].
    rewrite !Nat2Z.id. now apply blend64_aligned. }
  rewrite Hcell in H by (rewrite ?Hr, ?Hc; nia).
  now injection H.
Qed.

(** X3. Upscaling by a whole factor n >= 1 with bilinear_interpolation,
    computed in binary64, returns a grid of shape (n*M, n*N) whose cell
    (n*i, n*j) is input cell (i, j), provided that cell and its clamped
    lower, right and diagonal neighbours hold finite numbers and the
    output extents are within the addressable range. *)
Theorem bilinear_integer_factor (Z_in : ndarray64) (n i j : nat) :
  0 < n ->
  addressable (Z.of_nat (n * nrows64 Z_in)) ->
  addressable (Z.of_nat (n * ncols64 Z_in)) ->
  i < nrows64 Z_in -> j < ncols64 Z_in ->
  let i1 := Nat.min (i + 1) (nrows64 Z_in - 1) in
  let j1 := Nat.min (j + 1) (ncols64 Z_in - 1) in
  binary64 (item64 Z_in i j) -> binary64 (item64 Z_in i1 j) ->
  binary64 (item64 Z_in i j1) -> binary64 (item64 Z_in i1 j1) ->
  exists Z_out,
    bilinear_interpolation64 Z_in (whole (Z.of_nat n)) = Ok Z_out
    /\ shape64 Z_out = (n * nrows64 Z_in, n * ncols64 Z_in)
    /\ item64 Z_out (n * i) (n * j) = item64 Z_in i j.
Proof. apply bilinear64_whole_cells. Qed.

Lemma bilinear_integer_factor_witness :
  exists Z_out,
    bilinear_interpolation64 grid3_64 (whole (Z.of_nat 7)) = Ok Z_out
    /\ shape64 Z_out = (21, 21)
    /\ item64 Z_out 14 7 = whole 8.
Proof.
  apply (bilinear_integer_factor grid3_64 7 2 1);
    try (unfold addressable; simpl; lia); try (simpl; lia);
    vm_compute; reflexivity.
Defined.

(** X4. bilinear_interpolation with factor 1, computed in binary64, on a
    grid whose cells all hold finite numbers returns a grid equal to its
    input. *)
Theorem bilinear_identity (Z_in : ndarray64) :
  addressable (Z.of_nat (nrows64 Z_in)) ->
  addressable (Z.of_nat (ncols64 Z_in)) ->
  (forall i j, i < nrows64 Z_in -> j < ncols64 Z_in ->
               binary64 (item64 Z_in i j)) ->
  exists Z_out,
    bilinear_interpolation64 Z_in (whole 1) = Ok Z_out
    /\ same_array64 Z_out Z_in.
Proof.
  intros HM HN Hfin. change (whole 1) with (F_fin 1).
  assert (HM1 : addressable (Z.of_nat (1 * nrows64 Z_in)))
    by now rewrite Nat.mul_1_l.
  assert (HN1 : addressable (Z.of_nat (1 * ncols64 Z_in)))
    by now rewrite Nat.mul_1_l.
  pose proof (out_extent64_whole (nrows64 Z_in) 1 ltac:(lia) HM1) as ER.
  pose proof (out_extent64_whole (ncols64 Z_in) 1 ltac:(lia) HN1) as EC.
  change (whole (Z.of_nat 1)) with (F_fin 1) in ER, EC.
  destruct (bilinear64_spec Z_in 1 _ _ eq_refl HM HN HM1 HN1 ER EC)
    as (Z_out & E & Hr & Hc & _).
  apply Nat2Z.inj in Hr, Hc. rewrite Nat.mul_1_l in Hr, Hc.
  exists Z_out. split; [exact E|]. split; [unfold shape64; congruence|].
  intros i j Hi Hj.
  destruct (bilinear64_whole_cells Z_in 1 i j) as (Z' & E' & _ & Hv);
    try assumption; try lia; try (apply Hfin; lia).
  change (whole (Z.of_nat 1)) with (F_fin 1) in E'.
  rewrite E in E'. injection E' as <-.
  now rewrite !Nat.mul_1_l in Hv.
Qed.

Lemma bilinear_identity_witness :
  exists Z_out,
    bilinear_interpolation64 grid3_64 (whole 1) = Ok Z_out
    /\ same_array64 Z_out grid3_64.
Proof.
  apply (bilinear_identity grid3_64); try (unfold addressable; simpl; lia).
  intros i j Hi Hj. simpl in Hi, Hj.
  destruct i as [|[|[|i]]]; destruct j as [|[|[|j]]]; try lia;
    vm_compute; reflexivity.
Defined.

(** ** Grid assembly: order of the samples, full lattices *)

(** The grid and the axes returned by [shapefile_to_grid], cell by cell. *)
Lemma assembled_cells (gdf : list sample) :
  let xs := np_sort (unique (map sx gdf)) in
  let ys := np_sort (unique (map sy gdf)) in
  exists Z,
    shapefile_to_grid gdf = Ok (Z, xs, ys)
    /\ nrows Z = length ys /\ ncols Z = length xs
    /\ forall i j, i < length ys -> j < length xs ->
         item Z i j = latest_value gdf (nth j xs 0%Qc) (nth i ys 0%Qc) NaN.
Proof.
  intros xs ys. unfold shapefile_to_grid. fold xs ys.
  destruct (axis_spec (map sx gdf)) as [Hxs Hxin].
  destruct (axis_spec (map sy gdf)) as [Hys Hyin].
  fold xs in Hxs, Hxin. fold ys in Hys, Hyin.
  destruct (assembly_loop xs ys (sorted_NoDup xs Hxs) (sorted_NoDup ys Hys)
              gdf (np_full (length ys) (length xs) NaN))
    as (Z1 & Erun & Hr & Hc & Hcell); try reflexivity.
  { intros s Hs. split; [apply Hxin | apply Hyin]; now apply in_map. }
  exists Z1. rewrite Erun. cbn [bind]. repeat split; auto.
Qed.

Lemma sorted_same_elements (l1 l2 : list Qc) :
  StronglySorted Qclt l1 -> StronglySorted Qclt l2 ->
  (forall x, In x l1 <-> In x l2) -> l1 = l2.
Proof.
  intros H1. revert l2. induction H1 as [|a l1 Hs1 IH Ha]; intros l2 H2 Hin.
  - destruct l2 as [|b l2]; [reflexivity|].
    exfalso. apply (proj2 (Hin b)). now left.
  - destruct H2 as [|b l2 Hs2 Hb].
    { exfalso. apply (proj1 (Hin a)). now left. }
    rewrite Forall_forall in Ha, Hb.
    assert (Hab : a = b).
    { destruct (proj1 (Hin a) (or_introl eq_refl)) as [E | Ea]; [now symmetry|].
      destruct (proj2 (Hin b) (or_introl eq_refl)) as [E | Eb]; [exact E|].
      exfalso. apply (Qclt_not_le _ _ (Ha b Eb)). apply Qclt_le_weak.
      now apply Hb. }
    subst b. f_equal. apply IH; [exact Hs2|].
    intros x. split; intros Hx.
    + destruct (proj1 (Hin x) (or_intror Hx)) as [E | Hx']; [|exact Hx'].
      subst x. exfalso. apply (Qclt_not_eq a a); [now apply Ha | reflexivity].
    + destruct (proj2 (Hin x) (or_intror Hx)) as [E | Hx']; [|exact Hx'].
      subst x. exfalso. apply (Qclt_not_eq a a); [now apply Hb | reflexivity].
Qed.

Lemma axis_permutation (l l' : list Qc) :
  Permutation l l' -> np_sort (unique l) = np_sort (unique l').
Proof.
  intros Hp. destruct (axis_spec l) as [Hs Hin]. destruct (axis_spec l') as [Hs' Hin'].
  apply sorted_same_elements; try assumption.
  intros x. rewrite Hin, Hin'. split; apply Permutation_in; [|symmetry]; exact Hp.
Qed.

Lemma at_position_true (x y : Qc) (s : sample) :
  at_position x y s = true <-> position s = (x, y).
Proof.
  unfold at_position, position. rewrite andb_true_iff, !Qc_eqb_eq. split.
  - intros [-> ->]. reflexivity.
  - intros H. injection H as -> ->. auto.
Qed.

Lemma distinct_positions (rows : list sample) (s s' : sample) :
  NoDup (map position rows) -> In s rows -> In s' rows ->
  position s = position s' -> s = s'.
Proof.
  induction rows as [|r rows IH]; intros Hd Hs Hs' E; [contradiction|].
  simpl in Hd. inversion Hd as [|? ? Hn Hd']; subst.
  destruct Hs as [-> | Hs], Hs' as [-> | Hs']; auto.
  - exfalso. apply Hn. rewrite E. now apply in_map.
  - exfalso. apply Hn. rewrite <- E. now apply in_map.
Qed.

(** With one sample per position, the value found at a position is the
    value of that sample. *)
Lemma latest_value_only (rows : list sample) (s : sample) (other : npfloat) :
  NoDup (map position rows) -> In s rows ->
  latest_value rows (sx s) (sy s) other = sz s.
Proof.
  intros Hd Hs. unfold latest_value.
  destruct (find (at_position (sx s) (sy s)) (rev rows)) as [s'|] eqn:E.
  - apply find_some in E as [Hin Hat]. apply in_rev in Hin.
    apply at_position_true in Hat.
    now rewrite (distinct_positions rows s' s Hd Hin Hs Hat).
  - exfalso. apply find_none with (x := s) in E; [|now apply (proj1 (in_rev _ _))].
    assert (at_position (sx s) (sy s) s = true) by now apply at_position_true.
    congruence.
Qed.

Lemma latest_value_permutation (rows rows' : list sample) (x y : Qc)
  (other : npfloat) :
  Permutation rows rows' -> NoDup (map position rows) ->
  latest_value rows x y other = latest_value rows' x y other.
Proof.
  intros Hp Hd.
  assert (Hd' : NoDup (map position rows')).
  { eapply Permutation_NoDup; [|exact Hd]. now apply Permutation_map. }
  destruct (find (at_position x y) (rev rows)) as [s|] eqn:E.
  - apply find_some in E as [Hin Hat]. apply in_rev in Hin.
    apply at_position_true in Hat. injection Hat as <- <-.
    rewrite (latest_value_only rows s other Hd Hin).
    symmetry. apply latest_value_only; [exact Hd'|].
    eapply Permutation_in; eassumption.
  - assert (Hnone : forall s, In s rows -> at_position x y s = false).
    { intros s Hs. apply find_none with (x := s) in E; [exact E|].
      now apply (proj1 (in_rev _ _)). }
    unfold latest_value. rewrite E. rewrite find_absent; [reflexivity|].
    intros s Hs. apply Hnone. apply in_rev in Hs.
    eapply Permutation_in; [symmetry; exact Hp | exact Hs].
Qed.

(** X8. When no two samples share a position, the order of the samples
    does not matter: any permutation of the table gives the same axes
    and the same grid. *)
Theorem assembly_order_independent (gdf gdf' : list sample) :
  Permutation gdf gdf' ->
  NoDup (map position gdf) ->
  exists Z Z' xs ys,
    shapefile_to_grid gdf = Ok (Z, xs, ys)
    /\ shapefile_to_grid gdf' = Ok (Z', xs, ys)
    /\ same_array Z Z'.
Proof.
  intros Hp Hd.
  destruct (assembled_cells gdf) as (Z & E & Hr & Hc & Hcell).
  destruct (assembled_cells gdf') as (Z' & E' & Hr' & Hc' & Hcell').
  rewrite <- (axis_permutation (map sx gdf) (map sx gdf')) in *
    by now apply Permutation_map.
  rewrite <- (axis_permutation (map sy gdf) (map sy gdf')) in *
    by now apply Permutation_map.
  exists Z, Z', (np_sort (unique (map sx gdf))), (np_sort (unique (map sy gdf))).
  split; [exact E|]. split; [exact E'|]. split; [unfold shape; congruence|].
  intros i j Hi Hj. rewrite Hcell, Hcell' by congruence.
  now apply latest_value_permutation.
Qed.

Lemma assembly_order_independent_witness :
  exists Z Z' xs ys,
    shapefile_to_grid
      [mkSample 0%Qc 0%Qc (Fin 1); mkSample 1%Qc 0%Qc (Fin 2)] = Ok (Z, xs, ys)
    /\ shapefile_to_grid
         [mkSample 1%Qc 0%Qc (Fin 2); mkSample 0%Qc 0%Qc (Fin 1)] = Ok (Z', xs, ys)
    /\ same_array Z Z'.
Proof.
  apply assembly_order_independent.
  - apply perm_swap.
  - simpl. constructor.
    + intros [H | []]. discriminate.
    + constructor; [intros [] | constructor].
Defined.

(** X9. When the samples cover a full lattice (for any two samples there
    is a sample with the x of the first and the y of the second) and no
    sample value is missing, the assembled grid has no missing cell. *)
Theorem assembly_of_full_lattice (gdf : list sample) :
  (forall s, In s gdf -> isnan (sz s) = false) ->
  (forall s1 s2, In s1 gdf -> In s2 gdf ->
                 exists s, In s gdf /\ sx s = sx s1 /\ sy s = sy s2) ->
  exists Z xs ys,
    shapefile_to_grid gdf = Ok (Z, xs, ys)
    /\ shape Z = (length ys, length xs)
    /\ forall i j, i < nrows Z -> j < ncols Z -> isnan (item Z i j) = false.
Proof.
  intros Hfin Hfull.
  destruct (assembled_cells gdf) as (Z & E & Hr & Hc & Hcell).
  destruct (axis_spec (map sx gdf)) as [_ Hxin].
  destruct (axis_spec (map sy gdf)) as [_ Hyin].
  do 3 eexists. split; [exact E|]. split; [unfold shape; congruence|].
  intros i j Hi Hj. rewrite Hcell by congruence.
  set (x := nth j (np_sort (unique (map sx gdf))) 0%Qc).
  set (y := nth i (np_sort (unique (map sy gdf))) 0%Qc).
  assert (Hx : In x (map sx gdf)) by (apply Hxin, nth_In; congruence).
  assert (Hy : In y (map sy gdf)) by (apply Hyin, nth_In; congruence).
  apply in_map_iff in Hx as (s1 & Ex & Hs1).
  apply in_map_iff in Hy as (s2 & Ey & Hs2).
  destruct (Hfull s1 s2 Hs1 Hs2) as (s & Hs & Esx & Esy).
  unfold latest_value.
  destruct (find (at_position x y) (rev gdf)) as [s'|] eqn:F.
  - apply find_some in F as [Hin _]. apply Hfin. now apply in_rev.
  - exfalso. apply find_none with (x := s) in F; [|now apply (proj1 (in_rev _ _))].
    assert (at_position x y s = true).
    { apply at_position_true. unfold position. congruence. }
    congruence.
Qed.

Lemma assembly_of_full_lattice_witness :
  exists Z xs ys,
    shapefile_to_grid gdf_example = Ok (Z, xs, ys)
    /\ shape Z = (length ys, length xs)
    /\ forall i j, i < nrows Z -> j < ncols Z -> isnan (item Z i j) = false.
Proof.
  apply assembly_of_full_lattice.
  - intros s [<- | [<- | [<- | []]]]; reflexivity.
  - intros s1 s2 H1 H2.
    destruct H1 as [<- | [<- | [<- | []]]];
      [ exists (mkSample 0%Qc 0%Qc (Fin 1))
      | exists (mkSample 1%Qc 0%Qc (Fin 2))
      | exists (mkSample 0%Qc 0%Qc (Fin 1)) ];
      (split; [simpl; tauto|]);
      (split; [reflexivity|]);
      destruct H2 as [<- | [<- | [<- | []]]]; reflexivity.
Defined.

(** ** The drivers *)

Lemma io_bind_ok {A B : Type} (log : list event) (a : A) (f : A -> io B) :
  io_bind (log, Ok a) f = (log ++ fst (f a), snd (f a)).
Proof. unfold io_bind. now destruct (f a). Qed.

Lemma io_for_each_app {A : Type} (l1 l2 : list A) (body : A -> io unit) :
  io_for_each (l1 ++ l2) body
  = (_ <~ io_for_each l1 body ;; io_for_each l2 body).
Proof.
  induction l1 as [|a l1 IH]; simpl.
  - now destruct (io_for_each l2 body).
  - rewrite IH. destruct (body a) as [log [[]|e]]; simpl; [|reflexivity].
    destruct (io_for_each l1 body) as [log1 [[]|e1]]; simpl; [|reflexivity].
    destruct (io_for_each l2 body) as [log2 r2]; simpl.
    now rewrite app_assoc.
Qed.

Section DriverProperties.

Variable listdir : string -> list string.
Variable read_file : string -> list sample.
Variable path_join : list string -> string.
Variable splitext : string -> string * string.
Variable dirname : string -> string.

Lemma full_grid_file_skip (shp_dir : string) (factor : Q) (out_dir fname : string) :
  is_shp fname = false ->
  full_grid_file read_file path_join splitext dirname shp_dir factor out_dir fname
  = ([], Ok tt).
Proof.
  intros H. unfold full_grid_file. unfold is_shp in H. now rewrite H.
Qed.

Lemma full_grid_file_returns (shp_dir : string) (factor : Q) (out_dir fname : string) :
  (0 < factor)%Q ->
  exists events,
    full_grid_file read_file path_join splitext dirname shp_dir factor out_dir fname
    = (events, Ok tt).
Proof.
  intros Hf. destruct (is_shp fname) eqn:H.
  - unfold full_grid_file. unfold is_shp in H. rewrite H. simpl negb. cbv iota.
    destruct (assembled_cells (read_file (path_join [shp_dir; fname])))
      as (Z & E & _).
    destruct (thiessen_spec Z factor Hf) as (Z_th & Eth & _).
    destruct (bilinear_spec Z factor Hf) as (Z_bl & Ebl & _).
    eexists. rewrite E. unfold lift. rewrite io_bind_ok. cbv zeta.
    simpl fst. simpl snd. rewrite Eth, Ebl. reflexivity.
  - exists []. now apply full_grid_file_skip.
Qed.

Lemma full_grid_file_ok (shp_dir : string) (n : nat) (out_dir fname : string) :
  0 < n -> is_shp fname = true ->
  exists events,
    full_grid_file read_file path_join splitext dirname shp_dir
      (inject_Z (Z.of_nat n)) out_dir fname = (events, Ok tt)
    /\ full_grid_events read_file path_join splitext dirname shp_dir n
         out_dir fname events.
Proof.
  intros Hn H. pose proof (integer_factor_pos n Hn) as Hf.
  unfold full_grid_file. unfold is_shp in H. rewrite H. simpl negb.
  cbv iota.
  destruct (assembled_cells (read_file (path_join [shp_dir; fname])))
    as (Z & E & _).
  destruct (thiessen_spec Z _ Hf) as (Z_th & Eth & Hr & Hc & _).
  destruct (bilinear_spec Z _ Hf) as (Z_bl & Ebl & Hr' & Hc' & _).
  rewrite out_extent_integer in Hr, Hc, Hr', Hc'.
  apply Nat2Z.inj in Hr, Hc, Hr', Hc'.
  eexists. split.
  - rewrite E. unfold lift. rewrite io_bind_ok. cbv zeta. simpl fst. simpl snd.
    rewrite Eth, Ebl. reflexivity.
  - unfold full_grid_events. exists Z. do 2 eexists. exists Z_th, Z_bl.
    split; [exact E|]. split; [unfold shape; congruence|].
    split; [unfold shape; congruence|]. split; [|reflexivity].
    intros i j Hi Hj.
    destruct (thiessen_integer_cells Z n i j Hn Hi Hj) as (Z' & E' & _ & Hv).
    rewrite Eth in E'. injection E' as <-. exact Hv.
Qed.

Lemma process_full_files_ok (files : list string) (shp_dir : string)
  (n : nat) (out_dir : string) :
  0 < n ->
  exists chunks,
    process_full_files read_file path_join splitext dirname files shp_dir
      (inject_Z (Z.of_nat n)) out_dir = (concat chunks, Ok tt)
    /\ Forall2 (full_grid_events read_file path_join splitext dirname shp_dir
                  n out_dir)
               (filter is_shp files) chunks.
Proof.
  intros Hn. unfold process_full_files.
  induction files as [|fname files (chunks & IH & Hall)]; simpl.
  - exists []. split; [reflexivity | constructor].
  - destruct (is_shp fname) eqn:Es.
    + destruct (full_grid_file_ok shp_dir n out_dir fname Hn Es)
        as (events & -> & Hev).
      exists (events :: chunks). rewrite io_bind_ok, IH. simpl.
      split; [reflexivity | now constructor].
    + rewrite full_grid_file_skip by assumption.
      exists chunks. rewrite io_bind_ok, IH. simpl. split; [reflexivity | exact Hall].
Qed.

Lemma process_full_grid_total_aux (shp_dir : string) (factor : Q)
  (out_dir : string) :
  (0 < factor)%Q ->
  exists chunks,
    process_full_grid listdir read_file path_join splitext dirname shp_dir
      factor out_dir = (concat chunks, Ok tt).
Proof.
  intros Hf. unfold process_full_grid, process_full_files.
  induction (listdir shp_dir) as [|fname files (chunks & IH)]; simpl.
  - now exists [].
  - destruct (full_grid_file_returns shp_dir factor out_dir fname Hf)
      as (events & ->).
    exists (events :: chunks). now rewrite io_bind_ok, IH.
Qed.

(** X10. With a whole factor n >= 1, on tables whose upscaled grids are
    within the addressable range, process_full_grid never raises.  It
    skips the entries that do not end in '.shp' and, for the others in
    listing order, creates the target directory and saves the thiessen
    figure, does the same for the bilinear figure, and prints the OK
    line.  Both figures have n times the rows and columns of the
    assembled grid, and the thiessen figure holds grid cell (i, j) at
    (n*i, n*j). *)
Theorem process_full_grid_total (shp_dir : string) (n : nat)
  (out_dir : string) :
  0 < n ->
  (forall fname Z xs ys,
     In fname (listdir shp_dir) -> is_shp fname = true ->
     shapefile_to_grid (read_file (path_join [shp_dir; fname])) = Ok (Z, xs, ys) ->
     addressable (Z.of_nat (n * nrows Z)) /\ addressable (Z.of_nat (n * ncols Z))) ->
  exists chunks,
    process_full_grid listdir read_file path_join splitext dirname shp_dir
      (inject_Z (Z.of_nat n)) out_dir = (concat chunks, Ok tt)
    /\ Forall2 (full_grid_events read_file path_join splitext dirname shp_dir
                  n out_dir)
               (filter is_shp (listdir shp_dir)) chunks.
Proof.
  intros Hn _. unfold process_full_grid. now apply process_full_files_ok.
Qed.

Lemma incomplete_grid_file_skip (shp_dir : string) (k : Z) (power : R)
  (out_dir fname : string) :
  is_shp fname = false ->
  incomplete_grid_file read_file path_join splitext dirname shp_dir k power
    out_dir fname = ([], Ok tt).
Proof.
  intros H. unfold incomplete_grid_file. unfold is_shp in H. now rewrite H.
Qed.

Lemma incomplete_grid_file_raises (shp_dir : string) (k : Z) (power : R)
  (out_dir fname : string) (Z_in : ndarray) (xs ys : list Qc) (e : exn) :
  is_shp fname = true ->
  shapefile_to_grid (read_file (path_join [shp_dir; fname])) = Ok (Z_in, xs, ys) ->
  idw_interpolation Z_in k power = Raise e ->
  incomplete_grid_file read_file path_join splitext dirname shp_dir k power
    out_dir fname = ([], Raise e).
Proof.
  intros H E Eidw. unfold incomplete_grid_file. unfold is_shp in H.
  rewrite H, E. simpl. now rewrite Eidw.
Qed.

Lemma incomplete_grid_file_ok (shp_dir : string) (k : Z) (power : R)
  (out_dir fname : string) (Z_in : ndarray) (xs ys : list Qc) :
  is_shp fname = true ->
  shapefile_to_grid (read_file (path_join [shp_dir; fname])) = Ok (Z_in, xs, ys) ->
  (2 <= Z.min k (Z.of_nat (length (known_cells Z_in))))%Z ->
  exists events,
    incomplete_grid_file read_file path_join splitext dirname shp_dir k power
      out_dir fname = (events, Ok tt)
    /\ incomplete_grid_events read_file path_join splitext dirname shp_dir
         out_dir fname events.
Proof.
  intros H E Hk. unfold incomplete_grid_file. unfold is_shp in H.
  destruct (idw_fills_every_gap Z_in k power Hk) as (Z_idw & Eidw & _).
  destruct (idw_returned_cells Z_in k power Z_idw Eidw) as [Hs Hc].
  eexists. split.
  - rewrite H, E. simpl. rewrite Eidw. reflexivity.
  - unfold incomplete_grid_events. exists Z_in, xs, ys, Z_idw.
    split; [exact E|]. split; [exact Hs|]. split; [|reflexivity].
    intros i j Hi Hj Hn. now apply (Hc i j Hi Hj).
Qed.

(** X11. process_incomplete_grid stops at the first '.shp' entry whose
    gap filling raises: the exception leaves the driver, the events of
    the entries before it stay, and the entries after it are not
    processed. *)
Theorem process_incomplete_grid_stops_at_failure (shp_dir : string) (k : Z)
  (power : R) (out_dir : string) (pre post : list string) (fname : string)
  (log : list event) (Z_in : ndarray) (xs ys : list Qc) (e : exn) :
  listdir shp_dir = pre ++ fname :: post ->
  process_incomplete_files read_file path_join splitext dirname pre shp_dir k
    power out_dir = (log, Ok tt) ->
  is_shp fname = true ->
  shapefile_to_grid (read_file (path_join [shp_dir; fname])) = Ok (Z_in, xs, ys) ->
  idw_interpolation Z_in k power = Raise e ->
  process_incomplete_grid listdir read_file path_join splitext dirname shp_dir
    k power out_dir = (log, Raise e).
Proof.
  intros Hl Hpre Hs E Eidw. unfold process_incomplete_grid. rewrite Hl.
  unfold process_incomplete_files in *. rewrite io_for_each_app, Hpre.
  rewrite io_bind_ok. simpl io_for_each.
  rewrite (incomplete_grid_file_raises shp_dir k power out_dir fname Z_in xs ys e)
    by assumption.
  simpl. now rewrite app_nil_r.
Qed.

(** X12. When the grid of every '.shp' entry has at least two known
    cells, k is at least 2 and the power has a magnitude below 2^63,
    process_incomplete_grid does not raise: for each such entry, in
    listing order, it saves one figure and prints the OK line.  The
    figure has the shape of the assembled grid and holds every known
    cell of that grid unchanged. *)
Theorem process_incomplete_grid_ok (shp_dir : string) (k : Z) (power : R)
  (out_dir : string) :
  (Rabs power < 2 ^ 63)%R ->
  (forall fname Z_in xs ys,
     In fname (listdir shp_dir) -> is_shp fname = true ->
     shapefile_to_grid (read_file (path_join [shp_dir; fname])) = Ok (Z_in, xs, ys) ->
     (2 <= Z.min k (Z.of_nat (length (known_cells Z_in))))%Z) ->
  exists chunks,
    process_incomplete_grid listdir read_file path_join splitext dirname
      shp_dir k power out_dir = (concat chunks, Ok tt)
    /\ Forall2 (incomplete_grid_events read_file path_join splitext dirname
                  shp_dir out_dir)
               (filter is_shp (listdir shp_dir)) chunks.
Proof.
  intros _.
  unfold process_incomplete_grid, process_incomplete_files.
  induction (listdir shp_dir) as [|fname files IH]; intros H; simpl.
  - exists []. split; [reflexivity | constructor].
  - destruct IH as (chunks & IH & Hall).
    { intros f Z_in xs ys Hin. apply H. now right. }
    destruct (is_shp fname) eqn:Es.
    + destruct (assembled_cells (read_file (path_join [shp_dir; fname])))
        as (Z_in & E & _).
      destruct (incomplete_grid_file_ok shp_dir k power out_dir fname Z_in _ _ Es E)
        as (events & -> & Hev).
      { eapply H; [now left | exact Es | exact E]. }
      exists (events :: chunks). rewrite io_bind_ok, IH. simpl.
      split; [reflexivity | now constructor].
    + rewrite incomplete_grid_file_skip by assumption.
      exists chunks. rewrite io_bind_ok, IH. simpl.
      split; [reflexivity | exact Hall].
Qed.

(** X13. In main the upscaling of the full grids (factor 7) never raises;
    the outcome of main is the outcome of the gap filling of the
    incomplete grids (k = 4, power = 2), and the closing line is printed
    only when that returns. *)
Theorem main_outcome :
  let inc := process_incomplete_grid listdir read_file path_join splitext
               dirname "DatotekeManjkajoceTocke"%string 4 2 "output"%string in
  exists log1,
    process_full_grid listdir read_file path_join splitext dirname
      "DatotekePolnaMreza"%string 7 "output"%string = (log1, Ok tt)
    /\ main listdir read_file path_join splitext dirname
       = (log1 ++ fst inc
               ++ match snd inc with
                  | Ok _ => [Print done_message]
                  | Raise _ => []
                  end,
          snd inc).
Proof.
  intros inc.
  destruct (process_full_grid_total_aux "DatotekePolnaMreza"%string 7
              "output"%string eq_refl) as (chunks & E).
  exists (concat chunks). split; [exact E|].
  unfold main. cbv zeta. rewrite E, io_bind_ok. fold inc.
  destruct inc as [log2 [[]|e]]; simpl.
  - reflexivity.
  - now rewrite app_nil_r.
Qed.

End DriverProperties.

Lemma gdf_pair_grid :
  exists Z, shapefile_to_grid gdf_pair = Ok (Z, [0%Qc; 1%Qc], [0%Qc])
            /\ shape Z = (1, 2)
            /\ known_cells Z = [(0, 0); (0, 1)].
Proof. eexists. repeat split; reflexivity. Qed.

Lemma process_full_grid_total_witness :
  exists chunks,
    process_full_grid demo_listdir (fun _ => gdf_pair) demo_path_join
      demo_splitext demo_dirname "in"%string (inject_Z (Z.of_nat 7)) "out"%string
    = (concat chunks, Ok tt)
    /\ Forall2 (full_grid_events (fun _ => gdf_pair) demo_path_join
                  demo_splitext demo_dirname "in"%string 7 "out"%string)
               ["a.shp"%string] chunks.
Proof.
  apply (process_full_grid_total demo_listdir (fun _ => gdf_pair)
           demo_path_join demo_splitext demo_dirname "in"%string 7
           "out"%string).
  - lia.
  - intros fname Z xs ys _ _ E.
    destruct gdf_pair_grid as (Z' & E' & Hs & _).
    rewrite E' in E. injection E as <- _ _. injection Hs as -> ->.
    unfold addressable. simpl. lia.
Defined.

Lemma process_incomplete_grid_stops_at_failure_witness :
  exists Z_a,
    process_incomplete_grid demo_listdir3 demo_read_file demo_path_join
      demo_splitext demo_dirname "in"%string 4 2 "out"%string
    = ([ Makedirs "out/idw/a_idw.png"%string;
         Savefig "out/idw/a_idw.png"%string "a: IDW"%string Z_a;
         Print "[OK] a: IDW"%string ],
       Raise ValueError).
Proof.
  eexists.
  eapply (process_incomplete_grid_stops_at_failure demo_listdir3 demo_read_file
           demo_path_join demo_splitext demo_dirname "in"%string 4 2
           "out"%string ["a.shp"%string] ["c.shp"%string] "b.shp"%string
           _ _ _ _ ValueError); reflexivity.
Defined.

Lemma process_incomplete_grid_ok_witness :
  exists chunks,
    process_incomplete_grid demo_listdir (fun _ => gdf_pair) demo_path_join
      demo_splitext demo_dirname "in"%string 4 2 "out"%string
    = (concat chunks, Ok tt)
    /\ Forall2 (incomplete_grid_events (fun _ => gdf_pair) demo_path_join
                  demo_splitext demo_dirname "in"%string "out"%string)
               ["a.shp"%string] chunks.
Proof.
  apply (process_incomplete_grid_ok demo_listdir (fun _ => gdf_pair)
           demo_path_join demo_splitext demo_dirname "in"%string 4 2
           "out"%string).
  - rewrite Rabs_pos_eq by lra. lra.
  - intros fname Z_in xs ys _ _ E.
    destruct gdf_pair_grid as (Z' & E0 & _ & Hk).
    rewrite E0 in E. injection E as <- _ _.
    rewrite Hk. simpl. lia.
Defined.

(** ** Assembly followed by gap filling *)

Lemma latest_value_finite (rows : list sample) (s : sample) :
  (forall r, In r rows -> isnan (sz r) = false) -> In s rows ->
  isnan (latest_value rows (sx s) (sy s) NaN) = false.
Proof.
  intros Hfin Hs. unfold latest_value.
  destruct (find (at_position (sx s) (sy s)) (rev rows)) as [s'|] eqn:F.
  - apply find_some in F as [Hin _]. apply Hfin. now apply in_rev.
  - exfalso. apply find_none with (x := s) in F;
      [|now apply (proj1 (in_rev _ _))].
    assert (at_position (sx s) (sy s) s = true) by now apply at_position_true.
    congruence.
Qed.

Lemma two_members {A : Type} (l : list A) (a b : A) :
  In a l -> In b l -> a <> b -> 2 <= length l.
Proof.
  destruct l as [|x [|y l]]; simpl; intros Ha Hb Hab; [contradiction| |lia].
  destruct Ha as [<-|[]], Hb as [<-|[]]. congruence.
Qed.

(** The cell of a sample with a finite value, in a table of finite
    values, is a known cell of the assembled grid. *)
Lemma sample_cell_known (gdf : list sample) (Z_in : ndarray) (s : sample)
  (i j : nat) :
  let xs := np_sort (unique (map sx gdf)) in
  let ys := np_sort (unique (map sy gdf)) in
  (forall r, In r gdf -> isnan (sz r) = false) -> In s gdf ->
  nrows Z_in = length ys -> ncols Z_in = length xs ->
  (forall a b, a < length ys -> b < length xs ->
     item Z_in a b = latest_value gdf (nth b xs 0%Qc) (nth a ys 0%Qc) NaN) ->
  i < length ys -> j < length xs ->
  nth j xs 0%Qc = sx s -> nth i ys 0%Qc = sy s ->
  In (i, j) (known_cells Z_in).
Proof.
  intros xs ys Hfin Hs Hr Hc Hcell Hi Hj Ex Ey.
  unfold known_cells. apply filter_In. split.
  - apply in_positions. simpl. lia.
  - simpl. rewrite Hcell, Ex, Ey by assumption.
    apply negb_true_iff. now apply latest_value_finite.
Qed.

Lemma assembled_then_filled (gdf : list sample) (k : Z) (power : R) :
  gdf <> [] ->
  (forall s, In s gdf -> isnan (sz s) = false) ->
  (2 <= k)%Z ->
  exists Z_in xs ys Z_out,
    shapefile_to_grid gdf = Ok (Z_in, xs, ys)
    /\ idw_interpolation Z_in k power = Ok Z_out
    /\ shape Z_out = (length ys, length xs)
    /\ forall i j, i < nrows Z_in -> j < ncols Z_in ->
                   isnan (item Z_in i j) = false ->
                   item Z_out i j = item Z_in i j.
Proof.
  intros Hne Hfin Hk.
  destruct (assembled_cells gdf) as (Z_in & E & Hr & Hc & Hcell).
  destruct (axis_spec (map sx gdf)) as [_ Hxin].
  destruct (axis_spec (map sy gdf)) as [_ Hyin].
  set (xs := np_sort (unique (map sx gdf))) in *.
  set (ys := np_sort (unique (map sy gdf))) in *.
  (* every sample has a cell, and that cell is known *)
  assert (Hcellof : forall s, In s gdf ->
            exists i j, i < length ys /\ j < length xs
                        /\ nth j xs 0%Qc = sx s /\ nth i ys 0%Qc = sy s).
  { intros s Hs.
    destruct (In_nth xs (sx s) 0%Qc) as (j & Hj & Ej);
      [apply Hxin; now apply in_map|].
    destruct (In_nth ys (sy s) 0%Qc) as (i & Hi & Ei);
      [apply Hyin; now apply in_map|].
    now exists i, j. }
  assert (Hidw : exists Z_out, idw_interpolation Z_in k power = Ok Z_out).
  { destruct (existsb (missing_at Z_in)
                (positions (nrows Z_in) (ncols Z_in))) eqn:Em.
    - apply existsb_exists in Em as ([i0 j0] & Hp & Hm).
      apply in_positions in Hp as [Hi0 Hj0]. simpl in Hi0, Hj0.
      unfold missing_at in Hm. simpl in Hm.
      rewrite Hr in Hi0. rewrite Hc in Hj0.
      assert (Hx0 : In (nth j0 xs 0%Qc) (map sx gdf))
        by (apply Hxin, nth_In; exact Hj0).
      assert (Hy0 : In (nth i0 ys 0%Qc) (map sy gdf))
        by (apply Hyin, nth_In; exact Hi0).
      apply in_map_iff in Hx0 as (s1 & Ex1 & Hs1).
      apply in_map_iff in Hy0 as (s2 & Ey2 & Hs2).
      destruct (In_nth ys (sy s1) 0%Qc) as (i1 & Hi1 & Ei1);
        [apply Hyin; now apply in_map|].
      destruct (In_nth xs (sx s2) 0%Qc) as (j2 & Hj2 & Ej2);
        [apply Hxin; now apply in_map|].
      assert (K1 : In (i1, j0) (known_cells Z_in)).
      { apply (sample_cell_known gdf Z_in s1); auto. }
      assert (K2 : In (i0, j2) (known_cells Z_in)).
      { apply (sample_cell_known gdf Z_in s2); auto. }
      assert (Hdiff : (i1, j0) <> (i0, j2)).
      { intros Heq. injection Heq as -> ->.
        apply known_cells_finite in K1 as (Hf & _). simpl in Hf.
        unfold finite in Hf. congruence. }
      pose proof (two_members _ _ _ K1 K2 Hdiff) as Hlen.
      destruct (idw_fills_every_gap Z_in k power) as (Z_out & Eo & _); [lia|].
      now exists Z_out.
    - exists Z_in. apply idw_complete_grid.
      + destruct gdf as [|s gdf']; [congruence|].
        destruct (Hcellof s (or_introl eq_refl)) as (i & j & Hi & Hj & _).
        rewrite Hr, Hc. nia.
      + intros i j Hi Hj. now apply not_missing_in_complete. }
  destruct Hidw as (Z_out & Eo).
  exists Z_in, xs, ys, Z_out. split; [exact E|]. split; [exact Eo|].
  destruct (idw_returned_cells Z_in k power Z_out Eo) as [Hs Hkeep].
  split; [rewrite Hs; unfold shape; congruence|].
  intros i j Hi Hj Hn. now apply (Hkeep i j Hi Hj).
Qed.

(** X14. A table that is not empty and has no missing value is always
    gap-filled when k is at least 2 and the power has a magnitude below
    2^63: assembling the grid and filling it never raises, and returns a
    grid of the assembled shape that holds every known cell of the
    assembled grid unchanged. *)
Theorem clean_table_is_filled (gdf : list sample) (k : Z) (power : R) :
  gdf <> [] ->
  (forall s, In s gdf -> isnan (sz s) = false) ->
  (2 <= k)%Z ->
  (Rabs power < 2 ^ 63)%R ->
  exists Z_in xs ys Z_out,
    shapefile_to_grid gdf = Ok (Z_in, xs, ys)
    /\ idw_interpolation Z_in k power = Ok Z_out
    /\ shape Z_out = (length ys, length xs)
    /\ forall i j, i < nrows Z_in -> j < ncols Z_in ->
                   isnan (item Z_in i j) = false ->
                   item Z_out i j = item Z_in i j.
Proof. intros Hne Hfin Hk _. now apply assembled_then_filled. Qed.

Lemma clean_table_is_filled_witness :
  exists Z_in xs ys Z_out,
    shapefile_to_grid gdf_example = Ok (Z_in, xs, ys)
    /\ idw_interpolation Z_in 4 2 = Ok Z_out
    /\ shape Z_out = (length ys, length xs)
    /\ forall i j, i < nrows Z_in -> j < ncols Z_in ->
                   isnan (item Z_in i j) = false ->
                   item Z_out i j = item Z_in i j.
Proof.
  apply (clean_table_is_filled gdf_example 4 2).
  - discriminate.
  - intros s [<- | [<- | [<- | []]]]; reflexivity.
  - lia.
  - rewrite Rabs_pos_eq by lra. lra.
Defined.

(** ** The distance floor *)

Lemma sqdist_distinct (q p : point) : q <> p -> (1 <= sqdist q p)%Z.
Proof.
  destruct q as [a b], p as [c d]. unfold sqdist. simpl. intros H.
  assert (a <> c \/ b <> d).
  { destruct (Nat.eq_dec a c) as [->|]; [|now left].
    destruct (Nat.eq_dec b d) as [->|]; [|now right]. congruence. }
  nia.
Qed.

(** X16. The distance from a missing cell to a known cell is at least 1,
    so the floor 1e-12 of line 67 never changes it: the weight of a known
    cell at distance d is exactly 1 / d^power. *)
Theorem distance_floor_is_inactive (Z_in : ndarray) (power : R) (i j : nat)
  (p : point) :
  isnan (item Z_in i j) = true -> In p (known_cells Z_in) ->
  (1 <= sqrt (IZR (sqdist (i, j) p)))%R
  /\ Rmax (sqrt (IZR (sqdist (i, j) p))) eps = sqrt (IZR (sqdist (i, j) p))
  /\ idw_weight power (i, j) p
     = (1 / Rpower (sqrt (IZR (sqdist (i, j) p))) power)%R.
Proof.
  intros Hnan Hp. apply known_cells_finite in Hp as (Hf & _).
  assert (Hne : (i, j) <> p).
  { intros <-. simpl in Hf. unfold finite in Hf. congruence. }
  apply (sqdist_distinct (i, j) p) in Hne.
  assert (H1 : (1 <= sqrt (IZR (sqdist (i, j) p)))%R).
  { rewrite <- sqrt_1 at 1. apply sqrt_le_1_alt. now apply IZR_le. }
  assert (Hmax : Rmax (sqrt (IZR (sqdist (i, j) p))) eps
                 = sqrt (IZR (sqdist (i, j) p))).
  { apply Rmax_left. pose proof eps_lt_1. lra. }
  split; [exact H1|]. split; [exact Hmax|].
  unfold idw_weight. now rewrite Hmax.
Qed.

Lemma distance_floor_is_inactive_witness :
  (1 <= sqrt (IZR (sqdist (0%nat, 1%nat) (1%nat, 0%nat))))%R
  /\ Rmax (sqrt (IZR (sqdist (0%nat, 1%nat) (1%nat, 0%nat)))) eps
     = sqrt (IZR (sqdist (0%nat, 1%nat) (1%nat, 0%nat)))
  /\ idw_weight 2 (0%nat, 1%nat) (1%nat, 0%nat)
     = (1 / Rpower (sqrt (IZR (sqdist (0%nat, 1%nat) (1%nat, 0%nat)))) 2)%R.
Proof.
  apply (distance_floor_is_inactive grid1 2 0 1 (1, 0)).
  - reflexivity.
  - simpl. tauto.
Defined.
